(** * Heap allocators over a caller-supplied region: implicit and explicit free lists

    A shallow embedding of [implicit.c] and [explicit.c].  Both files keep the
    region descriptor in file-level statics and the block headers inside the
    region itself, so every operation is a function from a state (the statics
    plus the memory) to a result and a new state.

    Machine model.
    - [size_t] and pointers are 64-bit: values are integers in [0, 2^64),
      and every [size_t] operation is followed by its wrap-around [wrap].
      Pointer arithmetic is address arithmetic in the same flat 64-bit space.
    - Memory is a finite map from byte addresses to 64-bit words; a cell that
      was never written reads as 0.  All accesses of the two allocators are
      8-byte words at [base + multiple of 8], so a word-granular memory keyed
      by the address of the word is exact for them.
    - A [curr_header] access is three word accesses at offsets 0, 8 and 16.
    - [memmove] copies a number of bytes: whole words, and for a count that
      is not a multiple of 8 the low bytes of one more word; the byte order
      is little-endian.
    - The loops of the C code are bounded only by the contents of the region,
      so they are translated with a fuel argument; running out of fuel is
      [None], which is not a result of the C function. *)

From Stdlib Require Import ZArith Lia List Bool.
From stdpp Require Import gmap.

Local Open Scope Z_scope.

(** ** 64-bit words and the memory *)

Module Machine.

Definition modulus : Z := 18446744073709551616.

Definition SIZE_MAX : Z := modulus - 1.

Definition wrap (z : Z) : Z := z mod modulus.

Definition NULL : Z := 0.

(** Pointer plus byte offset. *)
Definition padd (p off : Z) : Z := wrap (p + off).

Definition load (m : gmap Z Z) (a : Z) : Z := wrap (default 0 (m !! a)).

Definition store (m : gmap Z Z) (a v : Z) : gmap Z Z := <[a := v]> m.

(** The word [d] with its [k] bytes at the lowest addresses replaced by
    those of the word [s]; the byte at the lowest address is the least
    significant one (little-endian, as on x86-64). *)
Definition splice_low (k s d : Z) : Z :=
  s mod 2 ^ (8 * k) + (d / 2 ^ (8 * k)) * 2 ^ (8 * k).

(** [memmove(dst, src, n)] copies [n] bytes: [n / 8] whole words, then the
    [n mod 8] bytes that are left, which replace the low bytes of the next
    word of the destination.  The source is read in full before the first
    write, which is what makes the C function safe on overlapping ranges. *)
Definition memmove (m : gmap Z Z) (dst src n : Z) : gmap Z Z :=
  let offs := map (fun k => 8 * Z.of_nat k) (seq 0 (Z.to_nat (n / 8))) in
  let vals := map (fun o => (o, load m (padd src o))) offs in
  let rest :=
    if n mod 8 =? 0 then []
    else [(8 * (n / 8),
           splice_low (n mod 8) (load m (padd src (8 * (n / 8))))
                      (load m (padd dst (8 * (n / 8)))))] in
  fold_left (fun m' ov => store m' (padd dst (fst ov)) (snd ov)) (vals ++ rest) m.

(** A 64-bit value. *)
Definition in_range (z : Z) : Prop := 0 <= z < modulus.

(** Linear arithmetic modulo 2^64. *)
Ltac word_lia :=
  unfold padd, wrap, in_range, NULL, SIZE_MAX, modulus in *;
  Z.to_euclidean_division_equations; lia.

End Machine.

Import Machine.

(** ** explicit.c *)

Module Explicit.

Record curr_header := mk_header {
  h : Z;      (* payload size with status bit *)
  prev : Z;   (* previous free block *)
  next : Z    (* next free block *)
}.

Definition load_header (m : gmap Z Z) (a : Z) : curr_header :=
  {| h := load m a; prev := load m (padd a 8); next := load m (padd a 16) |}.

Definition store_header (m : gmap Z Z) (a : Z) (s : curr_header) : gmap Z Z :=
  store (store (store m a (h s)) (padd a 8) (prev s)) (padd a 16) (next s).

Definition set_prev (s : curr_header) (v : Z) : curr_header :=
  {| h := h s; prev := v; next := next s |}.

Definition set_next (s : curr_header) (v : Z) : curr_header :=
  {| h := h s; prev := prev s; next := v |}.

Definition set_h (s : curr_header) (v : Z) : curr_header :=
  {| h := v; prev := prev s; next := next s |}.

(** The file-level statics and the region. *)
Record state := mk_state {
  heapStart : Z;
  heapSize : Z;
  sizeUsed : Z;
  freeEnd : Z;
  freeSpace : Z;
  mem : gmap Z Z
}.

Definition with_mem (st : state) (m : gmap Z Z) : state :=
  {| heapStart := heapStart st; heapSize := heapSize st; sizeUsed := sizeUsed st;
     freeEnd := freeEnd st; freeSpace := freeSpace st; mem := m |}.

Definition with_freeEnd (st : state) (p : Z) : state :=
  {| heapStart := heapStart st; heapSize := heapSize st; sizeUsed := sizeUsed st;
     freeEnd := p; freeSpace := freeSpace st; mem := mem st |}.

Definition with_counters (st : state) (used free : Z) : state :=
  {| heapStart := heapStart st; heapSize := heapSize st; sizeUsed := used;
     freeEnd := freeEnd st; freeSpace := free; mem := mem st |}.

(** [(number + 8 - 1) & ~(8 - 1)] on [size_t]; [~(8 - 1)] is the [int] -8,
    converted to [size_t] for the conjunction. *)
Definition roundup (number : Z) : Z :=
  Z.land (wrap (wrap (number + 8) - 1)) (wrap (Z.lnot (8 - 1))).

(** [splitFunc(currentFree, &used, &payload, requested_size)]: the two
    out-parameters are returned next to the new state. *)
Definition splitFunc (currentFree used payload requested_size : Z) (st : state)
  : Z * Z * state :=
  let mystruct := load_header (mem st) currentFree in
  let split_address := padd (padd currentFree 16) requested_size in
  let split := {| h := wrap (payload - wrap (requested_size + 16));
                  prev := prev mystruct;
                  next := next mystruct |} in
  let st := with_mem st (store_header (mem st) split_address split) in
  let used := wrap (16 + requested_size) in
  let payload := requested_size in
  let st :=
    if negb (next mystruct =? NULL) then
      let nextStruct := load_header (mem st) (next mystruct) in
      let nextStruct := set_prev nextStruct split_address in
      with_mem st (store_header (mem st) (next mystruct) nextStruct)
    else st in
  let st :=
    if negb (prev mystruct =? NULL) then
      let prevStruct := load_header (mem st) (prev mystruct) in
      let prevStruct := set_next prevStruct split_address in
      with_mem st (store_header (mem st) (prev mystruct) prevStruct)
    else if prev mystruct =? NULL then with_freeEnd st split_address
    else st in
  (used, payload, st).

(** [cantSplit(&used, currentFree, payload)]. *)
Definition cantSplit (used currentFree payload : Z) (st : state) : Z * state :=
  let mystruct := load_header (mem st) currentFree in
  let used := wrap (16 + payload) in
  let st :=
    if negb (prev mystruct =? NULL) then
      let prevStruct := load_header (mem st) (prev mystruct) in
      let prevStruct := set_next prevStruct (next mystruct) in
      with_mem st (store_header (mem st) (prev mystruct) prevStruct)
    else with_freeEnd st (next mystruct) in
  let st :=
    if negb (next mystruct =? NULL) then
      let nextStruct := load_header (mem st) (next mystruct) in
      let nextStruct := set_prev nextStruct (prev mystruct) in
      with_mem st (store_header (mem st) (next mystruct) nextStruct)
    else if (next mystruct =? NULL) && negb (prev mystruct =? NULL) then
      with_freeEnd st (prev mystruct)
    else if (next mystruct =? NULL) && (prev mystruct =? NULL) then
      with_freeEnd st NULL
    else st in
  (used, st).

Definition myinit (heap_start heap_size : Z) (st : state) : bool * state :=
  if heap_start =? NULL then (false, st)
  else
    let mystruct := {| h := wrap (heap_size - 16); prev := NULL; next := NULL |} in
    (true,
     {| heapStart := heap_start;
        heapSize := heap_size;
        freeSpace := heap_size;
        freeEnd := heap_start;
        sizeUsed := 0;
        mem := store_header (mem st) heap_start mystruct |}).

Section WithLimit.

(** [MAX_REQUEST_SIZE] comes from [allocator.h], which is not part of the
    sources at hand; it is a parameter of everything that mentions it. *)
Variable MAX_REQUEST_SIZE : Z.

(** The body of the [if] at lines 168-195 of [mymalloc], up to and including
    the store of the header; lines 325-343 of [myrealloc] repeat it word for
    word.  Returns the payload address and the new state. *)
Definition take_block (currentFree : Z) (mystruct : curr_header)
    (payload requested_size : Z) (st : state) : Z * state :=
  let used := wrap (16 + payload) in
  let '(used, payload, st) :=
    if wrap (payload - requested_size) >? 24
    then splitFunc currentFree used payload requested_size st
    else let '(used, st) := cantSplit used currentFree payload st in
         (used, payload, st) in
  let st := with_counters st (wrap (sizeUsed st + used)) (wrap (freeSpace st - used)) in
  let mystruct :=
    if Z.land payload 1 =? 0 then set_h mystruct (Z.lxor payload 1)
    else mystruct (* printf("invalid payload") *) in
  let st := with_mem st (store_header (mem st) currentFree mystruct) in
  (padd currentFree 16, st).

(** The [while (space > 0)] loop of [mymalloc]. *)
Fixpoint malloc_loop (fuel : nat) (requested_size space currentFree : Z)
    (st : state) : option (Z * state) :=
  match fuel with
  | O => None
  | S fuel =>
    if space >? 0 then
      if currentFree =? NULL then Some (NULL, st)
      else
        let mystruct := load_header (mem st) currentFree in
        let payload := h mystruct in
        let state := Z.land (h mystruct) 1 in
        if (state =? 0) && ((requested_size <=? MAX_REQUEST_SIZE)
                            && (requested_size <=? payload))
        then Some (take_block currentFree mystruct payload requested_size st)
        else
          (* a free block that is too small, or an allocated block in the
             free list (printf only) *)
          malloc_loop fuel requested_size (wrap (space - wrap (16 + payload)))
                      (next mystruct) st
    else Some (NULL, st)
  end.

Definition mymalloc (fuel : nat) (requested_size : Z) (st : state)
  : option (Z * state) :=
  if requested_size =? 0 then Some (NULL, st)
  else
    let requested_size := roundup requested_size in
    if (requested_size >? MAX_REQUEST_SIZE)
       || (wrap (requested_size + sizeUsed st) >? heapSize st)
    then Some (NULL, st)
    else malloc_loop fuel requested_size (freeSpace st) (freeEnd st) st.

Definition myfree (ptr : Z) (st : state) : state :=
  if negb (ptr =? NULL) then
    let header := padd ptr (-16) in
    let mystruct := load_header (mem st) header in
    let payload := Z.lxor (h mystruct) 1 in
    let st := with_counters st (wrap (sizeUsed st - wrap (payload + 16)))
                               (wrap (freeSpace st + wrap (payload + 16))) in
    let nextAddress := padd ptr payload in
    if nextAddress <? padd (heapStart st) (heapSize st) then
      let next_header := load_header (mem st) nextAddress in
      let next_payload := h next_header in
      if Z.land next_payload 1 =? 0 then
        let newPayload := wrap (payload + wrap (16 + next_payload)) in
        let mystruct := {| h := newPayload;
                           prev := prev next_header;
                           next := next next_header |} in
        let st := with_mem st (store_header (mem st) header mystruct) in
        let st :=
          if negb (prev next_header =? NULL) then
            let prevStruct := load_header (mem st) (prev next_header) in
            let prevStruct := set_next prevStruct header in
            with_mem st (store_header (mem st) (prev next_header) prevStruct)
          else st in
        let st :=
          if negb (next next_header =? NULL) then
            let nextStruct := load_header (mem st) (next next_header) in
            let nextStruct := set_prev nextStruct header in
            with_mem st (store_header (mem st) (next next_header) nextStruct)
          else st in
        if prev next_header =? NULL then with_freeEnd st header else st
      else st
    else
      let mystruct := {| h := payload; prev := NULL; next := freeEnd st |} in
      let st :=
        if negb (freeEnd st =? NULL) then
          let freeList := load_header (mem st) (freeEnd st) in
          let freeList := set_prev freeList header in
          with_mem st (store_header (mem st) (freeEnd st) freeList)
        else st in
      let st := with_mem st (store_header (mem st) header mystruct) in
      with_freeEnd st header
  else st.

(** The [while (space > 0)] loop of [myrealloc]. *)
Fixpoint realloc_loop (fuel : nat) (old_ptr old_payload requested_size space currentFree : Z)
    (st : state) : option (Z * state) :=
  match fuel with
  | O => None
  | S fuel =>
    if space >? 0 then
      if currentFree =? NULL then Some (NULL, st)
      else
        let mystruct := load_header (mem st) currentFree in
        let payload := h mystruct in
        let state := Z.land (h mystruct) 1 in
        if (state =? 0) && ((requested_size <=? MAX_REQUEST_SIZE)
                            && (requested_size <=? payload))
        then
          let '(ptr, st) := take_block currentFree mystruct payload requested_size st in
          let st := with_mem st (memmove (mem st) ptr old_ptr old_payload) in
          let st := myfree old_ptr st in
          Some (ptr, st)
        else
          realloc_loop fuel old_ptr old_payload requested_size
                       (wrap (space - wrap (16 + payload))) (next mystruct) st
    else Some (NULL, st)
  end.

Definition myrealloc (fuel : nat) (old_ptr new_size : Z) (st : state)
  : option (Z * state) :=
  if (new_size =? 0) && negb (old_ptr =? NULL) then
    Some (old_ptr, myfree old_ptr st)
  else
    let requested_size := roundup new_size in
    if (requested_size >? MAX_REQUEST_SIZE)
       || (wrap (requested_size + sizeUsed st) >? heapSize st)
    then Some (NULL, st)
    else if old_ptr =? NULL then mymalloc fuel new_size st
    else
      let old_pointer := padd old_ptr (-16) in
      let old_header := load_header (mem st) old_pointer in
      let old_payload := Z.lxor (h old_header) 1 in
      if requested_size <=? old_payload then Some (old_ptr, st)
      else realloc_loop fuel old_ptr old_payload requested_size
                        (freeSpace st) (freeEnd st) st.

End WithLimit.

(** The sweep of [validate_heap]: [for (i = 0; i < heapSize; i += 16)] with
    [i += payload] at the end of the body.  Returns [(used, frees)]. *)
Fixpoint validate_sweep (fuel : nat) (i used frees : Z) (st : state)
  : option (Z * Z) :=
  match fuel with
  | O => None
  | S fuel =>
    if i <? heapSize st then
      let nextIndex := padd (heapStart st) i in
      let mystruct := load_header (mem st) nextIndex in
      let state := Z.land (h mystruct) 1 in
      let payload := h mystruct in
      let '(payload, used, frees) :=
        if state =? 1 then
          let payload := Z.lxor (h mystruct) 1 in
          (payload, wrap (used + wrap (16 + payload)), frees)
        else if state =? 0 then
          (payload, used, wrap (frees + wrap (16 + payload)))
        else (payload, used, frees) in
      let i := wrap (i + payload) in
      validate_sweep fuel (wrap (i + 16)) used frees st
    else Some (used, frees)
  end.

(** The free-list walk of [validate_heap]: [None] is out of fuel,
    [Some None] is the early [return false], [Some (Some freed)] is the
    normal exit of the loop with the accumulated sum. *)
Fixpoint validate_walk (fuel : nat) (current freed : Z) (st : state)
  : option (option Z) :=
  match fuel with
  | O => None
  | S fuel =>
    if negb (current =? NULL) then
      let freeStructs := load_header (mem st) current in
      let freePayload := h freeStructs in
      if Z.land freePayload 1 =? 1 then Some None
      else validate_walk fuel (next freeStructs) (wrap (freed + wrap (freePayload + 16))) st
    else Some (Some freed)
  end.

Definition validate_heap (fuel : nat) (st : state) : option bool :=
  if sizeUsed st >? heapSize st then Some false
  else
    match validate_sweep fuel 0 0 0 st with
    | None => None
    | Some (used, frees) =>
      match validate_walk fuel (freeEnd st) 0 st with
      | None => None
      | Some None => Some false
      | Some (Some freed) =>
        if negb (wrap (frees + used) =? heapSize st) then Some false
        else if negb (wrap (freeSpace st + sizeUsed st) =? heapSize st) then Some false
        else Some true
      end
    end.

(** *** The placement search and the reachable states *)

Section Search.

Variable MAX_REQUEST_SIZE : Z.

(** The two [while (space > 0)] loops with the placement left out: which
    block the loop stops at.  [None] is out of fuel, [Some None] the exit
    with no block ([return NULL]), [Some (Some cur)] the selected block. *)
Fixpoint first_fit (fuel : nat) (requested_size space currentFree : Z)
    (m : gmap Z Z) : option (option Z) :=
  match fuel with
  | O => None
  | S fuel =>
    if space >? 0 then
      if currentFree =? NULL then Some None
      else
        let mystruct := load_header m currentFree in
        if (Z.land (h mystruct) 1 =? 0)
           && ((requested_size <=? MAX_REQUEST_SIZE)
               && (requested_size <=? h mystruct))
        then Some (Some currentFree)
        else first_fit fuel requested_size
                       (wrap (space - wrap (16 + h mystruct))) (next mystruct) m
    else Some None
  end.

(** States the public operations can produce, from a successful [myinit]
    on, whatever the arguments of the calls.  The client may also write to
    the region between two calls. *)
Inductive reachable : state -> Prop :=
| reach_init heap_start heap_size st st' :
    0 <= heap_size < modulus ->
    myinit heap_start heap_size st = (true, st') ->
    reachable st'
| reach_malloc fuel requested_size st ptr st' :
    reachable st ->
    mymalloc MAX_REQUEST_SIZE fuel requested_size st = Some (ptr, st') ->
    reachable st'
| reach_free ptr st :
    reachable st ->
    reachable (myfree ptr st)
| reach_realloc fuel old_ptr new_size st ptr st' :
    reachable st ->
    myrealloc MAX_REQUEST_SIZE fuel old_ptr new_size st = Some (ptr, st') ->
    reachable st'
| reach_client_store a v st :
    reachable st ->
    reachable (with_mem st (store (mem st) a v)).

End Search.

(** *** The free list as a list of nodes *)

(** [chain m p nodes]: following [next] from [p] visits exactly [nodes] and
    then reaches the null pointer. *)
Fixpoint chain (m : gmap Z Z) (p : Z) (nodes : list Z) : bool :=
  match nodes with
  | [] => p =? NULL
  | n :: rest =>
    (p =? n) && negb (n =? NULL) && chain m (next (load_header m n)) rest
  end.

(** Header plus payload of every node, summed without wrap-around. *)
Definition list_bytes (m : gmap Z Z) (nodes : list Z) : Z :=
  fold_right (fun n acc => 16 + h (load_header m n) + acc) 0 nodes.

(** A free-list node that can serve the rounded request. *)
Definition fits (m : gmap Z Z) (requested_size n : Z) : bool :=
  (Z.land (h (load_header m n)) 1 =? 0) && (requested_size <=? h (load_header m n)).

(** A node whose payload address exists and is not the null pointer. *)
Definition addressable (n : Z) : bool := (0 <? n) && (n + 16 <? modulus).

(** The statics other than [freeEnd] that an operation leaves alone. *)
Definition same_frame (st st' : state) : Prop :=
  heapStart st' = heapStart st /\ heapSize st' = heapSize st
  /\ sizeUsed st' = sizeUsed st /\ freeSpace st' = freeSpace st.

(** The size a placement leaves in the header of the block it hands out:
    the rounded request after a split, the whole payload otherwise. *)
Definition placed_payload (payload rs : Z) : Z :=
  if wrap (payload - rs) >? 24 then rs else payload.

(** The two counters are 64-bit values that add up, in [size_t] arithmetic,
    to the length of the region: the check [(freeSpace + sizeUsed) != heapSize]
    of [validate_heap]. *)
Definition budget (st : state) : Prop :=
  in_range (heapSize st) /\ in_range (sizeUsed st) /\ in_range (freeSpace st)
  /\ wrap (sizeUsed st + freeSpace st) = heapSize st.

(** *** The well-formed region *)

(** Payload size recorded in a header word. *)
Definition payload_of (w : Z) : Z :=
  if Z.land w 1 =? 1 then Z.lxor w 1 else w.

(** Bytes, headers included, of the blocks [ws]. *)
Definition span (ws : list Z) : Z :=
  fold_right (fun w acc => payload_of w + 16 + acc) 0 ws.

(** A payload size that is a multiple of 8 and has room for the [next] link
    that lies over its first word. *)
Definition sound_block (w : Z) : bool :=
  (payload_of w mod 8 =? 0) && (8 <=? payload_of w).

(** [shaped st i ws]: the blocks whose header words are [ws], laid out from
    offset [i], each 16 bytes plus its payload, end exactly at the end of
    the region; every block but the last is allocated; a free last block is
    the one node of the free list ([freeEnd] points at it and its links are
    null), and with an allocated last block the free list is empty. *)
Fixpoint shaped (st : state) (i : Z) (ws : list Z) : bool :=
  match ws with
  | [] => false
  | w :: rest =>
    (i <? heapSize st)
    && (load (mem st) (padd (heapStart st) i) =? w)
    && match rest with
       | [] =>
         (i + payload_of w + 16 =? heapSize st)
         && (if Z.land w 1 =? 0
             then (freeEnd st =? heapStart st + i)
                  && (load (mem st) (padd (heapStart st) (i + 8)) =? NULL)
                  && (load (mem st) (padd (heapStart st) (i + 16)) =? NULL)
             else freeEnd st =? NULL)
       | _ :: _ =>
         (Z.land w 1 =? 1)
         && (i + payload_of w + 16 <=? heapSize st)
         && shaped st (i + payload_of w + 16) rest
       end
  end.

(** The region lies inside the address space and does not start at the null
    pointer. *)
Definition placed (st : state) : bool :=
  (0 <? heapStart st) && (heapStart st + heapSize st <? modulus)
  && (0 <=? heapSize st).

(** [heap_ok st ws]: the region starts at a multiple of 8, is shaped by the
    blocks [ws], and every block is sound. *)
Definition heap_ok (st : state) (ws : list Z) : bool :=
  placed st && (heapStart st mod 8 =? 0) && shaped st 0 ws
  && forallb sound_block ws.

(** The blocks after the last block, free and large enough, has served a
    rounded request: split in two when more than 24 bytes are left over,
    flagged as a whole otherwise. *)
Fixpoint allocate_last (requested_size : Z) (ws : list Z) : list Z :=
  match ws with
  | [] => []
  | w :: rest =>
    match rest with
    | [] =>
      if (Z.land w 1 =? 0) && (requested_size <=? w) then
        if w - requested_size >? 24
        then [Z.lxor requested_size 1; w - (requested_size + 16)]
        else [Z.lxor w 1]
      else [w]
    | _ :: _ => w :: allocate_last requested_size rest
    end
  end.

(** The blocks after [myfree] of block number [k]: the last block is
    flagged free; a block in front of a free block absorbs it; a block in
    front of an allocated block stays as it is. *)
Fixpoint free_in (k : nat) (ws : list Z) : list Z :=
  match ws with
  | [] => []
  | w :: rest =>
    match k with
    | O =>
      match rest with
      | [] => [Z.lxor w 1]
      | w' :: rest' =>
        if Z.land w' 1 =? 0 then (Z.lxor w 1 + (16 + w')) :: rest'
        else w :: rest
      end
    | S k => w :: free_in k rest
    end
  end.

(** The payload address of block number [k]. *)
Definition payload_address (st : state) (ws : list Z) (k : nat) : Z :=
  heapStart st + span (take k ws) + 16.

(** Header plus payload of the blocks flagged allocated. *)
Definition used_bytes (ws : list Z) : Z :=
  fold_right (fun w acc => if Z.land w 1 =? 1 then payload_of w + 16 + acc else acc)
             0 ws.

(** Correct use: [myinit] on an aligned region of at least 24 bytes inside
    the address space; then calls of [mymalloc], for at most [SIZE_MAX - 7]
    bytes, that return a block; calls of [myrealloc] on a block flagged
    allocated, for at most [SIZE_MAX - 7] bytes and a rounded size above the
    payload of the block, that return a block; [myfree] of blocks flagged
    allocated; and writes of the client into the payload of such a block.
    Calls that return the null pointer or the old pointer leave the state
    as it is.  [ws] are the header words of the blocks, in address order. *)
Inductive served (MAX_REQUEST_SIZE : Z) : state -> list Z -> Prop :=
| served_init heap_start heap_size st :
    0 < heap_start -> heap_start mod 8 = 0 ->
    24 <= heap_size -> heap_size mod 8 = 0 ->
    heap_start + heap_size < modulus ->
    served MAX_REQUEST_SIZE (myinit heap_start heap_size st).2 [heap_size - 16]
| served_malloc fuel requested_size st ws ptr st' :
    served MAX_REQUEST_SIZE st ws ->
    0 <= requested_size <= SIZE_MAX - 7 ->
    mymalloc MAX_REQUEST_SIZE fuel requested_size st = Some (ptr, st') ->
    ptr <> NULL ->
    served MAX_REQUEST_SIZE st' (allocate_last (roundup requested_size) ws)
| served_free st ws k w :
    served MAX_REQUEST_SIZE st ws ->
    ws !! k = Some w -> Z.land w 1 = 1 ->
    served MAX_REQUEST_SIZE (myfree (payload_address st ws k) st) (free_in k ws)
| served_realloc fuel new_size st ws k w ptr st' :
    served MAX_REQUEST_SIZE st ws ->
    ws !! k = Some w -> Z.land w 1 = 1 ->
    0 < new_size <= SIZE_MAX - 7 -> payload_of w < roundup new_size ->
    myrealloc MAX_REQUEST_SIZE fuel (payload_address st ws k) new_size st
    = Some (ptr, st') ->
    ptr <> NULL ->
    served MAX_REQUEST_SIZE st' (allocate_last (roundup new_size) ws)
| served_store st ws k w j v :
    served MAX_REQUEST_SIZE st ws ->
    ws !! k = Some w -> Z.land w 1 = 1 -> 0 <= j -> 8 * j < payload_of w ->
    served MAX_REQUEST_SIZE
           (with_mem st (store (mem st) (payload_address st ws k + 8 * j) v)) ws.

End Explicit.

(** ** implicit.c *)

Module Implicit.

Record state := mk_state {
  heapStart : Z;
  heapSize : Z;
  sizeUsed : Z;
  mem : gmap Z Z
}.

Definition with_mem (st : state) (m : gmap Z Z) : state :=
  {| heapStart := heapStart st; heapSize := heapSize st; sizeUsed := sizeUsed st;
     mem := m |}.

Definition with_sizeUsed (st : state) (used : Z) : state :=
  {| heapStart := heapStart st; heapSize := heapSize st; sizeUsed := used;
     mem := mem st |}.

Definition roundup (number : Z) : Z :=
  Z.land (wrap (wrap (number + 8) - 1)) (wrap (Z.lnot (8 - 1))).

(** [splitFunc(&used, h, payload, requested_size)]; the out-parameter [used]
    is returned next to the new state. *)
Definition splitFunc (used h payload requested_size : Z) (st : state) : Z * state :=
  if wrap (payload - requested_size) >=? 16 then
    let split_address := padd h (wrap (8 + requested_size)) in
    let split := split_address in
    let st := with_mem st (store (mem st) split (wrap (payload - wrap (requested_size + 8)))) in
    let st := with_mem st (store (mem st) h requested_size) in
    let used := wrap (8 + requested_size) in
    (used, st)
  else (used, st).

Definition myinit (heap_start heap_size : Z) (st : state) : bool * state :=
  if heap_start =? NULL then (false, st)
  else
    let header := heap_start in
    (true,
     {| heapStart := heap_start;
        heapSize := heap_size;
        mem := store (mem st) header (wrap (heap_size - 8));
        sizeUsed := 0 |}).

Section WithLimit.

Variable MAX_REQUEST_SIZE : Z.

(** The [for (i = 0; i < heapSize; i += 8)] loop of [mymalloc], entered at
    index [i]; the body ends with [i += payload]. *)
Fixpoint malloc_loop (fuel : nat) (requested_size i : Z) (st : state)
  : option (Z * state) :=
  match fuel with
  | O => None
  | S fuel =>
    if i <? heapSize st then
      let newIndex := padd (heapStart st) i in
      let header := newIndex in
      let payload := load (mem st) header in
      let state := Z.land (load (mem st) header) 1 in
      if (state =? 0) && ((requested_size <=? MAX_REQUEST_SIZE)
                          && (requested_size <=? payload))
      then
        let used := wrap (8 + payload) in
        let '(used, st) :=
          if wrap (payload - requested_size) >=? 16
          then splitFunc used header payload requested_size st
          else (used, st) in
        let st := with_mem st (store (mem st) header (Z.lxor (load (mem st) header) 1)) in
        let st := with_sizeUsed st (wrap (sizeUsed st + used)) in
        let payload_address := padd header 8 in
        Some (payload_address, st)
      else
        let payload := if state =? 1 then Z.lxor payload 1 else payload in
        let i := wrap (i + payload) in
        malloc_loop fuel requested_size (wrap (i + 8)) st
    else Some (NULL, st)
  end.

Definition mymalloc (fuel : nat) (requested_size : Z) (st : state)
  : option (Z * state) :=
  if requested_size =? 0 then Some (NULL, st)
  else
    let requested_size := roundup requested_size in
    if (requested_size >? MAX_REQUEST_SIZE)
       || (wrap (requested_size + sizeUsed st) >? heapSize st)
    then Some (NULL, st)
    else malloc_loop fuel requested_size 0 st.

Definition myfree (ptr : Z) (st : state) : state :=
  if negb (ptr =? NULL) then
    let h := padd ptr (-8) in
    let header := h in
    let st := with_mem st (store (mem st) header (Z.lxor (load (mem st) header) 1)) in
    with_sizeUsed st (wrap (sizeUsed st - wrap (load (mem st) header + 8)))
  else st.

(** The [for] loop of [myrealloc]. *)
Fixpoint realloc_loop (fuel : nat) (old_ptr new_size requested_size i : Z)
    (st : state) : option (Z * state) :=
  match fuel with
  | O => None
  | S fuel =>
    if i <? heapSize st then
      let newindex := padd (heapStart st) i in
      let header := newindex in
      let payload := load (mem st) header in
      let state := Z.land (load (mem st) header) 1 in
      if (state =? 0) && ((requested_size <=? MAX_REQUEST_SIZE)
                          && (requested_size <=? payload))
      then
        let used := wrap (8 + payload) in
        let old_header := padd old_ptr (-8) in
        let old_h := old_header in
        if Z.lxor (load (mem st) old_h) 1 >? new_size then Some (old_ptr, st)
        else
          let st := with_mem st (store (mem st) old_h (Z.lxor (load (mem st) old_h) 1)) in
          let st := with_sizeUsed st (wrap (sizeUsed st - wrap (load (mem st) old_h + 8))) in
          let '(used, st) :=
            if wrap (payload - requested_size) >=? 16
            then splitFunc used header payload requested_size st
            else (used, st) in
          let st := with_mem st (store (mem st) header (Z.lxor (load (mem st) header) 1)) in
          let st := with_sizeUsed st (wrap (sizeUsed st + used)) in
          let payload_address := padd header 8 in
          let ptr := payload_address in
          let st := with_mem st (memmove (mem st) ptr old_ptr (load (mem st) old_h)) in
          Some (ptr, st)
      else
        let payload := if state =? 1 then Z.lxor payload 1 else payload in
        let i := wrap (i + payload) in
        realloc_loop fuel old_ptr new_size requested_size (wrap (i + 8)) st
    else Some (NULL, st)
  end.

Definition myrealloc (fuel : nat) (old_ptr new_size : Z) (st : state)
  : option (Z * state) :=
  if (new_size =? 0) && negb (old_ptr =? NULL) then
    Some (old_ptr, myfree old_ptr st)
  else
    let requested_size := roundup new_size in
    if (requested_size >? MAX_REQUEST_SIZE)
       || (wrap (requested_size + sizeUsed st) >? heapSize st)
    then Some (NULL, st)
    else if old_ptr =? NULL then mymalloc fuel new_size st
    else realloc_loop fuel old_ptr new_size requested_size 0 st.

End WithLimit.

(** The sweep of [validate_heap]: [for (i = 0; i < heapSize; i += 8)] with
    [i += payload] at the end of the body.  Returns [(used, freed)]. *)
Fixpoint validate_sweep (fuel : nat) (i used freed : Z) (st : state)
  : option (Z * Z) :=
  match fuel with
  | O => None
  | S fuel =>
    if i <? heapSize st then
      let current_index := padd (heapStart st) i in
      let h := current_index in
      let payload := Z.lxor (load (mem st) h) 1 in
      let state := Z.land (load (mem st) h) 1 in
      let '(payload, used, freed) :=
        if state =? 0 then
          let payload := load (mem st) h in
          let current_free := wrap (8 + payload) in
          (payload, used, wrap (freed + current_free))
        else if state =? 1 then
          let current_used := wrap (8 + payload) in
          (payload, wrap (used + current_used), freed)
        else (payload, used, freed) in
      let i := wrap (i + payload) in
      validate_sweep fuel (wrap (i + 8)) used freed st
    else Some (used, freed)
  end.

Definition validate_heap (fuel : nat) (st : state) : option bool :=
  if sizeUsed st >? heapSize st then Some false
  else
    match validate_sweep fuel 0 0 0 st with
    | None => None
    | Some (used, freed) =>
      if negb (wrap (freed + used) =? heapSize st) then Some false
      else if negb (sizeUsed st =? used) then Some false
      else Some true
    end.

(** *** The placement search *)

Section Search.

Variable MAX_REQUEST_SIZE : Z.

(** The [for] loops of [mymalloc] and [myrealloc] with the placement left
    out: the header the scan stops at.  [None] is out of fuel, [Some None]
    the exit with no block, [Some (Some header)] the selected block. *)
Fixpoint first_fit (fuel : nat) (requested_size i : Z) (st : state)
  : option (option Z) :=
  match fuel with
  | O => None
  | S fuel =>
    if i <? heapSize st then
      let header := padd (heapStart st) i in
      let payload := load (mem st) header in
      let state := Z.land (load (mem st) header) 1 in
      if (state =? 0) && ((requested_size <=? MAX_REQUEST_SIZE)
                          && (requested_size <=? payload))
      then Some (Some header)
      else
        let payload := if state =? 1 then Z.lxor payload 1 else payload in
        let i := wrap (i + payload) in
        first_fit fuel requested_size (wrap (i + 8)) st
    else Some None
  end.

End Search.

(** *** The region as a sequence of blocks *)

(** Payload size recorded in a header word. *)
Definition payload_of (w : Z) : Z :=
  if Z.land w 1 =? 1 then Z.lxor w 1 else w.

(** [tiles st i ws]: the blocks whose header words are [ws], laid out from
    offset [i], each 8 bytes of header plus its payload, end exactly at the
    end of the region. *)
Fixpoint tiles (st : state) (i : Z) (ws : list Z) : bool :=
  match ws with
  | [] => i =? heapSize st
  | w :: rest =>
    (i <? heapSize st)
    && (load (mem st) (padd (heapStart st) i) =? w)
    && (i + payload_of w + 8 <=? heapSize st)
    && tiles st (i + payload_of w + 8) rest
  end.

(** A free block that can serve the rounded request. *)
Definition fits (requested_size w : Z) : bool :=
  (Z.land w 1 =? 0) && (requested_size <=? w).

(** The header address of the first of the blocks [ws], laid out from offset
    [i] of the region at [base], that fits. *)
Fixpoint locate (requested_size base i : Z) (ws : list Z) : option Z :=
  match ws with
  | [] => None
  | w :: rest =>
    if fits requested_size w then Some (base + i)
    else locate requested_size base (i + payload_of w + 8) rest
  end.

(** Lines 96-111 of [mymalloc]: what the loop does with the block at
    [header] once it has selected it. *)
Definition place (header requested_size : Z) (st : state) : Z * state :=
  let payload := load (mem st) header in
  let used := wrap (8 + payload) in
  let '(used, st) :=
    if wrap (payload - requested_size) >=? 16
    then splitFunc used header payload requested_size st
    else (used, st) in
  let st := with_mem st (store (mem st) header (Z.lxor (load (mem st) header) 1)) in
  let st := with_sizeUsed st (wrap (sizeUsed st + used)) in
  (padd header 8, st).

(** The size a placement leaves in the header of the block it hands out. *)
Definition placed_payload (payload requested_size : Z) : Z :=
  if wrap (payload - requested_size) >=? 16 then requested_size else payload.

(** The region lies inside the address space and does not start at the null
    pointer; the statics hold 64-bit values. *)
Definition placed (st : state) : bool :=
  (0 <? heapStart st) && (heapStart st + heapSize st <? modulus)
  && (0 <=? heapSize st)
  && (0 <=? sizeUsed st) && (sizeUsed st <? modulus).

(** *** The well-formed region *)

(** Bytes, headers included, of the blocks [ws]. *)
Definition span (ws : list Z) : Z :=
  fold_right (fun w acc => payload_of w + 8 + acc) 0 ws.

(** Bytes, headers included, of the allocated blocks among [ws]. *)
Definition used_bytes (ws : list Z) : Z :=
  fold_right (fun w acc => if Z.land w 1 =? 1 then payload_of w + 8 + acc else acc) 0 ws.

(** A payload size that is a multiple of 8. *)
Definition aligned (w : Z) : bool := payload_of w mod 8 =? 0.

(** The blocks after the first block of [ws] that fits has served a rounded
    request: split in two when at least 16 bytes are left over, flagged as a
    whole otherwise. *)
Fixpoint allocate_in (requested_size : Z) (ws : list Z) : list Z :=
  match ws with
  | [] => []
  | w :: rest =>
    if fits requested_size w then
      (if w - requested_size >=? 16
       then [Z.lxor requested_size 1; w - (requested_size + 8)]
       else [Z.lxor w 1]) ++ rest
    else w :: allocate_in requested_size rest
  end.

(** [heap_ok st ws]: the region starts at a multiple of 8 inside the address
    space, the blocks [ws] tile it, every payload size is a multiple of 8,
    and [sizeUsed] is the number of bytes in allocated blocks. *)
Definition heap_ok (st : state) (ws : list Z) : bool :=
  placed st && (heapStart st mod 8 =? 0) && tiles st 0 ws
  && forallb aligned ws && (sizeUsed st =? used_bytes ws).

(** The payload address of block number [k]. *)
Definition payload_address (st : state) (ws : list Z) (k : nat) : Z :=
  heapStart st + span (take k ws) + 8.

(** Correct use: [myinit] on an aligned region of at least 8 bytes inside
    the address space; then calls of [mymalloc] that return a block; calls
    of [myrealloc] on an allocated block, for more bytes than the block
    holds and at most [SIZE_MAX - 7], that return a block; [myfree] of
    allocated blocks; and writes of the client into the payload of an
    allocated block.  Calls that return the null pointer or the old pointer
    leave the state as it is.  [ws] are the header words of the blocks, in
    address order. *)
Inductive served (MAX_REQUEST_SIZE : Z) : state -> list Z -> Prop :=
| served_init heap_start heap_size st :
    0 < heap_start -> heap_start mod 8 = 0 ->
    8 <= heap_size -> heap_size mod 8 = 0 ->
    heap_start + heap_size < modulus ->
    served MAX_REQUEST_SIZE (myinit heap_start heap_size st).2 [heap_size - 8]
| served_malloc fuel requested_size st ws ptr st' :
    served MAX_REQUEST_SIZE st ws ->
    mymalloc MAX_REQUEST_SIZE fuel requested_size st = Some (ptr, st') ->
    ptr <> NULL ->
    served MAX_REQUEST_SIZE st' (allocate_in (roundup requested_size) ws)
| served_free st ws k w :
    served MAX_REQUEST_SIZE st ws ->
    ws !! k = Some w -> Z.land w 1 = 1 ->
    served MAX_REQUEST_SIZE (myfree (payload_address st ws k) st)
           (<[k := Z.lxor w 1]> ws)
| served_realloc fuel new_size st ws k w ptr st' :
    served MAX_REQUEST_SIZE st ws ->
    ws !! k = Some w -> Z.land w 1 = 1 ->
    0 < new_size <= SIZE_MAX - 7 -> payload_of w < new_size ->
    myrealloc MAX_REQUEST_SIZE fuel (payload_address st ws k) new_size st
    = Some (ptr, st') ->
    ptr <> NULL ->
    served MAX_REQUEST_SIZE st'
           (allocate_in (roundup new_size) (<[k := Z.lxor w 1]> ws))
| served_store st ws k w j v :
    served MAX_REQUEST_SIZE st ws ->
    ws !! k = Some w -> Z.land w 1 = 1 -> 0 <= j -> 8 * j < payload_of w ->
    served MAX_REQUEST_SIZE
           (with_mem st (store (mem st) (payload_address st ws k + 8 * j) v)) ws.

End Implicit.

(** ** Concrete runs

    A 4096-byte region at address 4096, with [MAX_REQUEST_SIZE] taken as
    [1 << 30]. *)

Module Scenario.

Definition LIMIT : Z := 1073741824.

(** The state an operation leaves, [d] if it ran out of fuel. *)
Definition state_after {S : Type} (o : option (Z * S)) (d : S) : S :=
  match o with Some (_, s) => s | None => d end.

Module E.
Import Explicit.

(** Zero-initialised statics, nothing written yet. *)
Definition blank : state :=
  {| heapStart := 0; heapSize := 0; sizeUsed := 0; freeEnd := 0; freeSpace := 0;
     mem := ∅ |}.

Definition fresh : state := (myinit 4096 4096 blank).2.

(** [A = mymalloc(16)], the block at 4096, payload at 4112. *)
Definition after_A : state := state_after (mymalloc LIMIT 8 16 fresh) blank.

(** [B = mymalloc(16)], the block at 4128, payload at 4144. *)
Definition after_AB : state := state_after (mymalloc LIMIT 8 16 after_A) blank.

(** [myfree(A)] while [B] is still allocated. *)
Definition after_free_A : state := myfree 4112 after_AB.

(** [mymalloc(4000)] on the fresh region: the block at 4096, payload at 4112. *)
Definition after_big : state := state_after (mymalloc LIMIT 8 4000 fresh) blank.

(** A 48-byte region: one free block with a payload of 32 bytes. *)
Definition tiny : state := (myinit 4096 48 blank).2.

(** [myfree(B)] after [A] and [B]: [B] merges with the free block behind it. *)
Definition after_free_B : state := myfree 4144 after_AB.

(** [C = mymalloc(4016)] after [A] and [B]: the block at 4160, payload at
    4176, the rest of the region. *)
Definition after_ABC : state := state_after (mymalloc LIMIT 8 4016 after_AB) blank.

(** [myfree(B)] while [C] is allocated: 32 bytes go back to [freeSpace],
    and the free list is empty. *)
Definition crowded : state := myfree 4144 after_ABC.

(** [myrealloc(A, 100)] while [A] is the only allocated block: the new
    block is at 4128, payload at 4144. *)
Definition after_grow_A : state :=
  state_after (myrealloc LIMIT 8 4112 100 after_A) blank.

End E.

Module I.
Import Implicit.

Definition blank : state :=
  {| heapStart := 0; heapSize := 0; sizeUsed := 0; mem := ∅ |}.

Definition fresh : state := (myinit 4096 4096 blank).2.

(** [mymalloc(8)] then [myfree] of it: the first block, at 4096, is free
    with a payload of 8 bytes. *)
Definition after_small : state := state_after (mymalloc LIMIT 8 8 fresh) blank.
Definition after_small_freed : state := myfree 4104 after_small.

(** [mymalloc(16)] on the fresh region: the block at 4096, payload at 4104. *)
Definition after_16 : state := state_after (mymalloc LIMIT 8 16 fresh) blank.

(** [mymalloc(4000)] on the fresh region: the block at 4096, payload at 4104. *)
Definition after_big : state := state_after (mymalloc LIMIT 8 4000 fresh) blank.

(** A 32-byte region: one free block with a payload of 24 bytes. *)
Definition tiny : state := (myinit 4096 32 blank).2.

(** [a = mymalloc(8)] (payload at 4104), [b = mymalloc(16)] (payload at
    4120), [c = mymalloc(4048)] (payload at 4144, the rest of the region),
    then [myfree(a)]: the only free block has a payload of 8 bytes. *)
Definition after_ab : state := state_after (mymalloc LIMIT 8 16 after_small) blank.
Definition after_abc : state := state_after (mymalloc LIMIT 8 4048 after_ab) blank.
Definition fragmented : state := myfree 4104 after_abc.

(** [myrealloc(p, 100)] for the 16-byte block [p] at 4104: the new block is
    at 4120, payload at 4128. *)
Definition after_grow : state :=
  state_after (myrealloc LIMIT 8 4104 100 after_16) blank.

End I.

End Scenario.

(** * Facts *)

(** ** Words, bits and the memory *)

Module MachineFacts.

Lemma wrap_in_range z : in_range (wrap z).
Proof. unfold in_range, wrap, modulus. apply Z.mod_pos_bound. lia. Qed.

Lemma wrap_small z : in_range z -> wrap z = z.
Proof. unfold in_range, wrap, modulus. intros Hz. apply Z.mod_small. lia. Qed.

Lemma wrap_wrap z : wrap (wrap z) = wrap z.
Proof. apply wrap_small, wrap_in_range. Qed.

Lemma load_in_range m a : in_range (load m a).
Proof. apply wrap_in_range. Qed.

Lemma load_store_eq m a v : load (store m a v) a = wrap v.
Proof. unfold load, store. by rewrite lookup_insert_eq. Qed.

Lemma load_store_ne m a b v : a <> b -> load (store m a v) b = load m b.
Proof. intros Hab. unfold load, store. by rewrite lookup_insert_ne. Qed.

Lemma padd_back p k : in_range p -> padd (padd p k) (- k) = p.
Proof. intros Hp. word_lia. Qed.

Lemma padd_ne p k : 0 < k < modulus -> padd p k <> p.
Proof. intros Hk Heq. word_lia. Qed.

Lemma padd_ne2 p j k :
  0 <= j < modulus -> 0 <= k < modulus -> j <> k -> padd p j <> padd p k.
Proof. intros Hj Hk Hjk Heq. word_lia. Qed.

(** The status bit. *)

Lemma land1_mod2 z : Z.land z 1 = z mod 2.
Proof. change 1 with (Z.ones 1). rewrite Z.land_ones by lia. reflexivity. Qed.

Lemma land1_cases z : Z.land z 1 = 0 \/ Z.land z 1 = 1.
Proof. rewrite land1_mod2. word_lia. Qed.

Lemma lxor1_free z : Z.land z 1 = 0 -> Z.lxor z 1 = z + 1.
Proof. intros Hz. symmetry. apply Z.add_nocarry_lxor. exact Hz. Qed.

Lemma lxor1_twice z : Z.lxor (Z.lxor z 1) 1 = z.
Proof. rewrite Z.lxor_assoc, Z.lxor_nilpotent. apply Z.lxor_0_r. Qed.

Lemma lxor1_allocated z : Z.land z 1 = 1 -> Z.lxor z 1 = z - 1.
Proof.
  intros Hz.
  assert (Hev : Z.land (z - 1) 1 = 0) by (rewrite land1_mod2 in *; word_lia).
  apply lxor1_free in Hev. replace (z - 1 + 1) with z in Hev by lia.
  rewrite <- Hev at 1. apply lxor1_twice.
Qed.

Lemma lxor1_in_range z : in_range z -> in_range (Z.lxor z 1).
Proof.
  unfold in_range, modulus. intros Hz.
  destruct (land1_cases z) as [Hb | Hb].
  - rewrite (lxor1_free _ Hb). rewrite land1_mod2 in Hb. word_lia.
  - rewrite (lxor1_allocated _ Hb). rewrite land1_mod2 in Hb. word_lia.
Qed.

Lemma land1_lxor1 z : Z.land z 1 = 0 -> Z.land (Z.lxor z 1) 1 = 1.
Proof.
  intros Hz. rewrite (lxor1_free _ Hz). rewrite land1_mod2 in *. word_lia.
Qed.

(** The rounding expression of both [roundup] functions: masking with
    [~(8 - 1)] clears the three low bits. *)
Lemma land_mask x :
  in_range x -> Z.land x (wrap (Z.lnot (8 - 1))) = 8 * (x / 8).
Proof.
  intros Hx.
  change (wrap (Z.lnot (8 - 1))) with (Z.land (Z.lnot (Z.ones 3)) (Z.ones 64)).
  rewrite (Z.land_comm (Z.lnot _)), Z.land_assoc, Z.land_ones by lia.
  rewrite (Z.mod_small x (2 ^ 64)) by (unfold in_range, modulus in Hx; lia).
  rewrite <- Z.ldiff_land, Z.ldiff_ones_r by lia.
  rewrite Z.shiftr_div_pow2, Z.shiftl_mul_pow2 by lia.
  change (2 ^ 3) with 8. lia.
Qed.

Lemma round_expr n :
  Z.land (wrap (wrap (n + 8) - 1)) (wrap (Z.lnot (8 - 1)))
  = 8 * (wrap (wrap (n + 8) - 1) / 8).
Proof. apply land_mask, wrap_in_range. Qed.

Lemma round_expr_in_range n :
  in_range (Z.land (wrap (wrap (n + 8) - 1)) (wrap (Z.lnot (8 - 1)))).
Proof. rewrite round_expr. word_lia. Qed.

Lemma round_expr_even n :
  Z.land (Z.land (wrap (wrap (n + 8) - 1)) (wrap (Z.lnot (8 - 1)))) 1 = 0.
Proof. rewrite round_expr, land1_mod2. word_lia. Qed.

(** The top seven values of [size_t] round to 0. *)
Lemma round_expr_top n :
  SIZE_MAX - 7 < n <= SIZE_MAX ->
  Z.land (wrap (wrap (n + 8) - 1)) (wrap (Z.lnot (8 - 1))) = 0.
Proof. intros Hn. rewrite round_expr. word_lia. Qed.

(** Below them the result is the least multiple of 8 that is at least [n]. *)
Lemma round_expr_low n :
  0 <= n <= SIZE_MAX - 7 ->
  Z.land (wrap (wrap (n + 8) - 1)) (wrap (Z.lnot (8 - 1))) = 8 * ((n + 7) / 8).
Proof. intros Hn. rewrite round_expr. word_lia. Qed.

End MachineFacts.

Import MachineFacts.

(** ** explicit.c *)

Module ExplicitFacts.

Import Explicit.

Lemma splitFunc_used cur used payload rs st :
  (splitFunc cur used payload rs st).1.1 = wrap (16 + rs).
Proof. reflexivity. Qed.

Lemma splitFunc_payload cur used payload rs st :
  (splitFunc cur used payload rs st).1.2 = rs.
Proof. reflexivity. Qed.

Lemma splitFunc_frame cur used payload rs st :
  same_frame st (splitFunc cur used payload rs st).2.
Proof.
  unfold splitFunc, same_frame. simpl.
  repeat (case_match; simpl); done.
Qed.

Lemma cantSplit_used used cur payload st :
  (cantSplit used cur payload st).1 = wrap (16 + payload).
Proof. reflexivity. Qed.

Lemma cantSplit_frame used cur payload st :
  same_frame st (cantSplit used cur payload st).2.
Proof.
  unfold cantSplit, same_frame. simpl.
  repeat (case_match; simpl); done.
Qed.

(** Reading back the first word of a header that was just stored. *)
Lemma load_store_header m a s : load (store_header m a s) a = wrap (h s).
Proof.
  unfold store_header.
  rewrite load_store_ne by (apply padd_ne; unfold modulus; lia).
  rewrite load_store_ne by (apply padd_ne; unfold modulus; lia).
  apply load_store_eq.
Qed.

Lemma load_header_store_header m a s :
  load_header (store_header m a s) a
  = {| h := wrap (h s); prev := wrap (prev s); next := wrap (next s) |}.
Proof.
  unfold load_header, store_header. f_equal.
  - rewrite load_store_ne by (apply padd_ne; unfold modulus; lia).
    rewrite load_store_ne by (apply padd_ne; unfold modulus; lia).
    apply load_store_eq.
  - rewrite load_store_ne by (apply padd_ne2; unfold modulus; lia).
    apply load_store_eq.
  - apply load_store_eq.
Qed.

Lemma take_block_ptr cur ms payload rs st :
  (take_block cur ms payload rs st).1 = padd cur 16.
Proof.
  unfold take_block. destruct (wrap (payload - rs) >? 24).
  - by destruct (splitFunc _ _ _ _ _) as [[? ?] ?].
  - by destruct (cantSplit _ _ _ _) as [? ?].
Qed.

Lemma take_block_counters cur ms payload rs st :
  let st' := (take_block cur ms payload rs st).2 in
  heapStart st' = heapStart st /\ heapSize st' = heapSize st
  /\ sizeUsed st' = wrap (sizeUsed st + wrap (16 + placed_payload payload rs))
  /\ freeSpace st' = wrap (freeSpace st - wrap (16 + placed_payload payload rs)).
Proof.
  unfold take_block, placed_payload. destruct (wrap (payload - rs) >? 24).
  - pose proof (splitFunc_frame cur (wrap (16 + payload)) payload rs st) as Hf.
    pose proof (splitFunc_used cur (wrap (16 + payload)) payload rs st) as Hu.
    pose proof (splitFunc_payload cur (wrap (16 + payload)) payload rs st) as Hp.
    destruct (splitFunc _ _ _ _ _) as [[u p] st1]. simpl in *.
    destruct Hf as (-> & -> & -> & ->). by subst.
  - pose proof (cantSplit_frame (wrap (16 + payload)) cur payload st) as Hf.
    pose proof (cantSplit_used (wrap (16 + payload)) cur payload st) as Hu.
    destruct (cantSplit _ _ _ _) as [u st1]. simpl in *.
    destruct Hf as (-> & -> & -> & ->). by subst.
Qed.

Lemma take_block_header cur ms payload rs st :
  Z.land (placed_payload payload rs) 1 = 0 ->
  load (mem (take_block cur ms payload rs st).2) cur
  = wrap (Z.lxor (placed_payload payload rs) 1).
Proof.
  unfold take_block, placed_payload. destruct (wrap (payload - rs) >? 24).
  - destruct (splitFunc _ _ _ _ _) as [[u p] st1] eqn:Hs.
    assert (p = rs) as -> by (by rewrite <- (splitFunc_payload cur (wrap (16 + payload)) payload rs st), Hs).
    intros ->. simpl. apply load_store_header.
  - destruct (cantSplit _ _ _ _) as [u st1].
    intros ->. simpl. apply load_store_header.
Qed.

Section WithLimit.

Variable MAX_REQUEST_SIZE : Z.

(** The loops are the search followed by the placement. *)
Lemma malloc_loop_first_fit_explicit fuel rs space cur st :
  malloc_loop MAX_REQUEST_SIZE fuel rs space cur st
  = match first_fit MAX_REQUEST_SIZE fuel rs space cur (mem st) with
    | None => None
    | Some None => Some (NULL, st)
    | Some (Some c) =>
      Some (take_block c (load_header (mem st) c) (h (load_header (mem st) c)) rs st)
    end.
Proof.
  revert space cur. induction fuel as [| fuel IH]; intros space cur; [done |].
  simpl. destruct (space >? 0); [| done].
  destruct (cur =? NULL); [done |].
  destruct (_ && _); [done | apply IH].
Qed.

Lemma realloc_loop_first_fit fuel old_ptr old_payload rs space cur st :
  realloc_loop MAX_REQUEST_SIZE fuel old_ptr old_payload rs space cur st
  = match first_fit MAX_REQUEST_SIZE fuel rs space cur (mem st) with
    | None => None
    | Some None => Some (NULL, st)
    | Some (Some c) =>
      let '(ptr, st1) :=
        take_block c (load_header (mem st) c) (h (load_header (mem st) c)) rs st in
      Some (ptr, myfree old_ptr (with_mem st1 (memmove (mem st1) ptr old_ptr old_payload)))
    end.
Proof.
  revert space cur. induction fuel as [| fuel IH]; intros space cur; [done |].
  simpl. destruct (space >? 0); [| done].
  destruct (cur =? NULL); [done |].
  destruct (_ && _); [| apply IH].
  by destruct (take_block _ _ _ _ _).
Qed.

(** What the search guarantees about the block it selects. *)
Lemma first_fit_selected_explicit fuel rs space cur m c :
  first_fit MAX_REQUEST_SIZE fuel rs space cur m = Some (Some c) ->
  Z.land (h (load_header m c)) 1 = 0 /\ rs <= h (load_header m c)
  /\ c <> NULL /\ (c = cur \/ in_range c).
Proof.
  revert space cur. induction fuel as [| fuel IH]; intros space cur; [done |].
  simpl. destruct (space >? 0); [| done].
  destruct (cur =? NULL) eqn:Hnull; [done |].
  destruct (_ && _) eqn:Hfit.
  - intros [= <-]. apply andb_prop in Hfit as [Hflag Hsz].
    apply andb_prop in Hsz as [_ Hsz].
    apply Z.eqb_eq in Hflag. apply Z.leb_le in Hsz. apply Z.eqb_neq in Hnull.
    repeat split; [done | done | done | by left].
  - intros Hrec. apply IH in Hrec as (? & ? & ? & [-> | ?]); repeat split; try done.
    + right. apply load_in_range.
    + by right.
Qed.

End WithLimit.

Lemma roundup_in_range_explicit r : in_range (roundup r).
Proof. apply round_expr_in_range. Qed.

Lemma roundup_even r : Z.land (roundup r) 1 = 0.
Proof. apply round_expr_even. Qed.

Lemma roundup_top_explicit r : SIZE_MAX - 7 < r <= SIZE_MAX -> roundup r = 0.
Proof. apply round_expr_top. Qed.

(** *** [myinit] *)

Lemma myinit_first_block heap_start heap_size st :
  heap_start <> NULL ->
  exists st',
    myinit heap_start heap_size st = (true, st')
    /\ heapStart st' = heap_start /\ heapSize st' = heap_size
    /\ sizeUsed st' = 0 /\ freeSpace st' = heap_size /\ freeEnd st' = heap_start
    /\ load_header (mem st') heap_start
       = {| h := wrap (heap_size - 16); prev := NULL; next := NULL |}.
Proof.
  intros Hnull. unfold myinit.
  apply Z.eqb_neq in Hnull. rewrite Hnull.
  eexists. split; [reflexivity |]. simpl.
  repeat split. rewrite load_header_store_header. simpl.
  by rewrite wrap_wrap.
Qed.

(** *** [mymalloc] *)

(** A call either returns the null pointer and leaves the state alone, or
    places the request in the block the search selects. *)
Lemma mymalloc_cases_explicit MAX fuel r st ptr st' :
  mymalloc MAX fuel r st = Some (ptr, st') ->
  (ptr = NULL /\ st' = st)
  \/ exists c,
       first_fit MAX fuel (roundup r) (freeSpace st) (freeEnd st) (mem st)
       = Some (Some c)
       /\ take_block c (load_header (mem st) c) (h (load_header (mem st) c))
                     (roundup r) st = (ptr, st').
Proof.
  unfold mymalloc. destruct (r =? 0); [intros [= <- <-]; by left |].
  destruct (_ || _); [intros [= <- <-]; by left |].
  rewrite malloc_loop_first_fit_explicit.
  destruct (first_fit _ _ _ _ _ _) as [[c |] |]; [| intros [= <- <-]; by left | done].
  intros [= Htake]. right. by exists c.
Qed.

Lemma mymalloc_pointer MAX fuel r st ptr st' :
  mymalloc MAX fuel r st = Some (ptr, st') -> ptr <> NULL ->
  exists c,
    first_fit MAX fuel (roundup r) (freeSpace st) (freeEnd st) (mem st)
    = Some (Some c)
    /\ ptr = padd c 16.
Proof.
  intros Hm Hptr. apply mymalloc_cases_explicit in Hm as [[-> _] | (c & Hfit & Htake)]; [done |].
  exists c. split; [done |].
  by rewrite <- (take_block_ptr c (load_header (mem st) c)
                   (h (load_header (mem st) c)) (roundup r) st), Htake.
Qed.

(** *** [myfree] *)

Lemma myfree_null st : myfree NULL st = st.
Proof. reflexivity. Qed.

(** What [myfree] does to the counters, whichever branch it then takes. *)
Lemma myfree_counters ptr st :
  ptr <> NULL ->
  let d := wrap (Z.lxor (h (load_header (mem st) (padd ptr (-16)))) 1 + 16) in
  heapStart (myfree ptr st) = heapStart st
  /\ heapSize (myfree ptr st) = heapSize st
  /\ sizeUsed (myfree ptr st) = wrap (sizeUsed st - d)
  /\ freeSpace (myfree ptr st) = wrap (freeSpace st + d).
Proof.
  intros Hptr. unfold myfree. apply Z.eqb_neq in Hptr. rewrite Hptr. simpl.
  repeat (case_match; simpl); done.
Qed.

(** The branch the LIFO insertion is missing from: the right neighbour lies
    inside the region and is allocated.  Only the counters change. *)
Lemma myfree_right_neighbour_allocated ptr st :
  ptr <> NULL ->
  let payload := Z.lxor (h (load_header (mem st) (padd ptr (-16)))) 1 in
  padd ptr payload < padd (heapStart st) (heapSize st) ->
  Z.land (h (load_header (mem st) (padd ptr payload))) 1 = 1 ->
  myfree ptr st
  = with_counters st (wrap (sizeUsed st - wrap (payload + 16)))
                     (wrap (freeSpace st + wrap (payload + 16))).
Proof.
  intros Hptr payload Hin Hflag. unfold myfree.
  apply Z.eqb_neq in Hptr. rewrite Hptr.
  apply Z.ltb_lt in Hin. subst payload.
  cbn [negb heapStart heapSize mem with_counters].
  rewrite Hin, Hflag. reflexivity.
Qed.

(** *** The counters *)

Lemma budget_shift st st' d :
  budget st ->
  heapSize st' = heapSize st ->
  sizeUsed st' = wrap (sizeUsed st + d) ->
  freeSpace st' = wrap (freeSpace st - d) ->
  budget st'.
Proof.
  unfold budget. intros (Hh & Hu & Hf & Hsum) -> -> ->.
  repeat split; try apply wrap_in_range; try apply Hh.
  word_lia.
Qed.

Lemma budget_with_mem st m : budget st -> budget (with_mem st m).
Proof. done. Qed.

Lemma budget_myinit heap_start heap_size st st' :
  in_range heap_size ->
  myinit heap_start heap_size st = (true, st') ->
  budget st'.
Proof.
  intros Hsz. unfold myinit. destruct (heap_start =? NULL); [done |].
  intros [= <-]. unfold budget. simpl. repeat split; try apply Hsz; try done.
  by apply wrap_small.
Qed.

Lemma budget_take_block c ms payload rs st :
  budget st -> budget (take_block c ms payload rs st).2.
Proof.
  intros Hb.
  destruct (take_block_counters c ms payload rs st) as (_ & Hh & Hu & Hf).
  by eapply budget_shift.
Qed.

Lemma budget_myfree ptr st : budget st -> budget (myfree ptr st).
Proof.
  intros Hb. destruct (Z.eq_dec ptr NULL) as [-> | Hptr]; [done |].
  destruct (myfree_counters ptr st Hptr) as (_ & Hh & Hu & Hf).
  apply (budget_shift st _
           (- wrap (Z.lxor (h (load_header (mem st) (padd ptr (-16)))) 1 + 16)));
    [done | done | rewrite Hu; f_equal; lia | rewrite Hf; f_equal; lia].
Qed.

Lemma budget_mymalloc MAX fuel r st ptr st' :
  budget st -> mymalloc MAX fuel r st = Some (ptr, st') -> budget st'.
Proof.
  intros Hb Hm. apply mymalloc_cases_explicit in Hm as [[_ ->] | (c & _ & Htake)]; [done |].
  replace st' with (take_block c (load_header (mem st) c)
                      (h (load_header (mem st) c)) (roundup r) st).2
    by (by rewrite Htake).
  by apply budget_take_block.
Qed.

Lemma budget_myrealloc MAX fuel old_ptr new_size st ptr st' :
  budget st -> myrealloc MAX fuel old_ptr new_size st = Some (ptr, st') -> budget st'.
Proof.
  intros Hb. unfold myrealloc.
  destruct (_ && _); [intros [= <- <-]; by apply budget_myfree |].
  destruct (_ || _); [by intros [= <- <-] |].
  destruct (old_ptr =? NULL); [by apply budget_mymalloc |].
  destruct (_ <=? _); [by intros [= <- <-] |].
  rewrite realloc_loop_first_fit.
  destruct (first_fit _ _ _ _ _ _) as [[c |] |]; [| by intros [= <- <-] | done].
  pose proof (budget_take_block c (load_header (mem st) c)
                (h (load_header (mem st) c)) (roundup new_size) st Hb) as Hb1.
  destruct (take_block _ _ _ _ _) as [p st1]. simpl in Hb1.
  intros [= <- <-]. by apply budget_myfree, budget_with_mem.
Qed.

Lemma reachable_budget MAX st : reachable MAX st -> budget st.
Proof.
  induction 1 as [hs sz st st' Hsz Hinit
                 | fuel r st ptr st' _ IH Hm
                 | ptr st _ IH
                 | fuel old_ptr new_size st ptr st' _ IH Hr
                 | a v st _ IH].
  - by eapply budget_myinit.
  - by eapply budget_mymalloc.
  - by apply budget_myfree.
  - by eapply budget_myrealloc.
  - by apply budget_with_mem.
Qed.

(** *** Allocate, then free *)

Lemma placed_payload_even payload rs :
  Z.land payload 1 = 0 -> Z.land rs 1 = 0 -> Z.land (placed_payload payload rs) 1 = 0.
Proof. unfold placed_payload. by case_match. Qed.

Lemma placed_payload_in_range_explicit payload rs :
  in_range payload -> in_range rs -> in_range (placed_payload payload rs).
Proof. unfold placed_payload. by case_match. Qed.

Lemma mymalloc_myfree_used_explicit MAX fuel r st ptr st' :
  in_range (sizeUsed st) -> in_range (freeEnd st) ->
  mymalloc MAX fuel r st = Some (ptr, st') -> ptr <> NULL ->
  sizeUsed (myfree ptr st') = sizeUsed st.
Proof.
  intros Hu Hfe Hm Hptr.
  apply mymalloc_cases_explicit in Hm as [[-> _] | (c & Hfit & Htake)]; [done |].
  apply first_fit_selected_explicit in Hfit as (Hflag & _ & _ & Hc).
  assert (in_range c) as Hcr by (by destruct Hc as [-> | ?]).
  set (payload := h (load_header (mem st) c)) in *.
  pose proof (take_block_ptr c (load_header (mem st) c) payload (roundup r) st) as Hp.
  pose proof (take_block_counters c (load_header (mem st) c) payload (roundup r) st)
    as (_ & _ & Hused & _).
  pose proof (take_block_header c (load_header (mem st) c) payload (roundup r) st
                (placed_payload_even _ _ Hflag (roundup_even r))) as Hhdr.
  rewrite Htake in Hp, Hused, Hhdr. simpl in Hp, Hused, Hhdr. subst ptr.
  destruct (myfree_counters (padd c 16) st' Hptr) as (_ & _ & -> & _).
  rewrite padd_back by done. simpl. rewrite Hhdr, Hused.
  assert (in_range (placed_payload payload (roundup r))) as Hpr
    by (apply placed_payload_in_range_explicit; [apply load_in_range | apply roundup_in_range_explicit]).
  rewrite (wrap_small (Z.lxor _ 1)) by (by apply lxor1_in_range).
  rewrite lxor1_twice. word_lia.
Qed.

(** *** The search along a well-formed free list *)

Lemma list_bytes_nonneg m nodes : 0 <= list_bytes m nodes.
Proof.
  induction nodes as [| n rest IH]; simpl; [lia |].
  pose proof (load_in_range m n). unfold load_header; simpl. word_lia.
Qed.

Lemma find_none_forallb {A : Type} (f : A -> bool) (l : list A) :
  List.find f l = None <-> forallb (fun x => negb (f x)) l = true.
Proof.
  induction l as [| x l IH]; simpl; [done |].
  destruct (f x); simpl; [split; done | exact IH].
Qed.

(** With the whole list paid for by [space], the search returns the first
    node of the list that fits. *)
Lemma first_fit_chain MAX rs m nodes :
  rs <= MAX ->
  forall fuel space cur,
    chain m cur nodes = true ->
    list_bytes m nodes <= space -> in_range space ->
    (length nodes < fuel)%nat ->
    first_fit MAX fuel rs space cur m = Some (List.find (fits m rs) nodes).
Proof.
  intros Hmax. apply Z.leb_le in Hmax.
  induction nodes as [| n rest IH]; intros fuel space cur Hchain Hbytes Hsp Hfuel;
    (destruct fuel as [| fuel]; [simpl in Hfuel; lia |]); simpl in *.
  - rewrite Hchain. by destruct (space >? 0).
  - apply andb_prop in Hchain as [Hchain Hrest].
    apply andb_prop in Hchain as [Hcur Hnn].
    apply Z.eqb_eq in Hcur as ->.
    apply negb_true_iff in Hnn.
    pose proof (list_bytes_nonneg m rest) as Hnonneg.
    pose proof (load_in_range m n) as Hh.
    assert ((space >? 0) = true) as -> by (apply Z.gtb_lt; word_lia).
    rewrite Hnn, Hmax. unfold fits at 1. simpl.
    destruct (_ && _); [done |].
    apply IH; [done | word_lia | word_lia | lia].
Qed.

Lemma addressable_pointer n : addressable n = true -> padd n 16 <> NULL.
Proof.
  unfold addressable. intros Ha. apply andb_prop in Ha as [H0 H1].
  apply Z.ltb_lt in H0, H1. word_lia.
Qed.

(** [mymalloc] on a well-formed free list: it returns, and the null pointer
    is returned exactly in the four cases. *)
Lemma mymalloc_null_iff_explicit MAX fuel r st nodes :
  chain (mem st) (freeEnd st) nodes = true ->
  list_bytes (mem st) nodes <= freeSpace st -> in_range (freeSpace st) ->
  forallb addressable nodes = true ->
  (length nodes < fuel)%nat ->
  exists ptr st',
    mymalloc MAX fuel r st = Some (ptr, st')
    /\ (ptr = NULL <->
        r = 0 \/ roundup r > MAX \/ wrap (roundup r + sizeUsed st) > heapSize st
        \/ forallb (fun n => negb (fits (mem st) (roundup r) n)) nodes = true)
    /\ (ptr = NULL -> st' = st).
Proof.
  intros Hchain Hbytes Hsp Haddr Hfuel. unfold mymalloc.
  destruct (r =? 0) eqn:Hr0.
  { apply Z.eqb_eq in Hr0. exists NULL, st. repeat split; auto. }
  apply Z.eqb_neq in Hr0.
  destruct (roundup r >? MAX) eqn:Hmax; simpl.
  { apply Z.gtb_lt in Hmax. exists NULL, st. repeat split; auto. intros _. right. left. lia. }
  destruct (wrap (roundup r + sizeUsed st) >? heapSize st) eqn:Hroom.
  { apply Z.gtb_lt in Hroom. exists NULL, st. repeat split; auto.
    intros _. right. right. left. lia. }
  assert (roundup r <= MAX) as Hle by (destruct (Z.gtb_spec (roundup r) MAX); [done | lia]).
  assert (~ wrap (roundup r + sizeUsed st) > heapSize st) as Hroom'
    by (destruct (Z.gtb_spec (wrap (roundup r + sizeUsed st)) (heapSize st)); [done | lia]).
  rewrite malloc_loop_first_fit_explicit, (first_fit_chain MAX _ _ nodes) by done.
  destruct (List.find _ nodes) as [c |] eqn:Hfind.
  - destruct (take_block _ _ _ _ _) as [ptr st'] eqn:Htake.
    exists ptr, st'. split; [done |].
    assert (ptr <> NULL) as Hptr.
    { replace ptr with (take_block c (load_header (mem st) c)
                          (h (load_header (mem st) c)) (roundup r) st).1
        by (by rewrite Htake).
      rewrite take_block_ptr. apply addressable_pointer.
      apply List.find_some in Hfind as [Hin _].
      by apply (proj1 (forallb_forall _ _) Haddr). }
    split; [| done]. split; [done |].
    intros [? | [? | [? | Hnone]]]; [lia | lia | lia |].
    apply find_none_forallb in Hnone. congruence.
  - exists NULL, st. repeat split; auto.
    intros _. right. right. right. by apply find_none_forallb.
Qed.

(** *** [myrealloc] *)

Lemma myrealloc_zero_explicit MAX fuel old_ptr st :
  old_ptr <> NULL ->
  myrealloc MAX fuel old_ptr 0 st = Some (old_ptr, myfree old_ptr st).
Proof.
  intros Hptr. unfold myrealloc. apply Z.eqb_neq in Hptr. by rewrite Hptr.
Qed.

Lemma myrealloc_null_zero_explicit MAX fuel st :
  myrealloc MAX fuel NULL 0 st = Some (NULL, st).
Proof.
  unfold myrealloc. simpl. by destruct (_ || _).
Qed.

Lemma myrealloc_in_place_explicit MAX fuel old_ptr new_size st :
  old_ptr <> NULL -> new_size <> 0 ->
  roundup new_size <= MAX ->
  wrap (roundup new_size + sizeUsed st) <= heapSize st ->
  roundup new_size <= Z.lxor (h (load_header (mem st) (padd old_ptr (-16)))) 1 ->
  myrealloc MAX fuel old_ptr new_size st = Some (old_ptr, st).
Proof.
  intros Hptr Hsz Hmax Hroom Hfit. unfold myrealloc.
  apply Z.eqb_neq in Hptr, Hsz. rewrite Hptr, Hsz. cbn [andb negb].
  assert ((roundup new_size >? MAX) = false) as ->
    by (destruct (Z.gtb_spec (roundup new_size) MAX); [lia | done]).
  assert ((wrap (roundup new_size + sizeUsed st) >? heapSize st) = false) as ->
    by (destruct (Z.gtb_spec (wrap (roundup new_size + sizeUsed st)) (heapSize st));
        [lia | done]).
  cbn [orb]. apply Z.leb_le in Hfit. by rewrite Hfit.
Qed.

(** *** Requests in the top seven values of [size_t] *)

Lemma existsb_forallb_negb {A : Type} (f g : A -> bool) (l : list A) :
  (forall x, f x = true -> g x = true) ->
  existsb f l = true -> forallb (fun x => negb (g x)) l = true -> False.
Proof.
  intros Hfg. induction l as [| x l IH]; simpl; [done |].
  intros Hex Hall. apply andb_prop in Hall as [Hx Hall].
  apply orb_prop in Hex as [Hex | Hex]; [| by apply IH].
  apply Hfg in Hex. by rewrite Hex in Hx.
Qed.

Lemma mymalloc_top_request_explicit MAX fuel r st nodes :
  SIZE_MAX - 7 < r <= SIZE_MAX -> 0 <= MAX ->
  in_range (sizeUsed st) -> sizeUsed st <= heapSize st ->
  chain (mem st) (freeEnd st) nodes = true ->
  list_bytes (mem st) nodes <= freeSpace st -> in_range (freeSpace st) ->
  forallb addressable nodes = true ->
  existsb (fun n => Z.land (h (load_header (mem st) n)) 1 =? 0) nodes = true ->
  (length nodes < fuel)%nat ->
  exists ptr st',
    mymalloc MAX fuel r st = Some (ptr, st') /\ ptr <> NULL
    /\ let c := padd ptr (-16) in
       let w := h (load_header (mem st) c) in
       Z.land w 1 = 0
       /\ h (load_header (mem st') c) = Z.lxor (if w >? 24 then 0 else w) 1.
Proof.
  intros Hr Hmax Hu Hroom Hchain Hbytes Hsp Haddr Hfree Hfuel.
  pose proof (roundup_top_explicit r Hr) as Hround.
  destruct (mymalloc_null_iff_explicit MAX fuel r st nodes Hchain Hbytes Hsp Haddr Hfuel)
    as (ptr & st' & Hm & Hiff & _).
  exists ptr, st'. split; [done |].
  assert (ptr <> NULL) as Hptr.
  { intros Heq. apply Hiff in Heq. rewrite Hround in Heq.
    destruct Heq as [? | [? | [Hover | Hnone]]].
    - unfold SIZE_MAX, modulus in Hr. lia.
    - lia.
    - rewrite (wrap_small (0 + sizeUsed st)) in Hover by done. lia.
    - eapply existsb_forallb_negb; [| exact Hfree | exact Hnone].
      intros n Hn. unfold fits. rewrite Hn. simpl.
      pose proof (load_in_range (mem st) n). apply Z.leb_le. word_lia. }
  split; [done |].
  apply mymalloc_cases_explicit in Hm as [[-> _] | (c & Hfit & Htake)]; [done |].
  rewrite Hround in Hfit, Htake.
  pose proof Hfit as Hsel. apply first_fit_selected_explicit in Hsel as (Hflag & _ & _ & _).
  rewrite (first_fit_chain MAX 0 (mem st) nodes) in Hfit by done.
  injection Hfit as Hfind. apply List.find_some in Hfind as [Hin _].
  assert (addressable c = true) as Hc by (by apply (proj1 (forallb_forall _ _) Haddr)).
  assert (in_range c) as Hcr.
  { unfold addressable in Hc. apply andb_prop in Hc as [H0 H1].
    apply Z.ltb_lt in H0, H1. word_lia. }
  set (w := h (load_header (mem st) c)) in *.
  pose proof (take_block_ptr c (load_header (mem st) c) w 0 st) as Hp.
  assert (in_range w) as Hw by apply load_in_range.
  assert (placed_payload w 0 = if w >? 24 then 0 else w) as Hpp
    by (unfold placed_payload; by rewrite Z.sub_0_r, wrap_small).
  assert (Z.land (placed_payload w 0) 1 = 0) as Heven
    by (by apply placed_payload_even).
  pose proof (take_block_header c (load_header (mem st) c) w 0 st Heven) as Hhdr.
  rewrite Htake in Hp, Hhdr. simpl in Hp, Hhdr. subst ptr.
  rewrite padd_back by done. cbn zeta. fold w. split; [done |].
  change (h (load_header (mem st') c)) with (load (mem st') c).
  rewrite Hhdr, <- Hpp. apply wrap_small, lxor1_in_range.
  by apply placed_payload_in_range_explicit.
Qed.

(** *** Fuel

    A result obtained with some fuel is the result with any larger fuel:
    [Some] answers are answers of the C function, and [None] only ever means
    that the fuel was too small. *)

Lemma first_fit_more_fuel_explicit MAX k rs m res :
  forall fuel space cur,
    first_fit MAX fuel rs space cur m = Some res ->
    first_fit MAX (fuel + k) rs space cur m = Some res.
Proof.
  induction fuel as [| fuel IH]; intros space cur; [done |].
  simpl. destruct (space >? 0); [| done].
  destruct (cur =? NULL); [done |].
  destruct (_ && _); [done | apply IH].
Qed.

Lemma mymalloc_more_fuel_explicit MAX k fuel r st res :
  mymalloc MAX fuel r st = Some res -> mymalloc MAX (fuel + k) r st = Some res.
Proof.
  unfold mymalloc. destruct (r =? 0); [done |]. destruct (_ || _); [done |].
  rewrite !malloc_loop_first_fit_explicit.
  destruct (first_fit MAX fuel _ _ _ _) as [res' |] eqn:Hfit; [| done].
  by rewrite (first_fit_more_fuel_explicit _ k _ _ _ _ _ _ Hfit).
Qed.

Lemma myrealloc_more_fuel_explicit MAX k fuel old_ptr new_size st res :
  myrealloc MAX fuel old_ptr new_size st = Some res ->
  myrealloc MAX (fuel + k) old_ptr new_size st = Some res.
Proof.
  unfold myrealloc. destruct (_ && _); [done |]. destruct (_ || _); [done |].
  destruct (old_ptr =? NULL); [apply mymalloc_more_fuel_explicit |].
  destruct (_ <=? _); [done |].
  rewrite !realloc_loop_first_fit.
  destruct (first_fit MAX fuel _ _ _ _) as [res' |] eqn:Hfit; [| done].
  by rewrite (first_fit_more_fuel_explicit _ k _ _ _ _ _ _ Hfit).
Qed.

(** *** The free-list walk of the validator *)

(** A node with the allocated flag on the walk makes [validate_heap] return
    false, whatever the other checks would say. *)
Lemma validate_heap_allocated_node fuel st :
  validate_walk fuel (freeEnd st) 0 st = Some None ->
  validate_heap fuel st = Some false \/ validate_heap fuel st = None.
Proof.
  intros Hwalk. unfold validate_heap. rewrite Hwalk.
  destruct (_ >? _); [by left |].
  destruct (validate_sweep _ _ _ _ _) as [[used frees] |]; [by left | by right].
Qed.

(** The verdict does not depend on the sum the walk accumulates. *)
Lemma validate_heap_ignores_freed fuel st used frees freed :
  validate_sweep fuel 0 0 0 st = Some (used, frees) ->
  validate_walk fuel (freeEnd st) 0 st = Some (Some freed) ->
  validate_heap fuel st
  = Some (negb (sizeUsed st >? heapSize st)
          && (wrap (frees + used) =? heapSize st)
          && (wrap (freeSpace st + sizeUsed st) =? heapSize st)).
Proof.
  intros Hsweep Hwalk. unfold validate_heap. rewrite Hsweep, Hwalk.
  destruct (_ >? _); [done |]. simpl.
  destruct (_ =? _); [| done]. simpl. by destruct (_ =? _).
Qed.

End ExplicitFacts.

(** ** implicit.c *)

Module ImplicitFacts.

Import Implicit.

Lemma roundup_in_range_implicit r : in_range (roundup r).
Proof. apply round_expr_in_range. Qed.

Lemma roundup_top_implicit r : SIZE_MAX - 7 < r <= SIZE_MAX -> roundup r = 0.
Proof. apply round_expr_top. Qed.

(** *** The placement *)

Lemma place_ptr header rs st : (place header rs st).1 = padd header 8.
Proof.
  unfold place. destruct (_ >=? _); [| done].
  by destruct (splitFunc _ _ _ _ _).
Qed.

Lemma place_frame header rs st :
  heapStart (place header rs st).2 = heapStart st
  /\ heapSize (place header rs st).2 = heapSize st.
Proof.
  unfold place, splitFunc. destruct (_ >=? _); done.
Qed.

Lemma place_used header rs st :
  sizeUsed (place header rs st).2
  = wrap (sizeUsed st + wrap (8 + placed_payload (load (mem st) header) rs)).
Proof.
  unfold place, placed_payload, splitFunc. destruct (_ >=? _); done.
Qed.

Lemma place_header header rs st :
  in_range rs ->
  load (mem (place header rs st).2) header
  = Z.lxor (placed_payload (load (mem st) header) rs) 1.
Proof.
  intros Hrs. unfold place, placed_payload, splitFunc.
  destruct (_ >=? _); simpl; rewrite load_store_eq.
  - rewrite load_store_eq, (wrap_small rs) by done.
    by apply wrap_small, lxor1_in_range.
  - apply wrap_small, lxor1_in_range, load_in_range.
Qed.

Lemma placed_payload_in_range_implicit payload rs :
  in_range payload -> in_range rs -> in_range (placed_payload payload rs).
Proof. unfold placed_payload. by case_match. Qed.

(** *** [myfree] *)

Lemma myfree_used ptr st :
  ptr <> NULL ->
  sizeUsed (myfree ptr st)
  = wrap (sizeUsed st - wrap (wrap (Z.lxor (load (mem st) (padd ptr (-8))) 1) + 8)).
Proof.
  intros Hptr. unfold myfree. apply Z.eqb_neq in Hptr. rewrite Hptr. simpl.
  by rewrite load_store_eq.
Qed.

Section WithLimit.

Variable MAX_REQUEST_SIZE : Z.

(** *** The loops are the search followed by the placement *)

Lemma malloc_loop_first_fit_implicit fuel rs i st :
  malloc_loop MAX_REQUEST_SIZE fuel rs i st
  = match first_fit MAX_REQUEST_SIZE fuel rs i st with
    | None => None
    | Some None => Some (NULL, st)
    | Some (Some header) => Some (place header rs st)
    end.
Proof.
  revert i. induction fuel as [| fuel IH]; intros i; [done |].
  cbn [malloc_loop first_fit]. destruct (i <? heapSize st); [| done].
  destruct (_ && _); [| apply IH].
  unfold place. destruct (_ >=? _); [| done].
  by destruct (splitFunc _ _ _ _ _).
Qed.

Lemma first_fit_selected_implicit fuel rs i st header :
  first_fit MAX_REQUEST_SIZE fuel rs i st = Some (Some header) ->
  in_range header /\ Z.land (load (mem st) header) 1 = 0
  /\ rs <= load (mem st) header.
Proof.
  revert i. induction fuel as [| fuel IH]; intros i; [done |].
  simpl. destruct (i <? heapSize st); [| done].
  destruct (_ && _) eqn:Hfit; [| apply IH].
  intros [= <-]. apply andb_prop in Hfit as [Hflag Hsz].
  apply andb_prop in Hsz as [_ Hsz].
  apply Z.eqb_eq in Hflag. apply Z.leb_le in Hsz.
  split; [apply wrap_in_range | done].
Qed.

(** The in-place return of [myrealloc] sits inside the loop: it is reached
    once the scan has selected a block. *)
Lemma realloc_loop_in_place fuel old_ptr new_size rs i st header :
  first_fit MAX_REQUEST_SIZE fuel rs i st = Some (Some header) ->
  Z.lxor (load (mem st) (padd old_ptr (-8))) 1 > new_size ->
  realloc_loop MAX_REQUEST_SIZE fuel old_ptr new_size rs i st = Some (old_ptr, st).
Proof.
  intros Hfit Hold. apply Z.gtb_gt in Hold.
  revert i Hfit. induction fuel as [| fuel IH]; intros i; [done |].
  simpl. destruct (i <? heapSize st); [| done].
  destruct (_ && _); [| apply IH].
  intros _. by rewrite Hold.
Qed.

(** Without a block to move to, [myrealloc] gives up before it looks at the
    old block. *)
Lemma realloc_loop_no_fit fuel old_ptr new_size rs i st :
  first_fit MAX_REQUEST_SIZE fuel rs i st = Some None ->
  realloc_loop MAX_REQUEST_SIZE fuel old_ptr new_size rs i st = Some (NULL, st).
Proof.
  revert i. induction fuel as [| fuel IH]; intros i; [done |].
  simpl. destruct (i <? heapSize st); [| done].
  destruct (_ && _); [done | apply IH].
Qed.

Lemma mymalloc_cases_implicit fuel r st ptr st' :
  mymalloc MAX_REQUEST_SIZE fuel r st = Some (ptr, st') ->
  (ptr = NULL /\ st' = st)
  \/ exists header,
       first_fit MAX_REQUEST_SIZE fuel (roundup r) 0 st = Some (Some header)
       /\ place header (roundup r) st = (ptr, st').
Proof.
  unfold mymalloc. destruct (r =? 0); [intros [= <- <-]; by left |].
  destruct (_ || _); [intros [= <- <-]; by left |].
  rewrite malloc_loop_first_fit_implicit.
  destruct (first_fit _ _ _ _ _) as [[c |] |]; [| intros [= <- <-]; by left | done].
  intros [= Hplace]. right. by exists c.
Qed.

(** *** Allocate, then free *)

Lemma mymalloc_myfree_used_implicit fuel r st ptr st' :
  in_range (sizeUsed st) ->
  mymalloc MAX_REQUEST_SIZE fuel r st = Some (ptr, st') -> ptr <> NULL ->
  sizeUsed (myfree ptr st') = sizeUsed st.
Proof.
  intros Hu Hm Hptr.
  apply mymalloc_cases_implicit in Hm as [[-> _] | (header & Hfit & Hplace)]; [done |].
  apply first_fit_selected_implicit in Hfit as (Hhr & _ & _).
  pose proof (place_ptr header (roundup r) st) as Hp.
  pose proof (place_used header (roundup r) st) as Hused.
  pose proof (place_header header (roundup r) st (roundup_in_range_implicit r)) as Hhdr.
  rewrite Hplace in Hp, Hused, Hhdr. simpl in Hp, Hused, Hhdr. subst ptr.
  rewrite (myfree_used _ _ Hptr), padd_back, Hhdr, Hused, lxor1_twice by done.
  assert (in_range (placed_payload (load (mem st) header) (roundup r))) as Hpr
    by (apply placed_payload_in_range_implicit; [apply load_in_range | apply roundup_in_range_implicit]).
  word_lia.
Qed.

End WithLimit.

(** *** The scan over a region tiled by blocks *)

Lemma placed_spec st :
  placed st = true ->
  0 < heapStart st /\ heapStart st + heapSize st < modulus
  /\ 0 <= heapSize st /\ in_range (sizeUsed st).
Proof.
  unfold placed, in_range. intros Hp.
  repeat (apply andb_prop in Hp as [Hp ?]). lia.
Qed.

Lemma payload_of_nonneg w : in_range w -> 0 <= payload_of w.
Proof.
  intros Hw. unfold payload_of. destruct (Z.land w 1 =? 1) eqn:Hflag; [| word_lia].
  apply Z.eqb_eq in Hflag. rewrite (lxor1_allocated _ Hflag).
  rewrite land1_mod2 in Hflag. word_lia.
Qed.

Lemma locate_none rs base ws :
  forall i, locate rs base i ws = None
            <-> forallb (fun w => negb (fits rs w)) ws = true.
Proof.
  induction ws as [| w rest IH]; intros i; simpl; [done |].
  destruct (fits rs w); simpl; [split; done | apply IH].
Qed.

(** A located header lies inside the region, with room for its 8 bytes. *)
Lemma locate_some st rs ws :
  forall i header,
    0 <= i -> tiles st i ws = true ->
    locate rs (heapStart st) i ws = Some header ->
    exists j, header = heapStart st + j /\ 0 <= j /\ j + 8 <= heapSize st.
Proof.
  induction ws as [| w rest IH]; intros i header Hi Htiles; simpl in *; [done |].
  repeat (apply andb_prop in Htiles as [Htiles ?]).
  apply Z.ltb_lt in Htiles.
  assert (0 <= payload_of w) as Hpw.
  { apply payload_of_nonneg. replace w with (load (mem st) (padd (heapStart st) i)) by lia.
    apply load_in_range. }
  destruct (fits rs w).
  - intros [= <-]. exists i. repeat split; lia.
  - apply IH; [lia | done].
Qed.

Section WithLimit.

Variable MAX_REQUEST_SIZE : Z.

Lemma first_fit_tiles rs st ws :
  rs <= MAX_REQUEST_SIZE -> placed st = true ->
  forall fuel i,
    0 <= i -> tiles st i ws = true -> (length ws < fuel)%nat ->
    first_fit MAX_REQUEST_SIZE fuel rs i st = Some (locate rs (heapStart st) i ws).
Proof.
  intros Hmax Hplaced. apply Z.leb_le in Hmax.
  apply placed_spec in Hplaced as (Hhs & Hend & Hsz & _).
  induction ws as [| w rest IH]; intros fuel i Hi Htiles Hfuel;
    (destruct fuel as [| fuel]; [simpl in Hfuel; lia |]);
    cbn [first_fit locate tiles length] in *.
  - apply Z.eqb_eq in Htiles. by rewrite Htiles, Z.ltb_irrefl.
  - repeat (apply andb_prop in Htiles as [Htiles ?]).
    rewrite Htiles.
    assert (load (mem st) (padd (heapStart st) i) = w) as Hw by lia.
    assert (in_range w) as Hwr by (rewrite <- Hw; apply load_in_range).
    pose proof (payload_of_nonneg w Hwr) as Hpw.
    assert (padd (heapStart st) i = heapStart st + i) as Hpadd by word_lia.
    rewrite Hw, Hmax. unfold fits.
    destruct (Z.land w 1 =? 0) eqn:Hflag; cbn [andb].
    + destruct (rs <=? w); [by rewrite Hpadd |].
      fold (payload_of w).
      replace (wrap (wrap (i + payload_of w) + 8)) with (i + payload_of w + 8)
        by word_lia.
      apply IH; [lia | done | lia].
    + fold (payload_of w).
      replace (wrap (wrap (i + payload_of w) + 8)) with (i + payload_of w + 8)
        by word_lia.
      apply IH; [lia | done | lia].
Qed.

(** [mymalloc] on a tiled region: it returns, and the null pointer is
    returned exactly in the four cases. *)
Lemma mymalloc_null_iff_implicit fuel r st ws :
  placed st = true -> tiles st 0 ws = true -> (length ws < fuel)%nat ->
  exists ptr st',
    mymalloc MAX_REQUEST_SIZE fuel r st = Some (ptr, st')
    /\ (ptr = NULL <->
        r = 0 \/ roundup r > MAX_REQUEST_SIZE
        \/ wrap (roundup r + sizeUsed st) > heapSize st
        \/ forallb (fun w => negb (fits (roundup r) w)) ws = true)
    /\ (ptr = NULL -> st' = st).
Proof.
  intros Hplaced Htiles Hfuel. unfold mymalloc.
  destruct (r =? 0) eqn:Hr0.
  { apply Z.eqb_eq in Hr0. exists NULL, st. repeat split; auto. }
  apply Z.eqb_neq in Hr0.
  destruct (roundup r >? MAX_REQUEST_SIZE) eqn:Hmax; cbn [orb].
  { apply Z.gtb_lt in Hmax. exists NULL, st. repeat split; auto.
    intros _. right. left. lia. }
  destruct (wrap (roundup r + sizeUsed st) >? heapSize st) eqn:Hroom.
  { apply Z.gtb_lt in Hroom. exists NULL, st. repeat split; auto.
    intros _. right. right. left. lia. }
  assert (roundup r <= MAX_REQUEST_SIZE) as Hle
    by (destruct (Z.gtb_spec (roundup r) MAX_REQUEST_SIZE); [done | lia]).
  assert (~ wrap (roundup r + sizeUsed st) > heapSize st) as Hroom'
    by (destruct (Z.gtb_spec (wrap (roundup r + sizeUsed st)) (heapSize st)); [done | lia]).
  rewrite malloc_loop_first_fit_implicit, (first_fit_tiles _ _ ws) by done.
  destruct (locate _ _ _ ws) as [header |] eqn:Hloc.
  - destruct (place _ _ _) as [ptr st'] eqn:Hplace.
    exists ptr, st'. split; [done |].
    assert (ptr <> NULL) as Hptr.
    { replace ptr with (place header (roundup r) st).1 by (by rewrite Hplace).
      rewrite place_ptr.
      apply locate_some with (st := st) in Hloc as (j & -> & Hj0 & Hj8); [| lia | done].
      apply placed_spec in Hplaced as (Hhs & Hend & _ & _). word_lia. }
    split; [| done]. split; [done |].
    intros [? | [? | [? | Hnone]]]; [lia | lia | lia |].
    apply (locate_none _ (heapStart st) ws 0) in Hnone. congruence.
  - exists NULL, st. repeat split; auto.
    intros _. right. right. right. by apply (locate_none _ (heapStart st) ws 0).
Qed.

(** *** [myrealloc] *)

Lemma myrealloc_zero_implicit fuel old_ptr st :
  old_ptr <> NULL ->
  myrealloc MAX_REQUEST_SIZE fuel old_ptr 0 st = Some (old_ptr, myfree old_ptr st).
Proof.
  intros Hptr. unfold myrealloc. apply Z.eqb_neq in Hptr. by rewrite Hptr.
Qed.

Lemma myrealloc_null_zero_implicit fuel st :
  myrealloc MAX_REQUEST_SIZE fuel NULL 0 st = Some (NULL, st).
Proof.
  unfold myrealloc. simpl. by destruct (_ || _).
Qed.

Lemma myrealloc_in_place_implicit fuel old_ptr new_size st header :
  old_ptr <> NULL -> new_size <> 0 ->
  roundup new_size <= MAX_REQUEST_SIZE ->
  wrap (roundup new_size + sizeUsed st) <= heapSize st ->
  first_fit MAX_REQUEST_SIZE fuel (roundup new_size) 0 st = Some (Some header) ->
  Z.lxor (load (mem st) (padd old_ptr (-8))) 1 > new_size ->
  myrealloc MAX_REQUEST_SIZE fuel old_ptr new_size st = Some (old_ptr, st).
Proof.
  intros Hptr Hsz Hmax Hroom Hfit Hold. unfold myrealloc.
  apply Z.eqb_neq in Hptr, Hsz. rewrite Hptr, Hsz. cbn [andb negb].
  assert ((roundup new_size >? MAX_REQUEST_SIZE) = false) as ->
    by (destruct (Z.gtb_spec (roundup new_size) MAX_REQUEST_SIZE); [lia | done]).
  assert ((wrap (roundup new_size + sizeUsed st) >? heapSize st) = false) as ->
    by (destruct (Z.gtb_spec (wrap (roundup new_size + sizeUsed st)) (heapSize st));
        [lia | done]).
  cbn [orb]. by eapply realloc_loop_in_place.
Qed.

End WithLimit.

(** *** Requests in the top seven values of [size_t] *)

Lemma tiles_in_range st ws :
  forall i w, tiles st i ws = true -> In w ws -> in_range w.
Proof.
  induction ws as [| w0 rest IH]; intros i w Htiles Hin; simpl in *; [done |].
  repeat (apply andb_prop in Htiles as [Htiles ?]).
  destruct Hin as [<- | Hin]; [| by eapply IH].
  replace w0 with (load (mem st) (padd (heapStart st) i)) by lia.
  apply load_in_range.
Qed.

Lemma free_block_fits_zero st i ws :
  tiles st i ws = true ->
  existsb (fun w => Z.land w 1 =? 0) ws = true ->
  forallb (fun w => negb (fits 0 w)) ws = true -> False.
Proof.
  intros Htiles Hex Hall.
  apply existsb_exists in Hex as (w & Hin & Hflag).
  pose proof (tiles_in_range st ws i w Htiles Hin) as Hw.
  apply (proj1 (forallb_forall _ _) Hall) in Hin.
  unfold fits in Hin. rewrite Hflag in Hin. simpl in Hin.
  apply negb_true_iff, Z.leb_gt in Hin. unfold in_range in Hw. lia.
Qed.

Lemma mymalloc_top_request_implicit MAX fuel r st ws :
  SIZE_MAX - 7 < r <= SIZE_MAX -> 0 <= MAX ->
  placed st = true -> sizeUsed st <= heapSize st ->
  tiles st 0 ws = true ->
  existsb (fun w => Z.land w 1 =? 0) ws = true ->
  (length ws < fuel)%nat ->
  exists ptr st',
    mymalloc MAX fuel r st = Some (ptr, st') /\ ptr <> NULL
    /\ let header := padd ptr (-8) in
       let w := load (mem st) header in
       Z.land w 1 = 0
       /\ load (mem st') header = Z.lxor (if w >=? 16 then 0 else w) 1.
Proof.
  intros Hr Hmax Hplaced Hroom Htiles Hfree Hfuel.
  pose proof (roundup_top_implicit r Hr) as Hround.
  destruct (mymalloc_null_iff_implicit MAX fuel r st ws Hplaced Htiles Hfuel)
    as (ptr & st' & Hm & Hiff & _).
  exists ptr, st'. split; [done |].
  assert (ptr <> NULL) as Hptr.
  { intros Heq. apply Hiff in Heq. rewrite Hround in Heq.
    destruct Heq as [? | [? | [Hover | Hnone]]].
    - unfold SIZE_MAX, modulus in Hr. lia.
    - lia.
    - apply placed_spec in Hplaced as (_ & _ & _ & Hu).
      rewrite (wrap_small (0 + sizeUsed st)) in Hover by done. lia.
    - by eapply free_block_fits_zero. }
  split; [done |].
  apply mymalloc_cases_implicit in Hm as [[-> _] | (header & Hfit & Hplace)]; [done |].
  rewrite Hround in Hfit, Hplace.
  apply first_fit_selected_implicit in Hfit as (Hhr & Hflag & _).
  pose proof (place_ptr header 0 st) as Hp.
  assert (in_range 0) as H0 by (unfold in_range, modulus; lia).
  pose proof (place_header header 0 st H0) as Hhdr.
  rewrite Hplace in Hp, Hhdr. simpl in Hp, Hhdr. subst ptr.
  rewrite padd_back by done. cbn zeta. split; [done |].
  rewrite Hhdr. unfold placed_payload.
  by rewrite Z.sub_0_r, (wrap_small (load (mem st) header)) by apply load_in_range.
Qed.

(** *** Fuel *)

Lemma first_fit_more_fuel_implicit MAX k rs st res :
  forall fuel i,
    first_fit MAX fuel rs i st = Some res ->
    first_fit MAX (fuel + k) rs i st = Some res.
Proof.
  induction fuel as [| fuel IH]; intros i; [done |].
  simpl. destruct (i <? heapSize st); [| done].
  destruct (_ && _); [done | apply IH].
Qed.

Lemma mymalloc_more_fuel_implicit MAX k fuel r st res :
  mymalloc MAX fuel r st = Some res -> mymalloc MAX (fuel + k) r st = Some res.
Proof.
  unfold mymalloc. destruct (r =? 0); [done |]. destruct (_ || _); [done |].
  rewrite !malloc_loop_first_fit_implicit.
  destruct (first_fit MAX fuel _ _ _) as [res' |] eqn:Hfit; [| done].
  by rewrite (first_fit_more_fuel_implicit _ k _ _ _ _ _ Hfit).
Qed.

Lemma realloc_loop_more_fuel_implicit MAX k old_ptr new_size rs st res :
  forall fuel i,
    realloc_loop MAX fuel old_ptr new_size rs i st = Some res ->
    realloc_loop MAX (fuel + k) old_ptr new_size rs i st = Some res.
Proof.
  induction fuel as [| fuel IH]; intros i; [done |].
  cbn [realloc_loop Nat.add]. destruct (i <? heapSize st); [| done].
  destruct (_ && _); [done | apply IH].
Qed.

Lemma myrealloc_more_fuel_implicit MAX k fuel old_ptr new_size st res :
  myrealloc MAX fuel old_ptr new_size st = Some res ->
  myrealloc MAX (fuel + k) old_ptr new_size st = Some res.
Proof.
  unfold myrealloc. destruct (_ && _); [done |]. destruct (_ || _); [done |].
  destruct (old_ptr =? NULL); [apply mymalloc_more_fuel_implicit |].
  apply realloc_loop_more_fuel_implicit.
Qed.

End ImplicitFacts.

(** ** Runs on the 4096-byte region *)

Module Runs.

Import Scenario.

(** [mymalloc(100)] on the fresh region: the request is rounded to 104, the
    counter is the header plus 104, and the validator accepts the state. *)
Example explicit_allocate_100 :
  exists st,
    Explicit.mymalloc LIMIT 8 100 E.fresh = Some (4112, st)
    /\ Explicit.sizeUsed st = 16 + 104
    /\ Explicit.validate_heap 8 st = Some true.
Proof. eexists. split; [vm_compute; reflexivity |]. vm_compute. by split. Qed.

Example implicit_allocate_100 :
  exists st,
    Implicit.mymalloc LIMIT 8 100 I.fresh = Some (4104, st)
    /\ Implicit.sizeUsed st = 8 + 104
    /\ Implicit.validate_heap 8 st = Some true.
Proof. eexists. split; [vm_compute; reflexivity |]. vm_compute. by split. Qed.

(** Freeing the only allocated block of the explicit variant merges it with
    the free block on its right: the region is one free block again. *)
Example explicit_allocate_then_free :
  let st := Explicit.myfree 4112 E.after_A in
  Explicit.sizeUsed st = 0 /\ Explicit.freeSpace st = 4096
  /\ Explicit.chain (Explicit.mem st) (Explicit.freeEnd st) [4096] = true
  /\ Explicit.h (Explicit.load_header (Explicit.mem st) 4096) = 4080
  /\ Explicit.validate_heap 8 st = Some true.
Proof. vm_compute. repeat split; done. Qed.

(** The largest request the fresh explicit region serves is its length
    minus 16. *)
Example explicit_largest_request :
  fst <$> Explicit.mymalloc LIMIT 8 4080 E.fresh = Some 4112
  /\ fst <$> Explicit.mymalloc LIMIT 8 4081 E.fresh = Some NULL
  /\ fst <$> Explicit.mymalloc LIMIT 8 4096 E.fresh = Some NULL.
Proof. vm_compute. repeat split; done. Qed.

Example implicit_largest_request :
  fst <$> Implicit.mymalloc LIMIT 8 4088 I.fresh = Some 4104
  /\ fst <$> Implicit.mymalloc LIMIT 8 4089 I.fresh = Some NULL.
Proof. vm_compute. repeat split; done. Qed.

(** In the explicit variant a block freed in front of an allocated block is
    not handed out again: after [A], [B], [myfree(A)], a request of the size
    of [A] is served from the block at 4160, behind [B]. *)
Example explicit_freed_block_is_not_reused :
  fst <$> Explicit.mymalloc LIMIT 8 16 E.after_free_A = Some (4160 + 16).
Proof. vm_compute. reflexivity. Qed.

(** In the implicit variant the first block, once freed, is the first fit. *)
Example implicit_freed_block_is_reused :
  fst <$> Implicit.mymalloc LIMIT 8 8 I.after_small_freed = Some 4104.
Proof. vm_compute. reflexivity. Qed.

(** The implicit [myrealloc] moves a block to a request of exactly its
    payload size: its test is [old_payload > new_size]. *)
Example implicit_realloc_to_same_size_moves :
  Z.lxor (load (Implicit.mem I.after_16) 4096) 1 = 16
  /\ fst <$> Implicit.myrealloc LIMIT 8 4104 16 I.after_16 = Some 4128.
Proof. vm_compute. repeat split; done. Qed.

End Runs.

(** * The well-formed region: facts *)

(** ** The copy of [myrealloc] *)

Module MemmoveFacts.

Import Machine MachineFacts.

(** A run of stores: the word at [a] afterwards, when every store that hits
    [a] writes [x] and either some store hits [a] or [x] was there before. *)
Lemma fold_store_value dst (vals : list (Z * Z)) :
  forall m a x,
    (forall ov, In ov vals -> padd dst (fst ov) = a -> wrap (snd ov) = x) ->
    (load m a = x \/ exists ov, In ov vals /\ padd dst (fst ov) = a) ->
    load (fold_left (fun m' ov => store m' (padd dst (fst ov)) (snd ov)) vals m) a = x.
Proof.
  induction vals as [| ov rest IH]; intros m a x Hval Hhit; cbn [fold_left].
  - destruct Hhit as [Hm | (ov & [] & _)]. exact Hm.
  - apply IH.
    + intros ov' Hin. apply Hval. by right.
    + destruct (Z.eq_dec (padd dst (fst ov)) a) as [Heq | Hne].
      * left. subst a. rewrite load_store_eq. apply Hval; [by left | done].
      * rewrite (load_store_ne _ _ _ _ Hne).
        destruct Hhit as [Hm | (ov' & [<- | Hin] & Ha)]; [by left | done |].
        right. by exists ov'.
Qed.

Lemma in_memmove_vals m src n ov :
  In ov (map (fun o => (o, load m (padd src o)))
             (map (fun k => 8 * Z.of_nat k) (seq 0 (Z.to_nat (n / 8))))) <->
  exists k, 0 <= k < n / 8 /\ ov = (8 * k, load m (padd src (8 * k))).
Proof.
  rewrite in_map_iff. split.
  - intros (o & <- & Ho). apply in_map_iff in Ho as (k & <- & Hk).
    apply in_seq in Hk. exists (Z.of_nat k). split; [lia | done].
  - intros (k & Hk & ->). exists (8 * k). split; [done |].
    apply in_map_iff. exists (Z.to_nat k). split; [lia |].
    apply in_seq. lia.
Qed.

(** Words outside the destination keep their value. *)
Lemma memmove_outside m dst src n a :
  n mod 8 = 0 ->
  (forall k, 0 <= k < n / 8 -> padd dst (8 * k) <> a) ->
  load (memmove m dst src n) a = load m a.
Proof.
  intros Hmul Hout. unfold memmove. rewrite Hmul. change (0 =? 0) with true.
  cbn iota. rewrite app_nil_r. apply fold_store_value; [| by left].
  intros ov (k & Hk & ->)%in_memmove_vals Ha. cbn [fst] in Ha.
  by destruct (Hout k Hk).
Qed.

(** The words of the destination hold what the source held before the call,
    also when the two ranges overlap. *)
Lemma memmove_inside m dst src n k :
  n mod 8 = 0 -> 0 <= n < modulus -> 0 <= k < n / 8 ->
  load (memmove m dst src n) (padd dst (8 * k)) = load m (padd src (8 * k)).
Proof.
  intros Hmul Hn Hk. unfold memmove. rewrite Hmul. change (0 =? 0) with true.
  cbn iota. rewrite app_nil_r. apply fold_store_value.
  - intros ov (k' & Hk' & ->)%in_memmove_vals Ha. cbn [fst snd] in *.
    assert (k' = k) as -> by word_lia.
    apply wrap_small, load_in_range.
  - right. exists (8 * k, load m (padd src (8 * k))). split; [| done].
    apply in_memmove_vals. by exists k.
Qed.

End MemmoveFacts.

(** ** implicit.c: the region stays tiled *)

Module ImplicitHeap.

Import Implicit ImplicitFacts MemmoveFacts.

Lemma payload_of_free w : Z.land w 1 = 0 -> payload_of w = w.
Proof. intros Hw. unfold payload_of. by rewrite Hw. Qed.

Lemma payload_of_allocated w : Z.land w 1 = 1 -> payload_of w = Z.lxor w 1.
Proof. intros Hw. unfold payload_of. by rewrite Hw. Qed.

(** Setting the flag of a free block leaves its payload size. *)
Lemma payload_of_set w : Z.land w 1 = 0 -> payload_of (Z.lxor w 1) = w.
Proof.
  intros Hw. rewrite payload_of_allocated by (by apply land1_lxor1).
  apply lxor1_twice.
Qed.

Lemma land1_clear w : Z.land w 1 = 1 -> Z.land (Z.lxor w 1) 1 = 0.
Proof.
  intros Hw. rewrite (lxor1_allocated _ Hw). rewrite land1_mod2 in *. word_lia.
Qed.

Lemma tiles_cons st i w rest :
  tiles st i (w :: rest) = true ->
  i < heapSize st /\ load (mem st) (padd (heapStart st) i) = w
  /\ i + payload_of w + 8 <= heapSize st /\ in_range w /\ 0 <= payload_of w
  /\ tiles st (i + payload_of w + 8) rest = true.
Proof.
  cbn [tiles]. intros Ht. repeat (apply andb_prop in Ht as [Ht ?]).
  assert (load (mem st) (padd (heapStart st) i) = w) as Hw by lia.
  assert (in_range w) as Hr by (rewrite <- Hw; apply load_in_range).
  pose proof (payload_of_nonneg w Hr).
  split; [lia |]. split; [done |]. split; [lia |].
  split; [exact Hr |]. by split.
Qed.

Lemma tiles_cons_intro st i w rest :
  i < heapSize st -> load (mem st) (padd (heapStart st) i) = w ->
  i + payload_of w + 8 <= heapSize st ->
  tiles st (i + payload_of w + 8) rest = true ->
  tiles st i (w :: rest) = true.
Proof.
  intros H1 H2 H3 H4. cbn [tiles]. rewrite H4.
  apply Z.ltb_lt in H1. apply Z.eqb_eq in H2. apply Z.leb_le in H3.
  by rewrite H1, H2, H3.
Qed.

Lemma tiles_span st ws : forall i, tiles st i ws = true -> i + span ws = heapSize st.
Proof.
  induction ws as [| w rest IH]; intros i Ht.
  - cbn in *. lia.
  - apply tiles_cons in Ht as (_ & _ & _ & _ & _ & Ht). apply IH in Ht.
    cbn [span fold_right] in *. fold (span rest). lia.
Qed.

Lemma tiles_nonneg st ws :
  forall i, tiles st i ws = true -> 0 <= used_bytes ws <= span ws.
Proof.
  induction ws as [| w rest IH]; intros i Ht; [cbn; lia |].
  apply tiles_cons in Ht as (_ & _ & _ & _ & Hp & Ht). apply IH in Ht.
  cbn [span used_bytes fold_right]. fold (span rest). fold (used_bytes rest).
  destruct (Z.land w 1 =? 1); lia.
Qed.

(** What the tiling reads: the header words from offset [i] on. *)
Lemma tiles_frame st st' ws :
  placed st = true ->
  heapStart st' = heapStart st -> heapSize st' = heapSize st ->
  forall i,
    0 <= i ->
    (forall a, heapStart st + i <= a -> load (mem st') a = load (mem st) a) ->
    tiles st i ws = true -> tiles st' i ws = true.
Proof.
  intros Hplaced Hhs Hsz. apply placed_spec in Hplaced as (Hpos & Hend & _ & _).
  induction ws as [| w rest IH]; intros i Hi Hframe Ht.
  - cbn in *. by rewrite Hsz.
  - apply tiles_cons in Ht as (Hlt & Hw & Hle & _ & Hp & Ht).
    assert (padd (heapStart st) i = heapStart st + i) as Hpadd by word_lia.
    apply tiles_cons_intro; rewrite ?Hhs, ?Hsz; try done.
    + rewrite Hpadd, Hframe by lia. by rewrite <- Hpadd.
    + apply IH; [lia | | done]. intros a Ha. apply Hframe. lia.
Qed.

(** The block a scan of the tiling stops at. *)
Lemma locate_spec st rs ws :
  forall i header,
    0 <= i -> tiles st i ws = true ->
    locate rs (heapStart st) i ws = Some header ->
    exists j w,
      header = heapStart st + j /\ i <= j /\ j + w + 8 <= heapSize st
      /\ load (mem st) (padd (heapStart st) j) = w
      /\ Z.land w 1 = 0 /\ rs <= w /\ In w ws
      /\ List.find (fits rs) ws = Some w
      /\ (forallb aligned ws = true -> i mod 8 = 0 -> j mod 8 = 0).
Proof.
  induction ws as [| w rest IH]; intros i header Hi Ht; [done |].
  apply tiles_cons in Ht as (Hlt & Hw & Hle & Hr & Hp & Ht).
  cbn [locate List.find]. destruct (fits rs w) eqn:Hfit.
  - intros [= <-]. unfold fits in Hfit. apply andb_prop in Hfit as [Hflag Hsz].
    apply Z.eqb_eq in Hflag. apply Z.leb_le in Hsz.
    rewrite (payload_of_free _ Hflag) in Hle.
    exists i, w. repeat split; try done; try lia. by left.
  - intros Hloc. apply IH in Hloc as (j & w' & -> & Hj & Hend & Hload & Hflag & Hsz & Hin & Hfind & Hal);
      [| lia | done].
    exists j, w'. repeat split; try done; try lia; [by right |].
    intros Hall Himod. cbn [forallb] in Hall. apply andb_prop in Hall as [Hw8 Hall].
    apply Hal; [done |]. unfold aligned in Hw8. apply Z.eqb_eq in Hw8.
    word_lia.
Qed.

(** What a placement writes. *)
Lemma place_load_nosplit header rs st a :
  (wrap (load (mem st) header - rs) >=? 16) = false -> a <> header ->
  load (mem (place header rs st).2) a = load (mem st) a.
Proof.
  intros Hcond Ha. unfold place. rewrite Hcond. cbn.
  by rewrite load_store_ne.
Qed.

Lemma place_load_split header rs st a :
  (wrap (load (mem st) header - rs) >=? 16) = true ->
  a <> header -> a <> padd header (wrap (8 + rs)) ->
  load (mem (place header rs st).2) a = load (mem st) a.
Proof.
  intros Hcond Ha Hs. unfold place, splitFunc. rewrite Hcond. cbn.
  by rewrite !load_store_ne.
Qed.

Lemma place_load_remainder header rs st :
  (wrap (load (mem st) header - rs) >=? 16) = true ->
  padd header (wrap (8 + rs)) <> header ->
  load (mem (place header rs st).2) (padd header (wrap (8 + rs)))
  = wrap (load (mem st) header - wrap (rs + 8)).
Proof.
  intros Hcond Hne. unfold place, splitFunc. rewrite Hcond. cbn.
  rewrite !load_store_ne by done. rewrite load_store_eq. apply wrap_wrap.
Qed.

(** A placement in a tiled region leaves it tiled, by the blocks
    [allocate_in] gives. *)
Lemma place_tiles st rs :
  placed st = true -> in_range rs -> Z.land rs 1 = 0 ->
  forall ws i header,
    0 <= i -> tiles st i ws = true ->
    locate rs (heapStart st) i ws = Some header ->
    tiles (place header rs st).2 i (allocate_in rs ws) = true.
Proof.
  intros Hplaced Hrs Heven.
  pose proof Hplaced as (Hpos & Hend & _ & _)%placed_spec.
  assert (0 <= rs) as Hrs0 by apply Hrs.
  induction ws as [| w rest IH]; intros i header Hi Ht Hloc; [done |].
  pose proof Ht as Htiles.
  apply tiles_cons in Ht as (Hlt & Hw & Hle & Hr & Hp & Ht).
  destruct (place_frame header rs st) as [Hhs Hsz].
  assert (padd (heapStart st) i = heapStart st + i) as Hpadd by word_lia.
  cbn [locate allocate_in] in *. destruct (fits rs w) eqn:Hfit.
  - injection Hloc as <-. unfold fits in Hfit. apply andb_prop in Hfit as [Hflag Hfsz].
    apply Z.eqb_eq in Hflag. apply Z.leb_le in Hfsz.
    rewrite (payload_of_free _ Hflag) in *. rewrite Hpadd in Hw.
    pose proof (place_header (heapStart st + i) rs st Hrs) as Hhdr.
    unfold placed_payload in Hhdr. rewrite Hw in Hhdr.
    assert (wrap (w - rs) = w - rs) as Hwrap by word_lia.
    rewrite Hwrap in Hhdr.
    destruct (w - rs >=? 16) eqn:Hsplit.
    + assert (16 <= w - rs) as Hge by lia.
      assert (padd (heapStart st + i) (wrap (8 + rs)) = heapStart st + (i + rs + 8))
        as Hsaddr by word_lia.
      cbn [app]. apply tiles_cons_intro; rewrite ?Hhs, ?Hsz, ?Hpadd.
      * done.
      * done.
      * rewrite payload_of_set by done. lia.
      * rewrite payload_of_set by done.
        assert (Z.land (w - (rs + 8)) 1 = 0) as Hreven
          by (rewrite land1_mod2 in *; word_lia).
        assert (padd (heapStart st) (i + rs + 8) = heapStart st + (i + rs + 8))
          as Hpadd2 by word_lia.
        apply tiles_cons_intro; rewrite ?Hhs, ?Hsz, ?Hpadd2, ?(payload_of_free _ Hreven).
        -- lia.
        -- rewrite <- Hsaddr, place_load_remainder.
           ++ rewrite Hw. word_lia.
           ++ by rewrite Hw, Hwrap.
           ++ rewrite Hsaddr. lia.
        -- lia.
        -- replace (i + rs + 8 + (w - (rs + 8)) + 8) with (i + w + 8) by lia.
           apply (tiles_frame st); try done; [lia |].
           intros a Ha. apply place_load_split.
           ++ by rewrite Hw, Hwrap.
           ++ lia.
           ++ rewrite Hsaddr. lia.
    + cbn [app]. apply tiles_cons_intro; rewrite ?Hhs, ?Hsz, ?Hpadd.
      * done.
      * done.
      * rewrite payload_of_set by done. lia.
      * rewrite payload_of_set by done.
        apply (tiles_frame st); try done; [lia |].
        intros a Ha. apply place_load_nosplit; [by rewrite Hw, Hwrap | lia].
  - pose proof Hloc as (j & w' & -> & Hj & Hjend & Hjw & Hjflag & Hjsz & _)%(locate_spec st);
      [| lia | done].
    assert (padd (heapStart st) j = heapStart st + j) as Hpaddj by word_lia.
    rewrite Hpaddj in Hjw.
    assert (wrap (w' - rs) = w' - rs) as Hwrap.
    { assert (in_range w') by (rewrite <- Hjw; apply load_in_range). word_lia. }
    apply tiles_cons_intro; rewrite ?Hhs, ?Hsz, ?Hpadd.
    + done.
    + rewrite <- Hw, Hpadd.
      destruct (wrap (load (mem st) (heapStart st + j) - rs) >=? 16) eqn:Hcond.
      * apply place_load_split; [done | lia |].
        assert (padd (heapStart st + j) (wrap (8 + rs)) = heapStart st + j + 8 + rs)
          as -> by word_lia.
        lia.
      * apply place_load_nosplit; [done | lia].
    + done.
    + by apply IH; [lia | |].
Qed.

(** The same on the lists alone. *)
Lemma allocate_in_aligned rs ws :
  rs mod 8 = 0 ->
  forallb aligned ws = true -> forallb aligned (allocate_in rs ws) = true.
Proof.
  intros Hrs. assert (Z.land rs 1 = 0) as Heven by (rewrite land1_mod2; word_lia).
  induction ws as [| w rest IH]; [done |].
  cbn [forallb allocate_in]. intros Hall. apply andb_prop in Hall as [Hw Hall].
  destruct (fits rs w) eqn:Hfit.
  - unfold fits in Hfit. apply andb_prop in Hfit as [Hflag _]. apply Z.eqb_eq in Hflag.
    unfold aligned in Hw. rewrite (payload_of_free _ Hflag) in Hw. apply Z.eqb_eq in Hw.
    destruct (w - rs >=? 16); cbn [app forallb]; rewrite Hall; unfold aligned.
    + rewrite (payload_of_set _ Heven).
      assert (Z.land (w - (rs + 8)) 1 = 0) as Hreven by (rewrite land1_mod2; word_lia).
      rewrite (payload_of_free _ Hreven).
      assert ((rs mod 8 =? 0) = true) as -> by (by apply Z.eqb_eq).
      assert (((w - (rs + 8)) mod 8 =? 0) = true) as -> by (apply Z.eqb_eq; word_lia).
      done.
    + rewrite (payload_of_set _ Hflag).
      assert ((w mod 8 =? 0) = true) as -> by (by apply Z.eqb_eq). done.
  - cbn [forallb]. by rewrite Hw, IH.
Qed.

Lemma allocate_in_used rs ws w :
  Z.land rs 1 = 0 ->
  List.find (fits rs) ws = Some w ->
  used_bytes (allocate_in rs ws)
  = used_bytes ws + 8 + (if w - rs >=? 16 then rs else w).
Proof.
  intros Heven. induction ws as [| w0 rest IH]; [done |].
  cbn [List.find allocate_in]. destruct (fits rs w0) eqn:Hfit.
  - intros [= ->]. unfold fits in Hfit. apply andb_prop in Hfit as [Hflag _].
    apply Z.eqb_eq in Hflag.
    cbn [used_bytes fold_right]. fold (used_bytes rest). rewrite Hflag. cbn.
    destruct (w - rs >=? 16); cbn [app used_bytes fold_right]; fold (used_bytes rest).
    + rewrite (land1_lxor1 _ Heven), (payload_of_set _ Heven). cbn.
      assert (Z.land (w - (rs + 8)) 1 = 0) as ->
        by (rewrite land1_mod2 in *; word_lia).
      cbn. lia.
    + rewrite (land1_lxor1 _ Hflag), (payload_of_set _ Hflag). cbn. lia.
  - intros Hfind. cbn [used_bytes fold_right]. fold (used_bytes rest).
    fold (used_bytes (allocate_in rs rest)). rewrite (IH Hfind).
    destruct (Z.land w0 1 =? 1); lia.
Qed.

Lemma heap_ok_spec st ws :
  heap_ok st ws = true <->
  placed st = true /\ heapStart st mod 8 = 0 /\ tiles st 0 ws = true
  /\ forallb aligned ws = true /\ sizeUsed st = used_bytes ws.
Proof.
  unfold heap_ok. rewrite !andb_true_iff, !Z.eqb_eq. tauto.
Qed.

Lemma roundup_multiple r : roundup r mod 8 = 0.
Proof. unfold roundup. rewrite round_expr. word_lia. Qed.

Lemma roundup_even_implicit r : Z.land (roundup r) 1 = 0.
Proof. apply round_expr_even. Qed.

(** [mymalloc] on a well-formed region. *)
Lemma mymalloc_heap_ok MAX fuel r st ws :
  heap_ok st ws = true -> (length ws < fuel)%nat ->
  exists ptr st',
    mymalloc MAX fuel r st = Some (ptr, st')
    /\ (ptr = NULL -> st' = st)
    /\ (ptr <> NULL -> heap_ok st' (allocate_in (roundup r) ws) = true).
Proof.
  intros (Hplaced & Hbase & Htiles & Hall & Hused)%heap_ok_spec Hfuel.
  destruct (mymalloc_null_iff_implicit MAX fuel r st ws Hplaced Htiles Hfuel)
    as (ptr & st' & Hm & _ & Hnull).
  exists ptr, st'. split; [done |]. split; [done |]. intros Hptr.
  pose proof Hm as Hcases.
  apply mymalloc_cases_implicit in Hcases as [[-> _] | (header & Hfit & Hplace)]; [done |].
  assert (roundup r <= MAX) as Hmax.
  { unfold mymalloc in Hm. destruct (r =? 0); [by injection Hm as <- |].
    destruct (Z.gtb_spec (roundup r) MAX); [| done].
    cbn in Hm. by injection Hm as <-. }
  rewrite (first_fit_tiles MAX _ st ws) in Hfit by (done || lia).
  injection Hfit as Hloc.
  pose proof (place_tiles st (roundup r) Hplaced (roundup_in_range_implicit r)
                (roundup_even_implicit r) ws 0 header ltac:(lia) Htiles Hloc) as Ht'.
  pose proof Hloc as (j & w & -> & Hj & Hjend & Hjw & Hjflag & Hjsz & _ & Hfind & _)%(locate_spec st);
    [| lia | done].
  pose proof (place_frame (heapStart st + j) (roundup r) st) as [Hhs Hsz].
  pose proof (place_used (heapStart st + j) (roundup r) st) as Hu.
  rewrite Hplace in Ht', Hhs, Hsz, Hu. cbn [snd] in Ht', Hhs, Hsz, Hu.
  pose proof Hplaced as (Hpos & Hend & Hsz0 & Hur)%placed_spec.
  assert (in_range w) as Hwr by (rewrite <- Hjw; apply load_in_range).
  assert (padd (heapStart st) j = heapStart st + j) as Hpaddj by word_lia.
  rewrite Hpaddj in Hjw.
  pose proof (allocate_in_used (roundup r) ws w (roundup_even_implicit r) Hfind) as Hused'.
  pose proof (tiles_nonneg st' _ 0 Ht') as Hbound.
  pose proof (tiles_span st' _ 0 Ht') as Hspan.
  pose proof (roundup_in_range_implicit r) as Hrr.
  assert (sizeUsed st' = used_bytes (allocate_in (roundup r) ws)) as Hnew.
  { rewrite Hu, Hused', Hjw. unfold placed_payload.
    replace (wrap (w - roundup r)) with (w - roundup r) by word_lia.
    rewrite Hused' in Hbound. revert Hbound.
    destruct (w - roundup r >=? 16); intros Hbound; word_lia. }
  apply heap_ok_spec. repeat split.
  - unfold placed. rewrite Hhs, Hsz, Hnew.
    apply placed_spec in Hplaced. unfold in_range in *.
    repeat (apply andb_true_intro; split); try (apply Z.ltb_lt; lia);
      try (apply Z.leb_le; lia).
  - by rewrite Hhs.
  - done.
  - apply allocate_in_aligned; [apply roundup_multiple | done].
  - done.
Qed.

(** *** [myinit] *)

Lemma myinit_heap_ok heap_start heap_size st :
  0 < heap_start -> heap_start mod 8 = 0 ->
  8 <= heap_size -> heap_size mod 8 = 0 ->
  heap_start + heap_size < modulus ->
  (myinit heap_start heap_size st).1 = true
  /\ heap_ok (myinit heap_start heap_size st).2 [heap_size - 8] = true.
Proof.
  intros Hpos Hbase Hsz Hmul Hend. unfold myinit.
  assert ((heap_start =? NULL) = false) as -> by (apply Z.eqb_neq; unfold NULL; lia).
  split; [done |]. cbn [snd].
  assert (Z.land (heap_size - 8) 1 = 0) as Heven by (rewrite land1_mod2; word_lia).
  apply heap_ok_spec. cbn [heapStart heapSize sizeUsed mem]. repeat split.
  - unfold placed. cbn [heapStart heapSize sizeUsed].
    repeat (apply andb_true_intro; split); try (apply Z.ltb_lt; unfold modulus in *; lia);
      apply Z.leb_le; lia.
  - done.
  - apply tiles_cons_intro; cbn [heapStart heapSize mem];
      rewrite ?(payload_of_free _ Heven).
    + lia.
    + replace (padd heap_start 0) with heap_start by word_lia.
      rewrite load_store_eq. word_lia.
    + lia.
    + cbn. apply Z.eqb_eq. lia.
  - cbn. unfold aligned. rewrite (payload_of_free _ Heven).
    assert (((heap_size - 8) mod 8 =? 0) = true) as -> by (apply Z.eqb_eq; word_lia).
    done.
  - cbn. by rewrite Heven.
Qed.

(** *** Where [mymalloc] puts a request *)

Lemma mymalloc_pointer_in_region MAX fuel r st ws ptr st' :
  heap_ok st ws = true -> (length ws < fuel)%nat ->
  mymalloc MAX fuel r st = Some (ptr, st') -> ptr <> NULL ->
  heapStart st + 8 <= ptr
  /\ ptr + roundup r <= heapStart st + heapSize st
  /\ ptr mod 8 = 0
  /\ Z.land (load (mem st) (ptr - 8)) 1 = 0
  /\ roundup r <= load (mem st) (ptr - 8).
Proof.
  intros (Hplaced & Hbase & Htiles & Hall & Hused)%heap_ok_spec Hfuel Hm Hptr.
  pose proof Hm as Hcases.
  apply mymalloc_cases_implicit in Hcases as [[-> _] | (header & Hfit & Hplace)]; [done |].
  assert (roundup r <= MAX) as Hmax.
  { unfold mymalloc in Hm. destruct (r =? 0); [by injection Hm as <- |].
    destruct (Z.gtb_spec (roundup r) MAX); [| done].
    cbn in Hm. by injection Hm as <-. }
  rewrite (first_fit_tiles MAX _ st ws) in Hfit by (done || lia).
  injection Hfit as Hloc.
  apply (locate_spec st) in Hloc
    as (j & w & -> & Hj & Hjend & Hjw & Hjflag & Hjsz & _ & _ & Hal); [| lia | done].
  pose proof (place_ptr (heapStart st + j) (roundup r) st) as Hp.
  rewrite Hplace in Hp. cbn [fst] in Hp. subst ptr.
  pose proof Hplaced as (Hpos & Hend & Hsz0 & _)%placed_spec.
  assert (in_range w) as Hwr by (rewrite <- Hjw; apply load_in_range).
  assert (padd (heapStart st) j = heapStart st + j) as Hpaddj by word_lia.
  assert (padd (heapStart st + j) 8 = heapStart st + j + 8) as -> by word_lia.
  replace (heapStart st + j + 8 - 8) with (heapStart st + j) by lia.
  rewrite Hpaddj in Hjw. rewrite Hjw.
  specialize (Hal Hall eq_refl).
  repeat split; try done; try lia. word_lia.
Qed.

(** *** [myfree] *)

Lemma tiles_with_sizeUsed st u ws :
  forall i, tiles (with_sizeUsed st u) i ws = tiles st i ws.
Proof.
  induction ws as [| w rest IH]; intros i; cbn; [done |]. by rewrite IH.
Qed.

Lemma span_take_nonneg st ws :
  forall i k, tiles st i ws = true -> 0 <= span (take k ws).
Proof.
  induction ws as [| w rest IH]; intros i k Ht; [by destruct k |].
  apply tiles_cons in Ht as (_ & _ & _ & _ & Hp & Ht).
  destruct k as [| k]; [cbn; lia |].
  cbn [take span fold_right]. fold (span (take k rest)).
  specialize (IH _ k Ht). lia.
Qed.

(** Block number [k] of a tiling: where its header is and what it holds. *)
Lemma tiles_lookup st ws :
  placed st = true ->
  forall k i w,
    0 <= i -> tiles st i ws = true -> ws !! k = Some w ->
    load (mem st) (heapStart st + (i + span (take k ws))) = w
    /\ 0 <= span (take k ws)
    /\ i + span (take k ws) + payload_of w + 8 <= heapSize st.
Proof.
  intros (Hpos & Hend & _ & _)%placed_spec.
  induction ws as [| w0 rest IH]; intros k i w Hi Ht Hk; [done |].
  pose proof (span_take_nonneg st _ i k Ht) as Hnn.
  apply tiles_cons in Ht as (Hlt & Hw & Hle & _ & Hp & Ht).
  destruct k as [| k].
  - injection Hk as <-. cbn [take span fold_right].
    replace (heapStart st + (i + 0)) with (padd (heapStart st) i) by word_lia.
    repeat split; try done; lia.
  - cbn [lookup list_lookup] in Hk. cbn [take span fold_right] in *.
    fold (span (take k rest)) in *.
    destruct (IH k (i + payload_of w0 + 8) w ltac:(lia) Ht Hk) as (Hl & Hs & He).
    replace (heapStart st + (i + (payload_of w0 + 8 + span (take k rest))))
      with (heapStart st + (i + payload_of w0 + 8 + span (take k rest))) by lia.
    repeat split; try done; lia.
Qed.

(** Rewriting the header of block number [k] with a word of the same
    payload size leaves the region tiled. *)
Lemma tiles_update st ws :
  placed st = true ->
  forall k i w w',
    0 <= i -> tiles st i ws = true -> ws !! k = Some w ->
    payload_of w' = payload_of w -> in_range w' ->
    tiles (with_mem st (store (mem st) (heapStart st + (i + span (take k ws))) w'))
          i (<[k := w']> ws) = true.
Proof.
  intros Hplaced. pose proof Hplaced as (Hpos & Hend & _ & _)%placed_spec.
  induction ws as [| w0 rest IH]; intros k i w w' Hi Ht Hk Hpay Hr; [done |].
  pose proof (span_take_nonneg st _ i k Ht) as Hnn.
  pose proof Ht as (Hlt & Hw & Hle & _ & Hp & Ht')%tiles_cons.
  assert (padd (heapStart st) i = heapStart st + i) as Hpadd by word_lia.
  destruct k as [| k].
  - injection Hk as <-. cbn [take span fold_right insert list_insert].
    replace (heapStart st + (i + 0)) with (heapStart st + i) by lia.
    apply tiles_cons_intro; cbn [heapStart heapSize mem with_mem]; rewrite ?Hpay.
    + done.
    + rewrite Hpadd, load_store_eq. by apply wrap_small.
    + done.
    + apply (tiles_frame st); try done; [lia |].
      intros a Ha. cbn [mem with_mem]. apply load_store_ne. lia.
  - cbn [lookup list_lookup] in Hk.
    cbn [take span fold_right insert list_insert] in *.
    fold (span (take k rest)) in *.
    pose proof (span_take_nonneg st _ _ k Ht') as Hnn'.
    apply tiles_cons_intro; cbn [heapStart heapSize mem with_mem].
    + done.
    + rewrite Hpadd, load_store_ne by lia. by rewrite <- Hpadd.
    + done.
    + replace (heapStart st + (i + (payload_of w0 + 8 + span (take k rest))))
        with (heapStart st + (i + payload_of w0 + 8 + span (take k rest))) by lia.
      by apply (IH k (i + payload_of w0 + 8) w w'); [lia | | | |].
Qed.

Lemma used_bytes_cons w rest :
  used_bytes (w :: rest)
  = if Z.land w 1 =? 1 then payload_of w + 8 + used_bytes rest else used_bytes rest.
Proof. reflexivity. Qed.

Lemma used_bytes_clear ws :
  forall k w,
    ws !! k = Some w -> Z.land w 1 = 1 ->
    used_bytes (<[k := Z.lxor w 1]> ws) = used_bytes ws - (payload_of w + 8).
Proof.
  induction ws as [| w0 rest IH]; intros k w Hk Hw; [done |].
  destruct k as [| k].
  - injection Hk as ->.
    change (<[0%nat := Z.lxor w 1]> (w :: rest)) with (Z.lxor w 1 :: rest).
    rewrite !used_bytes_cons, (land1_clear _ Hw), Hw. cbn. lia.
  - change (<[S k := Z.lxor w 1]> (w0 :: rest)) with (w0 :: <[k := Z.lxor w 1]> rest).
    rewrite !used_bytes_cons, (IH k w Hk Hw). destruct (Z.land w0 1 =? 1); lia.
Qed.

Lemma aligned_clear ws :
  forall k w,
    ws !! k = Some w -> Z.land w 1 = 1 -> forallb aligned ws = true ->
    forallb aligned (<[k := Z.lxor w 1]> ws) = true.
Proof.
  induction ws as [| w0 rest IH]; intros k w Hk Hw Hall; [done |].
  cbn [forallb] in Hall. apply andb_prop in Hall as [H0 Hall].
  destruct k as [| k].
  - injection Hk as ->.
    change (<[0%nat := Z.lxor w 1]> (w :: rest)) with (Z.lxor w 1 :: rest).
    cbn [forallb]. rewrite Hall, andb_true_r.
    unfold aligned in *.
    rewrite (payload_of_free _ (land1_clear _ Hw)).
    by rewrite (payload_of_allocated _ Hw) in H0.
  - change (<[S k := Z.lxor w 1]> (w0 :: rest)) with (w0 :: <[k := Z.lxor w 1]> rest).
    cbn [forallb]. by rewrite H0, (IH k w Hk Hw Hall).
Qed.

(** [myfree] of an allocated block of a well-formed region. *)
Lemma myfree_heap_ok st ws k w :
  heap_ok st ws = true -> ws !! k = Some w -> Z.land w 1 = 1 ->
  heap_ok (myfree (payload_address st ws k) st) (<[k := Z.lxor w 1]> ws) = true
  /\ sizeUsed (myfree (payload_address st ws k) st) = sizeUsed st - (payload_of w + 8).
Proof.
  intros (Hplaced & Hbase & Htiles & Hall & Hused)%heap_ok_spec Hk Hw.
  pose proof Hplaced as (Hpos & Hend & Hsz0 & Hur)%placed_spec.
  destruct (tiles_lookup st ws Hplaced k 0 w ltac:(lia) Htiles Hk) as (Hload & Hnn & Hle).
  assert (in_range w) as Hwr by (rewrite <- Hload; apply load_in_range).
  pose proof (payload_of_nonneg w Hwr) as Hpw.
  unfold payload_address.
  set (off := span (take k ws)) in *.
  assert (heapStart st + off + 8 <> NULL) as Hptr by (unfold NULL; lia).
  assert (padd (heapStart st + off + 8) (-8) = heapStart st + (0 + off)) as Hhdr by word_lia.
  pose proof (tiles_update st ws Hplaced k 0 w (Z.lxor w 1) ltac:(lia) Htiles Hk) as Hup.
  rewrite (payload_of_free _ (land1_clear _ Hw)), (payload_of_allocated _ Hw) in Hup.
  specialize (Hup eq_refl (lxor1_in_range _ Hwr)).
  pose proof (tiles_nonneg _ _ _ Hup) as Hbound.
  rewrite (used_bytes_clear ws k w Hk Hw) in Hbound.
  assert (sizeUsed (myfree (heapStart st + off + 8) st) = sizeUsed st - (payload_of w + 8))
    as Hnew.
  { rewrite (myfree_used _ _ Hptr), Hhdr, Hload, Hused.
    rewrite (payload_of_allocated _ Hw) in *.
    pose proof (lxor1_in_range _ Hwr). word_lia. }
  split; [| done].
  apply heap_ok_spec.
  assert (myfree (heapStart st + off + 8) st
          = with_sizeUsed
              (with_mem st (store (mem st) (heapStart st + (0 + off)) (Z.lxor w 1)))
              (sizeUsed st - (payload_of w + 8))) as Hst.
  { rewrite <- Hnew. unfold myfree.
    assert ((heapStart st + off + 8 =? NULL) = false) as -> by (by apply Z.eqb_neq).
    cbn [negb]. rewrite Hhdr, Hload. cbn [mem with_mem with_sizeUsed sizeUsed].
    by rewrite load_store_eq. }
  rewrite Hst. cbn [heapStart with_sizeUsed with_mem sizeUsed]. repeat split.
  - unfold placed in *. cbn [heapStart heapSize sizeUsed with_sizeUsed with_mem].
    rewrite Hused. unfold in_range in *.
    repeat (apply andb_true_intro; split); try (apply Z.ltb_lt; lia);
      apply Z.leb_le; lia.
  - done.
  - by rewrite tiles_with_sizeUsed.
  - by apply aligned_clear.
  - rewrite (used_bytes_clear ws k w Hk Hw). lia.
Qed.

(** *** [validate_heap] *)

Lemma span_cons w rest : span (w :: rest) = payload_of w + 8 + span rest.
Proof. reflexivity. Qed.

Lemma validate_sweep_tiles st ws :
  placed st = true ->
  forall fuel i used freed,
    0 <= i -> 0 <= used -> 0 <= freed -> used + freed <= i ->
    tiles st i ws = true -> (length ws < fuel)%nat ->
    validate_sweep fuel i used freed st
    = Some (used + used_bytes ws, freed + (span ws - used_bytes ws)).
Proof.
  intros (Hpos & Hend & _ & _)%placed_spec.
  induction ws as [| w rest IH]; intros fuel i used freed Hi Hu Hf Hsum Ht Hfuel;
    (destruct fuel as [| fuel]; [cbn in Hfuel; lia |]); cbn [validate_sweep].
  - cbn in Ht. apply Z.eqb_eq in Ht. rewrite Ht, Z.ltb_irrefl. cbn. f_equal. f_equal; lia.
  - apply tiles_cons in Ht as (Hlt & Hw & Hle & Hr & Hp & Ht).
    assert ((i <? heapSize st) = true) as -> by (by apply Z.ltb_lt).
    rewrite Hw, span_cons, used_bytes_cons.
    destruct (land1_cases w) as [Hflag | Hflag]; rewrite Hflag; cbn [Z.eqb Pos.eqb].
    + rewrite (payload_of_free _ Hflag) in *.
      replace (wrap (freed + wrap (8 + w))) with (freed + (w + 8)) by word_lia.
      replace (wrap (wrap (i + w) + 8)) with (i + w + 8) by word_lia.
      rewrite (IH fuel (i + w + 8) used (freed + (w + 8))); try done; try lia;
        [| cbn in Hfuel; lia].
      f_equal. f_equal; lia.
    + rewrite (payload_of_allocated _ Hflag) in *.
      replace (wrap (used + wrap (8 + Z.lxor w 1))) with (used + (Z.lxor w 1 + 8))
        by word_lia.
      replace (wrap (wrap (i + Z.lxor w 1) + 8)) with (i + Z.lxor w 1 + 8) by word_lia.
      rewrite (IH fuel (i + Z.lxor w 1 + 8) (used + (Z.lxor w 1 + 8)) freed);
        try done; try lia; [| cbn in Hfuel; lia].
      f_equal. f_equal; lia.
Qed.

(** On a tiled region the validator compares [sizeUsed] with the bytes of
    the allocated blocks, and that is all it decides on. *)
Lemma validate_heap_tiles fuel st ws :
  placed st = true -> tiles st 0 ws = true -> (length ws < fuel)%nat ->
  validate_heap fuel st = Some (sizeUsed st =? used_bytes ws).
Proof.
  intros Hplaced Ht Hfuel. unfold validate_heap.
  pose proof (tiles_nonneg _ _ _ Ht) as Hb. pose proof (tiles_span _ _ _ Ht) as Hs.
  pose proof Hplaced as (Hpos & Hend & _ & _)%placed_spec.
  destruct (Z.gtb_spec (sizeUsed st) (heapSize st)).
  - f_equal. symmetry. apply Z.eqb_neq. lia.
  - rewrite (validate_sweep_tiles st ws Hplaced fuel 0 0 0) by (done || lia).
    replace (wrap (0 + (span ws - used_bytes ws) + (0 + used_bytes ws)))
      with (heapSize st) by word_lia.
    rewrite Z.eqb_refl. cbn [negb]. rewrite Z.add_0_l.
    by destruct (sizeUsed st =? used_bytes ws).
Qed.

Section Blocks.

Variable MAX_REQUEST_SIZE : Z.

(** *** The block [mymalloc] hands out *)

Lemma mymalloc_block fuel r st ptr st' :
  mymalloc MAX_REQUEST_SIZE fuel r st = Some (ptr, st') -> ptr <> NULL ->
  let header := padd ptr (-8) in
  Z.land (load (mem st) header) 1 = 0
  /\ Z.land (load (mem st') header) 1 = 1
  /\ roundup r <= Z.lxor (load (mem st') header) 1 <= load (mem st) header.
Proof.
  intros Hm Hptr.
  apply mymalloc_cases_implicit in Hm as [[-> _] | (header & Hfit & Hplace)]; [done |].
  apply first_fit_selected_implicit in Hfit as (Hhr & Hflag & Hsz).
  pose proof (place_ptr header (roundup r) st) as Hp.
  pose proof (place_header header (roundup r) st (roundup_in_range_implicit r)) as Hhdr.
  rewrite Hplace in Hp, Hhdr. cbn [fst snd] in Hp, Hhdr. subst ptr.
  rewrite padd_back by done. cbn zeta. rewrite Hhdr, lxor1_twice.
  unfold placed_payload.
  destruct (wrap (load (mem st) header - roundup r) >=? 16).
  - rewrite (land1_lxor1 _ (roundup_even_implicit r)). repeat split; try done; lia.
  - rewrite (land1_lxor1 _ Hflag). repeat split; try done; lia.
Qed.

End Blocks.

(** *** The move of [myrealloc] *)

(** The placement on a well-formed region. *)
Lemma place_heap_ok st rs ws header :
  heap_ok st ws = true -> in_range rs -> rs mod 8 = 0 ->
  locate rs (heapStart st) 0 ws = Some header ->
  heap_ok (place header rs st).2 (allocate_in rs ws) = true.
Proof.
  intros (Hplaced & Hbase & Htiles & Hall & Hused)%heap_ok_spec Hrr Hrs8 Hloc.
  assert (Z.land rs 1 = 0) as Heven by (rewrite land1_mod2; word_lia).
  pose proof (place_tiles st rs Hplaced Hrr Heven ws 0 header ltac:(lia) Htiles Hloc)
    as Ht'.
  pose proof Hloc
    as (j & w & -> & Hj & Hjend & Hjw & Hjflag & Hjsz & _ & Hfind & _)%(locate_spec st);
    [| lia | done].
  pose proof (place_frame (heapStart st + j) rs st) as [Hhs Hsz].
  pose proof (place_used (heapStart st + j) rs st) as Hu.
  set (st' := (place (heapStart st + j) rs st).2) in *.
  pose proof Hplaced as (Hpos & Hend & Hsz0 & Hur)%placed_spec.
  assert (in_range w) as Hwr by (rewrite <- Hjw; apply load_in_range).
  assert (padd (heapStart st) j = heapStart st + j) as Hpaddj by word_lia.
  rewrite Hpaddj in Hjw.
  pose proof (allocate_in_used rs ws w Heven Hfind) as Hused'.
  pose proof (tiles_nonneg st' _ 0 Ht') as Hbound.
  pose proof (tiles_span st' _ 0 Ht') as Hspan.
  assert (sizeUsed st' = used_bytes (allocate_in rs ws)) as Hnew.
  { rewrite Hu, Hused', Hjw. unfold placed_payload.
    replace (wrap (w - rs)) with (w - rs) by word_lia.
    rewrite Hused' in Hbound. revert Hbound.
    destruct (w - rs >=? 16); intros Hbound; word_lia. }
  apply heap_ok_spec. repeat split.
  - unfold placed. rewrite Hhs, Hsz, Hnew.
    apply placed_spec in Hplaced. unfold in_range in *.
    repeat (apply andb_true_intro; split); try (apply Z.ltb_lt; lia);
      try (apply Z.leb_le; lia).
  - by rewrite Hhs.
  - done.
  - by apply allocate_in_aligned.
  - done.
Qed.

(** Where the first block that fits is, and what [allocate_in] makes of it. *)
Lemma allocate_in_locate rs base ws :
  Z.land rs 1 = 0 ->
  forall i header,
    locate rs base i ws = Some header ->
    exists n wj a,
      ws !! n = Some wj /\ header = base + (i + span (take n ws))
      /\ Z.land wj 1 = 0 /\ rs <= wj
      /\ take n (allocate_in rs ws) = take n ws
      /\ allocate_in rs ws !! n = Some a
      /\ Z.land a 1 = 1 /\ rs <= payload_of a <= wj.
Proof.
  intros Heven. induction ws as [| w rest IH]; intros i header; [done |].
  cbn [locate allocate_in]. destruct (fits rs w) eqn:Hfit.
  - intros [= <-]. unfold fits in Hfit. apply andb_prop in Hfit as [Hflag Hsz].
    apply Z.eqb_eq in Hflag. apply Z.leb_le in Hsz.
    exists 0%nat, w.
    destruct (Z.geb_spec (w - rs) 16).
    + exists (Z.lxor rs 1). cbn [take span fold_right lookup list_lookup app].
      repeat split; try done; try lia.
      * by apply land1_lxor1.
      * rewrite payload_of_set by done. lia.
      * rewrite payload_of_set by done. lia.
    + exists (Z.lxor w 1). cbn [take span fold_right lookup list_lookup app].
      repeat split; try done; try lia.
      * by apply land1_lxor1.
      * rewrite payload_of_set by done. lia.
      * rewrite payload_of_set by done. lia.
  - intros Hloc.
    destruct (IH _ _ Hloc) as (n & wj & a & Hn & -> & Hflag & Hsz & Htake & Ha & Haf & Hap).
    exists (S n), wj, a. cbn [take lookup list_lookup]. rewrite span_cons, Htake.
    repeat split; try done; lia.
Qed.

(** Clearing the flag of a block too small for the request does not move
    the first fit. *)
Lemma locate_update rs base ws :
  forall i k w,
    ws !! k = Some w -> Z.land w 1 = 1 -> payload_of w < rs ->
    locate rs base i (<[k := Z.lxor w 1]> ws) = locate rs base i ws.
Proof.
  induction ws as [| w0 rest IH]; intros i k w Hk Hflag Hsmall; [done |].
  destruct k as [| k].
  - injection Hk as ->. cbn [insert list_insert locate].
    assert (fits rs w = false) as ->
      by (unfold fits; rewrite Hflag; done).
    assert (fits rs (Z.lxor w 1) = false) as ->.
    { unfold fits. rewrite (payload_of_allocated _ Hflag) in Hsmall.
      apply andb_false_intro2. apply Z.leb_gt. lia. }
    rewrite payload_of_free by by apply land1_clear.
    by rewrite (payload_of_allocated _ Hflag).
  - change (<[S k := Z.lxor w 1]> (w0 :: rest)) with (w0 :: <[k := Z.lxor w 1]> rest).
    cbn [locate]. destruct (fits rs w0); [done |]. by apply IH.
Qed.

(** The blocks of a tiling follow one another. *)
Lemma tiles_blocks_ordered st ws :
  forall i j k wj,
    tiles st i ws = true -> (j < k)%nat -> ws !! j = Some wj ->
    span (take j ws) + payload_of wj + 8 <= span (take k ws).
Proof.
  induction ws as [| w rest IH]; intros i j k wj Ht Hjk Hj; [done |].
  destruct k as [| k]; [lia |].
  change (take (S k) (w :: rest)) with (w :: take k rest). rewrite span_cons.
  apply tiles_cons in Ht as (_ & _ & _ & _ & Hp & Ht).
  destruct j as [| j].
  - injection Hj as ->. pose proof (span_take_nonneg st rest _ k Ht).
    cbn [take span fold_right]. lia.
  - change (take (S j) (w :: rest)) with (w :: take j rest). rewrite span_cons.
    cbn [lookup list_lookup] in Hj.
    specialize (IH _ j k wj Ht ltac:(lia) Hj). lia.
Qed.

(** A change of memory confined to the payload of one block leaves the
    region tiled. *)
Lemma tiles_hole st st' ws :
  placed st = true ->
  heapStart st' = heapStart st -> heapSize st' = heapSize st ->
  forall n i a,
    0 <= i -> tiles st i ws = true -> ws !! n = Some a ->
    (forall x, x < heapStart st + (i + span (take n ws)) + 8
               \/ heapStart st + (i + span (take n ws)) + 8 + payload_of a <= x ->
               load (mem st') x = load (mem st) x) ->
    tiles st' i ws = true.
Proof.
  intros Hplaced Hhs Hsz.
  pose proof Hplaced as (Hpos & Hend & _ & _)%placed_spec.
  induction ws as [| w rest IH]; intros n i a Hi Ht Hn Hframe; [done |].
  pose proof (span_take_nonneg st _ i n Ht) as Hnn.
  apply tiles_cons in Ht as (Hlt & Hw & Hle & Hwr & Hp & Ht).
  destruct n as [| n].
  - injection Hn as ->. cbn [take span fold_right] in Hframe.
    apply tiles_cons_intro; rewrite ?Hhs, ?Hsz; try done.
    + rewrite Hframe by word_lia. done.
    + apply (tiles_frame st); try done; [lia |].
      intros x Hx. apply Hframe. lia.
  - cbn [lookup list_lookup] in Hn.
    change (take (S n) (w :: rest)) with (w :: take n rest) in Hframe, Hnn.
    rewrite span_cons in Hframe, Hnn.
    pose proof (span_take_nonneg st rest _ n Ht) as Hnn'.
    apply tiles_cons_intro; rewrite ?Hhs, ?Hsz; try done.
    + rewrite Hframe by word_lia. done.
    + apply (IH n _ a); [lia | done | done |].
      intros x Hx. apply Hframe. lia.
Qed.

Section Move.

Variable MAX_REQUEST_SIZE : Z.

(** The loop of [myrealloc] when it moves the block: the release of the old
    block, the placement, the copy. *)
Lemma realloc_loop_move fuel old_ptr new_size rs st header :
  forall i,
    first_fit MAX_REQUEST_SIZE fuel rs i st = Some (Some header) ->
    Z.lxor (load (mem st) (padd old_ptr (-8))) 1 <= new_size ->
    old_ptr <> NULL -> header <> padd old_ptr (-8) ->
    realloc_loop MAX_REQUEST_SIZE fuel old_ptr new_size rs i st
    = let '(ptr, st3) := place header rs (myfree old_ptr st) in
      Some (ptr, with_mem st3 (memmove (mem st3) ptr old_ptr
                                 (load (mem st3) (padd old_ptr (-8))))).
Proof.
  intros i Hfit Hsmall Hnn Hne. revert i Hfit.
  induction fuel as [| fuel IH]; intros i Hfit; [done |].
  cbn [first_fit realloc_loop] in *.
  destruct (i <? heapSize st); [| done].
  destruct (_ && _).
  - injection Hfit as Hh. rewrite Hh.
    destruct (Z.gtb_spec (Z.lxor (load (mem st) (padd old_ptr (-8))) 1) new_size);
      [lia |].
    unfold place, myfree.
    destruct (Z.eqb_spec old_ptr NULL) as [| _]; [done |]. cbn [negb].
    cbn [with_mem with_sizeUsed mem sizeUsed heapStart heapSize].
    rewrite (load_store_ne _ _ header) by done.
    destruct (wrap (load (mem st) header - rs) >=? 16); [by destruct (splitFunc _ _ _ _ _) |]. cbn [with_mem with_sizeUsed mem sizeUsed heapStart heapSize]. reflexivity.
  - by apply IH.
Qed.

End Move.

Lemma roundup_low r :
  0 < r <= SIZE_MAX - 7 -> 8 <= roundup r /\ r <= roundup r.
Proof. intros Hr. unfold roundup. rewrite round_expr_low by lia. word_lia. Qed.

Lemma myfree_load ptr st x :
  x <> padd ptr (-8) ->
  load (mem (myfree ptr st)) x = load (mem st) x
  /\ heapStart (myfree ptr st) = heapStart st
  /\ heapSize (myfree ptr st) = heapSize st.
Proof.
  intros Hx. unfold myfree. destruct (negb (ptr =? NULL)); [| done].
  cbn [with_mem with_sizeUsed mem heapStart heapSize].
  by rewrite load_store_ne.
Qed.

(** What a placement in the free block [wj] at [header] leaves alone. *)
Lemma place_load_outside header rs st wj x :
  load (mem st) header = wj -> in_range rs -> rs <= wj ->
  0 < header -> header + 8 + wj < modulus ->
  x < header \/ header + 8 + wj <= x ->
  load (mem (place header rs st).2) x = load (mem st) x.
Proof.
  intros Hw Hrr Hfit Hpos Hend Hx.
  assert (in_range wj) as Hwr by (rewrite <- Hw; apply load_in_range).
  destruct (wrap (load (mem st) header - rs) >=? 16) eqn:Hcond.
  - apply place_load_split; [done | word_lia |].
    rewrite Hw in Hcond. apply Z.geb_le in Hcond. word_lia.
  - apply place_load_nosplit; [done | word_lia].
Qed.

(** The move of [myrealloc]: the request is larger than the payload of the
    old block and some free block can serve it. *)
Lemma myrealloc_moves MAX fuel new_size st ws k w ptr st' :
  heap_ok st ws = true -> ws !! k = Some w -> Z.land w 1 = 1 ->
  0 < new_size <= SIZE_MAX - 7 -> payload_of w < new_size ->
  (length ws < fuel)%nat ->
  myrealloc MAX fuel (payload_address st ws k) new_size st = Some (ptr, st') ->
  ptr <> NULL ->
  heap_ok st' (allocate_in (roundup new_size) (<[k := Z.lxor w 1]> ws)) = true
  /\ ptr <> payload_address st ws k
  /\ heapStart st + 8 <= ptr
  /\ ptr + roundup new_size <= heapStart st + heapSize st
  /\ (forall j, 0 <= j < payload_of w / 8 ->
        load (mem st') (ptr + 8 * j)
        = load (mem st) (payload_address st ws k + 8 * j))
  /\ load (mem st') (payload_address st ws k - 8) = Z.lxor w 1.
Proof.
  intros Hok Hk Hflag Hns Hgrow Hfuel Hre Hnn.
  pose proof Hok as (Hplaced & Hbase & Htiles & Hall & Hused)%heap_ok_spec.
  pose proof Hplaced as (Hpos & Hend & Hsz0 & Hur)%placed_spec.
  destruct (roundup_low new_size Hns) as (Hrs8 & Hrle).
  pose proof (roundup_in_range_implicit new_size) as Hrr.
  pose proof (roundup_multiple new_size) as Hrsm.
  pose proof (roundup_even_implicit new_size) as Hrseven.
  set (rs := roundup new_size) in *.
  pose proof (payload_of_allocated _ Hflag) as Hpay.
  destruct (tiles_lookup st ws Hplaced k 0 w ltac:(lia) Htiles Hk)
    as (Hloadk & Hoff & Hkend).
  assert (in_range w) as Hwr by (rewrite <- Hloadk; apply load_in_range).
  pose proof (payload_of_nonneg w Hwr) as Hpw.
  assert (payload_of w mod 8 = 0) as Hpw8.
  { rewrite forallb_forall in Hall. apply Z.eqb_eq, Hall, list_elem_of_In.
    by apply (list_elem_of_lookup_2 _ k). }
  set (old := payload_address st ws k) in *.
  assert (old = heapStart st + span (take k ws) + 8) as Hold by done.
  assert (padd old (-8) = heapStart st + (0 + span (take k ws))) as Hoh
    by (rewrite Hold; word_lia).
  assert (old <> NULL) as Holdnn by (rewrite Hold; unfold NULL; lia).
  (* the tests in front of the loop *)
  unfold myrealloc in Hre.
  destruct (Z.eqb_spec new_size 0) as [| _]; [lia |]. cbn [andb] in Hre.
  fold rs in Hre.
  destruct (Z.gtb_spec rs MAX) as [| Hmax]; [by injection Hre as <- |].
  cbn [orb] in Hre.
  destruct (_ >? _); [by injection Hre as <- |].
  destruct (Z.eqb_spec old NULL) as [| _]; [done |].
  (* the search *)
  pose proof (first_fit_tiles MAX rs st ws Hmax Hplaced fuel 0 ltac:(lia) Htiles Hfuel)
    as Hfit.
  destruct (locate rs (heapStart st) 0 ws) as [header |] eqn:Hloc; cycle 1.
  { rewrite (realloc_loop_no_fit MAX _ _ _ _ _ _ Hfit) in Hre. by injection Hre as <-. }
  (* the release of the old block *)
  destruct (myfree_heap_ok st ws k w Hok Hk Hflag) as (Hok1 & Hused1).
  fold old in Hok1, Hused1.
  set (st1 := myfree old st) in *. set (ws1 := <[k := Z.lxor w 1]> ws) in *.
  pose proof Hok1 as (Hplaced1 & _ & Htiles1 & Hall1 & _)%heap_ok_spec.
  assert (heapStart st1 = heapStart st /\ heapSize st1 = heapSize st) as [Hhs1 Hsz1].
  { unfold st1, myfree. by destruct (negb (old =? NULL)). }
  assert (forall x, x <> padd old (-8) -> load (mem st1) x = load (mem st) x) as Hframe1
    by (intros x Hx; by apply myfree_load).
  assert (k < length ws)%nat as Hklen by (by apply lookup_lt_Some in Hk).
  assert (ws1 !! k = Some (Z.lxor w 1)) as Hk1
    by (by apply list_lookup_insert_eq).
  assert (take k ws1 = take k ws) as Htk1 by (by apply take_insert_ge).
  assert (payload_of (Z.lxor w 1) = payload_of w) as Hpay1.
  { rewrite payload_of_free by (by apply land1_clear). done. }
  assert (locate rs (heapStart st1) 0 ws1 = Some header) as Hloc1.
  { rewrite Hhs1. unfold ws1. rewrite locate_update; [done | done | done | lia]. }
  (* the block that serves the request *)
  destruct (allocate_in_locate rs (heapStart st1) ws1 Hrseven 0 header Hloc1)
    as (n & wj & a & Hn & Hheader & Hflagj & Hfitj & Htaken & Han & Haflag & Hasz).
  rewrite Hhs1 in Hheader.
  assert (n <> k) as Hnk.
  { intros ->. rewrite Hk1 in Hn. injection Hn as <-.
    rewrite <- Hpay in Hfitj. lia. }
  destruct (tiles_lookup st1 ws1 Hplaced1 n 0 wj ltac:(lia) Htiles1 Hn)
    as (Hloadn & Hoffn & Hnend).
  rewrite Hhs1, <- Hheader in Hloadn. rewrite Hsz1 in Hnend.
  pose proof (payload_of_free _ Hflagj) as Hpayj. rewrite Hpayj in Hnend.
  assert (span (take n ws1) + wj + 8 <= span (take k ws)
          \/ span (take k ws) + payload_of w + 8 <= span (take n ws1)) as Hdisj.
  { destruct (decide (n < k)%nat).
    - left. rewrite <- Htk1, <- Hpayj.
      by apply (tiles_blocks_ordered st1 ws1 0 n k wj).
    - right. rewrite <- Htk1, <- Hpay1.
      apply (tiles_blocks_ordered st1 ws1 0 k n (Z.lxor w 1)); [done | lia | done]. }
  assert (header <> padd old (-8)) as Hne by (rewrite Hoh, Hheader; lia).
  rewrite (realloc_loop_move MAX fuel old new_size rs st header 0 Hfit) in Hre;
    [| rewrite Hoh, Hloadk; lia | done | done].
  fold st1 in Hre.
  (* the placement *)
  pose proof (place_heap_ok st1 rs ws1 header Hok1 Hrr Hrsm Hloc1) as Hok3.
  pose proof (place_ptr header rs st1) as Hp.
  pose proof (place_frame header rs st1) as [Hhs3 Hsz3].
  assert (forall x, x < header \/ header + 8 + wj <= x ->
                    load (mem (place header rs st1).2) x = load (mem st1) x) as Hframe3.
  { intros x Hx. apply (place_load_outside header rs st1 wj); try done; lia. }
  destruct (place header rs st1) as [ptr3 st3] eqn:Hplace.
  cbn [fst snd] in *. injection Hre as <- <-.
  rewrite Hhs1 in Hhs3. rewrite Hsz1 in Hsz3.
  pose proof Hok3 as (Hplaced3 & Hbase3 & Htiles3 & Hall3 & Hused3)%heap_ok_spec.
  assert (ptr3 = header + 8) as Hptr by (rewrite Hp; word_lia).
  assert (load (mem st3) (padd old (-8)) = payload_of w) as Hbytes.
  { rewrite Hframe3 by (rewrite Hoh, Hheader; lia).
    rewrite Hoh, <- Htk1, <- Hhs1.
    destruct (tiles_lookup st1 ws1 Hplaced1 k 0 _ ltac:(lia) Htiles1 Hk1) as (-> & _).
    done. }
  rewrite Hbytes.
  (* the copy *)
  set (st4 := with_mem st3 (memmove (mem st3) ptr3 old (payload_of w))).
  assert (forall x, x < header + 8 \/ header + 8 + payload_of a <= x ->
                    load (mem st4) x = load (mem st3) x) as Hframe4.
  { intros x Hx. unfold st4. cbn [with_mem mem].
    apply memmove_outside; [done |]. intros j Hj. rewrite Hptr. word_lia. }
  assert (tiles st4 0 (allocate_in rs ws1) = true) as Htiles4.
  { apply (tiles_hole st3 st4 _ Hplaced3 eq_refl eq_refl n 0 a); try done.
    rewrite Htaken, Hhs3. intros x Hx. apply Hframe4. rewrite Hheader. lia. }
  split; [| split; [| split; [| split; [| split]]]].
  - apply heap_ok_spec. repeat split; try done.
  - rewrite Hptr, Hheader, Hold. lia.
  - rewrite Hptr, Hheader. lia.
  - rewrite Hptr, Hheader. lia.
  - intros j Hj. unfold st4. cbn [with_mem mem].
    replace (ptr3 + 8 * j) with (padd ptr3 (8 * j)) by (rewrite Hptr; word_lia).
    rewrite memmove_inside by (done || word_lia).
    replace (padd old (8 * j)) with (old + 8 * j) by (rewrite Hold; word_lia).
    rewrite Hframe3 by (rewrite Hold, Hheader; word_lia).
    apply Hframe1. rewrite Hoh, Hold. word_lia.
  - replace (old - 8) with (padd old (-8)) by (rewrite Hold; word_lia).
    rewrite Hframe4 by (rewrite Hoh, Hheader; lia).
    by rewrite Hbytes.
Qed.

(** *** Correct use *)

(** A write of the client into the payload of a block. *)
Lemma store_heap_ok st ws k w j v :
  heap_ok st ws = true -> ws !! k = Some w -> 0 <= j -> 8 * j < payload_of w ->
  heap_ok (with_mem st (store (mem st) (payload_address st ws k + 8 * j) v)) ws = true.
Proof.
  intros (Hplaced & Hbase & Htiles & Hall & Hused)%heap_ok_spec Hk Hj Hin.
  apply heap_ok_spec. repeat split; try done.
  apply (tiles_hole st (with_mem st _) ws Hplaced eq_refl eq_refl k 0 w); try done.
  intros x Hx. cbn [with_mem mem]. apply load_store_ne.
  unfold payload_address. lia.
Qed.

Lemma served_heap_ok MAX st ws : served MAX st ws -> heap_ok st ws = true.
Proof.
  induction 1 as [hs sz st Hpos Hal Hsz Hszal Hend
                 | fuel r st ws ptr st' _ IH Hm Hnn
                 | st ws k w _ IH Hk Hflag
                 | fuel new_size st ws k w ptr st' _ IH Hk Hflag Hns Hgrow Hre Hnn
                 | st ws k w j v _ IH Hk Hflag Hj Hin].
  - by apply myinit_heap_ok.
  - apply (mymalloc_more_fuel_implicit MAX (S (length ws))) in Hm.
    destruct (mymalloc_heap_ok MAX (fuel + S (length ws)) r st ws IH ltac:(lia))
      as (ptr0 & st0 & Hm0 & _ & Hserved).
    rewrite Hm in Hm0. injection Hm0 as <- <-. by apply Hserved.
  - by apply myfree_heap_ok.
  - apply (myrealloc_more_fuel_implicit MAX (S (length ws))) in Hre.
    by apply (myrealloc_moves MAX (fuel + S (length ws)) new_size st ws k w ptr st'
                IH Hk Hflag Hns Hgrow ltac:(lia) Hre Hnn).
  - by apply (store_heap_ok st ws k w).
Qed.

(** The validator accepts every state that correct use can produce. *)
Lemma served_validate_heap MAX fuel st ws :
  served MAX st ws -> (length ws < fuel)%nat -> validate_heap fuel st = Some true.
Proof.
  intros (Hplaced & _ & Htiles & _ & Hused)%served_heap_ok%heap_ok_spec Hfuel.
  rewrite (validate_heap_tiles fuel st ws) by done.
  f_equal. by apply Z.eqb_eq.
Qed.

(** *** First fit *)

Lemma locate_first rs base ws :
  forall i header,
    locate rs base i ws = Some header ->
    exists n w,
      ws !! n = Some w /\ fits rs w = true
      /\ header = base + (i + span (take n ws))
      /\ forall m x, (m < n)%nat -> ws !! m = Some x -> fits rs x = false.
Proof.
  induction ws as [| w0 rest IH]; intros i header; [done |].
  cbn [locate]. destruct (fits rs w0) eqn:Hfit.
  - intros [= <-]. exists 0%nat, w0. repeat split; try done; [cbn; lia | lia].
  - intros Hloc. destruct (IH _ _ Hloc) as (n & w & Hn & Hw & -> & Hmin).
    exists (S n), w. repeat split; try done.
    + change (take (S n) (w0 :: rest)) with (w0 :: take n rest).
      rewrite span_cons. lia.
    + intros [| m] x Hm Hx; [by injection Hx as <- | apply (Hmin m); [lia | done]].
Qed.

(** [mymalloc] hands out the first block, in address order, that is free
    and large enough, and writes inside that block only. *)
Lemma mymalloc_first_fit MAX fuel r st ws ptr st' :
  heap_ok st ws = true -> (length ws < fuel)%nat ->
  mymalloc MAX fuel r st = Some (ptr, st') -> ptr <> NULL ->
  exists n w,
    ws !! n = Some w /\ Z.land w 1 = 0 /\ roundup r <= w
    /\ ptr = payload_address st ws n
    /\ (forall m x, (m < n)%nat -> ws !! m = Some x -> fits (roundup r) x = false)
    /\ (forall a, a < ptr - 8 \/ ptr + w <= a ->
          load (mem st') a = load (mem st) a).
Proof.
  intros (Hplaced & Hbase & Htiles & Hall & Hused)%heap_ok_spec Hfuel Hm Hptr.
  pose proof Hm as Hcases.
  apply mymalloc_cases_implicit in Hcases as [[-> _] | (header & Hfit & Hplace)]; [done |].
  assert (roundup r <= MAX) as Hmax.
  { unfold mymalloc in Hm. destruct (r =? 0); [by injection Hm as <- |].
    destruct (Z.gtb_spec (roundup r) MAX); [| done].
    cbn in Hm. by injection Hm as <-. }
  rewrite (first_fit_tiles MAX _ st ws) in Hfit by (done || lia).
  injection Hfit as Hloc.
  destruct (locate_first _ _ _ _ _ Hloc) as (n & w & Hn & Hw & Hheader & Hmin).
  unfold fits in Hw. apply andb_prop in Hw as [Hflag Hsz].
  apply Z.eqb_eq in Hflag. apply Z.leb_le in Hsz.
  pose proof Hplaced as (Hpos & Hend & Hsz0 & _)%placed_spec.
  destruct (tiles_lookup st ws Hplaced n 0 w ltac:(lia) Htiles Hn)
    as (Hloadn & Hoffn & Hnend).
  rewrite <- Hheader in Hloadn. rewrite (payload_of_free _ Hflag) in Hnend.
  pose proof (place_ptr header (roundup r) st) as Hp.
  pose proof (place_load_outside header (roundup r) st w) as Hframe.
  rewrite Hplace in Hp, Hframe. cbn [fst snd] in Hp, Hframe.
  pose proof (roundup_in_range_implicit r) as Hrr.
  assert (0 <= w) as Hw0 by (destruct Hrr; lia).
  assert (ptr = header + 8) as Hptr8 by (rewrite Hp, Hheader; word_lia).
  exists n, w. repeat split; try done.
  - rewrite Hptr8, Hheader. unfold payload_address. lia.
  - intros a Ha. apply Hframe; try done; lia.
Qed.


(** [myfree] writes to the header of the block and nowhere else. *)
Lemma myfree_frame st ws k w :
  heap_ok st ws = true -> ws !! k = Some w ->
  forall a,
    a <> payload_address st ws k - 8 ->
    load (mem (myfree (payload_address st ws k) st)) a = load (mem st) a.
Proof.
  intros (Hplaced & _ & Htiles & _)%heap_ok_spec Hk a Ha.
  apply myfree_load.
  destruct (tiles_lookup st ws Hplaced k 0 w ltac:(lia) Htiles Hk)
    as (Hl & Hoff & Hkend).
  apply placed_spec in Hplaced as (Hpos & Hend & _).
  assert (0 <= payload_of w) as Hpw
    by (apply payload_of_nonneg; rewrite <- Hl; apply load_in_range).
  unfold payload_address in *. word_lia.
Qed.

(** *** The first request after [myinit] *)

Lemma fresh_capacity MAX fuel heap_start heap_size st r :
  0 < heap_start -> heap_start mod 8 = 0 ->
  8 <= heap_size -> heap_size mod 8 = 0 ->
  heap_start + heap_size < modulus ->
  0 < r <= SIZE_MAX - 7 -> (2 <= fuel)%nat ->
  exists ptr st',
    mymalloc MAX fuel r (myinit heap_start heap_size st).2 = Some (ptr, st')
    /\ (ptr <> NULL <-> roundup r <= MAX /\ roundup r <= heap_size - 8)
    /\ (ptr <> NULL -> ptr = heap_start + 8).
Proof.
  intros Hpos Hal Hsz Hszal Hend Hr Hfuel.
  destruct (myinit_heap_ok heap_start heap_size st Hpos Hal Hsz Hszal Hend)
    as (_ & Hok).
  set (st0 := (myinit heap_start heap_size st).2) in *.
  pose proof Hok as (Hplaced & _ & Htiles & _ & Hused)%heap_ok_spec.
  assert (heapStart st0 = heap_start /\ heapSize st0 = heap_size) as [Hhs Hhsz].
  { unfold st0, myinit.
    destruct (Z.eqb_spec heap_start NULL) as [Hn |]; [unfold NULL in Hn; lia | done]. }
  assert (Z.land (heap_size - 8) 1 = 0) as Hflag by (rewrite land1_mod2; word_lia).
  assert (used_bytes [heap_size - 8] = 0) as Hzero
    by (cbn [used_bytes fold_right]; by rewrite Hflag).
  destruct (roundup_low r Hr) as (Hrs8 & Hrle).
  pose proof (roundup_in_range_implicit r) as Hrr.
  destruct (mymalloc_null_iff_implicit MAX fuel r st0 [heap_size - 8] Hplaced Htiles
              ltac:(cbn; lia)) as (ptr & st' & Hm & Hnull & _).
  exists ptr, st'. split; [done |]. split.
  - rewrite Hnull, Hused, Hzero, Hhsz, Z.add_0_r.
    replace (wrap (roundup r)) with (roundup r) by word_lia.
    cbn [forallb]. unfold fits. rewrite Hflag. change (0 =? 0) with true.
    cbn [andb]. rewrite andb_true_r, negb_true_iff, Z.leb_gt. lia.
  - intros Hnn.
    destruct (mymalloc_first_fit MAX fuel r st0 [heap_size - 8] ptr st' Hok
                ltac:(cbn; lia) Hm Hnn) as (n & w & Hn & _ & _ & -> & _).
    destruct n as [| n]; [| by destruct n].
    unfold payload_address. rewrite Hhs. cbn. lia.
Qed.

(** *** Release, then allocation *)

(** A released block can be allocated again: right after [myfree] of a
    block, [mymalloc] of a request that fits that block returns a block at
    or in front of it. *)
Lemma myfree_mymalloc MAX fuel r st ws k w :
  heap_ok st ws = true -> ws !! k = Some w -> Z.land w 1 = 1 ->
  0 < r -> roundup r <= payload_of w -> roundup r <= MAX ->
  (length ws < fuel)%nat ->
  exists ptr st',
    mymalloc MAX fuel r (myfree (payload_address st ws k) st) = Some (ptr, st')
    /\ ptr <> NULL /\ ptr <= payload_address st ws k.
Proof.
  intros Hok Hk Hflag Hr Hfit Hmax Hfuel.
  destruct (myfree_heap_ok st ws k w Hok Hk Hflag) as (Hok1 & Hused1).
  pose proof Hok as (Hplaced & _ & Htiles & _ & Hused)%heap_ok_spec.
  set (old := payload_address st ws k) in *.
  set (st1 := myfree old st) in *. set (ws1 := <[k := Z.lxor w 1]> ws) in *.
  pose proof Hok1 as (Hplaced1 & _ & Htiles1 & _ & _)%heap_ok_spec.
  pose proof Hplaced as (Hpos & Hend & Hsz0 & Hur)%placed_spec.
  assert (heapStart st1 = heapStart st /\ heapSize st1 = heapSize st) as [Hhs1 Hsz1].
  { unfold st1, myfree. by destruct (negb (old =? NULL)). }
  assert (k < length ws)%nat as Hklen by (by apply lookup_lt_Some in Hk).
  assert (ws1 !! k = Some (Z.lxor w 1)) as Hk1 by (by apply list_lookup_insert_eq).
  pose proof (payload_of_allocated _ Hflag) as Hpay.
  assert (fits (roundup r) (Z.lxor w 1) = true) as Hfits.
  { unfold fits. rewrite (land1_clear _ Hflag). change (0 =? 0) with true.
    cbn [andb]. apply Z.leb_le. lia. }
  pose proof (roundup_in_range_implicit r) as Hrr.
  pose proof (tiles_nonneg st ws 0 Htiles) as Hbound.
  pose proof (tiles_span st ws 0 Htiles) as Hspan.
  destruct (tiles_lookup st ws Hplaced k 0 w ltac:(lia) Htiles Hk)
    as (Hloadk & Hoff & Hkend).
  assert (in_range w) as Hwr by (rewrite <- Hloadk; apply load_in_range).
  pose proof (payload_of_nonneg w Hwr) as Hpw.
  destruct (mymalloc_null_iff_implicit MAX fuel r st1 ws1 Hplaced1 Htiles1)
    as (ptr & st' & Hm & Hnull & _).
  { unfold ws1. by rewrite length_insert. }
  exists ptr, st'. split; [done |].
  assert (ptr <> NULL) as Hnn.
  { intros Heq. apply Hnull in Heq as [Hz | [Hbig | [Hroom | Hnone]]].
    - lia.
    - lia.
    - pose proof Hplaced1 as (_ & _ & _ & Hur1)%placed_spec.
      rewrite Hused1, Hused in Hur1.
      rewrite Hused1, Hused, Hsz1 in Hroom. word_lia.
    - rewrite forallb_forall in Hnone.
      specialize (Hnone (Z.lxor w 1)). rewrite Hfits in Hnone.
      assert (In (Z.lxor w 1) ws1) as Hin
        by (apply list_elem_of_In; by apply (list_elem_of_lookup_2 _ k)).
      by specialize (Hnone Hin). }
  split; [done |].
  destruct (mymalloc_first_fit MAX fuel r st1 ws1 ptr st' Hok1
              ltac:(unfold ws1; by rewrite length_insert) Hm Hnn)
    as (n & wn & Hn & Hnflag & Hnsz & -> & Hmin & _).
  assert (n <= k)%nat as Hnk.
  { destruct (decide (n <= k)%nat) as [| Hgt]; [done |].
    rewrite (Hmin k (Z.lxor w 1)) in Hfits; [done | lia | done]. }
  unfold old, payload_address. rewrite Hhs1.
  assert (take k ws1 = take k ws) as Htk1 by (by apply take_insert_ge).
  destruct (decide (n = k)) as [-> | Hne]; [rewrite Htk1; lia |].
  pose proof (tiles_blocks_ordered st1 ws1 0 n k wn Htiles1 ltac:(lia) Hn) as Hord.
  rewrite Htk1 in Hord. rewrite (payload_of_free _ Hnflag) in Hord.
  destruct Hrr. lia.
Qed.

(** *** Requests that round to zero *)

(** The blocks after the first block that fits has served a request. *)
Lemma allocate_in_first rs :
  forall ws n w,
    ws !! n = Some w -> fits rs w = true ->
    (forall m x, (m < n)%nat -> ws !! m = Some x -> fits rs x = false) ->
    allocate_in rs ws
    = take n ws
      ++ (if w - rs >=? 16 then [Z.lxor rs 1; w - (rs + 8)] else [Z.lxor w 1])
      ++ drop (S n) ws.
Proof.
  induction ws as [| w0 rest IH]; intros n w Hn Hw Hmin; [done |].
  destruct n as [| n].
  - injection Hn as ->. cbn [allocate_in take drop]. by rewrite Hw.
  - cbn [lookup list_lookup] in Hn. cbn [allocate_in].
    rewrite (Hmin 0%nat w0) by (lia || done).
    cbn [take drop app]. f_equal. apply IH; [done | done |].
    intros m x Hm Hx. apply (Hmin (S m)); [lia | done].
Qed.

(** [mymalloc] of a request in the top seven values of [size_t]: the first
    free block is handed out, with nothing of it left to the caller when it
    can be split. *)
Lemma mymalloc_top_request_first_free MAX fuel r st ws :
  SIZE_MAX - 7 < r <= SIZE_MAX -> 0 <= MAX ->
  placed st = true -> sizeUsed st <= heapSize st ->
  tiles st 0 ws = true ->
  existsb (fun w => Z.land w 1 =? 0) ws = true ->
  (length ws < fuel)%nat ->
  exists n w ptr st',
    ws !! n = Some w /\ Z.land w 1 = 0
    /\ (forall m x, (m < n)%nat -> ws !! m = Some x -> Z.land x 1 = 1)
    /\ mymalloc MAX fuel r st = Some (ptr, st') /\ ptr <> NULL
    /\ ptr = payload_address st ws n
    /\ (if w >=? 16
        then load (mem st') (ptr - 8) = 1 /\ load (mem st') ptr = w - 8
             /\ tiles st' 0 (take n ws ++ [1; w - 8] ++ drop (S n) ws) = true
        else load (mem st') (ptr - 8) = Z.lxor w 1
             /\ tiles st' 0 (take n ws ++ [Z.lxor w 1] ++ drop (S n) ws) = true)
    /\ sizeUsed st' = wrap (sizeUsed st + (8 + (if w >=? 16 then 0 else w)))
    /\ (forall a, a < ptr - 8 \/ ptr + w <= a -> load (mem st') a = load (mem st) a).
Proof.
  intros Hr Hmax Hplaced Hroom Htiles Hfree Hfuel.
  pose proof (roundup_top_implicit r Hr) as Hround.
  destruct (mymalloc_top_request_implicit MAX fuel r st ws Hr Hmax Hplaced Hroom
              Htiles Hfree Hfuel) as (ptr & st' & Hm & Hnn & _).
  pose proof Hm as Hcases.
  apply mymalloc_cases_implicit in Hcases as [[-> _] | (header & Hfit & Hplace)]; [done |].
  rewrite Hround in Hfit, Hplace.
  rewrite (first_fit_tiles MAX _ st ws) in Hfit by (done || lia).
  injection Hfit as Hloc.
  destruct (locate_first _ _ _ _ _ Hloc) as (n & w & Hn & Hw & Hheader & Hmin).
  pose proof Hw as Hw'. unfold fits in Hw'. apply andb_prop in Hw' as [Hflag Hsz].
  apply Z.eqb_eq in Hflag. apply Z.leb_le in Hsz.
  pose proof Hplaced as (Hpos & Hend & Hsz0 & Hur)%placed_spec.
  destruct (tiles_lookup st ws Hplaced n 0 w ltac:(lia) Htiles Hn)
    as (Hloadn & Hoffn & Hnend).
  rewrite <- Hheader in Hloadn. rewrite (payload_of_free _ Hflag) in Hnend.
  assert (in_range w) as Hwr by (rewrite <- Hloadn; apply load_in_range).
  assert (in_range 0) as H0 by (unfold in_range, modulus; lia).
  assert (Z.land 0 1 = 0) as Heven0 by done.
  pose proof (place_ptr header 0 st) as Hp.
  pose proof (place_header header 0 st H0) as Hhdr.
  pose proof (place_used header 0 st) as Hu.
  pose proof (place_load_remainder header 0 st) as Hrem.
  pose proof (fun x => place_load_outside header 0 st w x Hloadn H0 Hsz) as Hframe.
  pose proof (place_tiles st 0 Hplaced H0 Heven0 ws 0 header ltac:(lia) Htiles Hloc)
    as Htiles'.
  rewrite Hplace in Hp, Hhdr, Hu, Hrem, Hframe, Htiles'.
  cbn [fst snd] in Hp, Hhdr, Hu, Hrem, Hframe, Htiles'.
  rewrite Hloadn in Hhdr, Hu, Hrem.
  assert (ptr = header + 8) as Hptr by (rewrite Hp, Hheader; word_lia).
  rewrite (allocate_in_first 0 ws n w Hn Hw Hmin) in Htiles'.
  unfold placed_payload in Hhdr, Hu.
  replace (wrap (w - 0)) with w in Hhdr, Hu, Hrem by word_lia.
  replace (w - 0) with w in Htiles' by lia.
  exists n, w, ptr, st'.
  split; [done |]. split; [done |]. split.
  { intros m x Hm' Hx. specialize (Hmin m x Hm' Hx). unfold fits in Hmin.
    assert (in_range x) as Hxr.
    { apply (tiles_in_range st ws 0); [done |].
      apply list_elem_of_In. by apply (list_elem_of_lookup_2 _ m). }
    destruct (land1_cases x) as [Hx0 | Hx1]; [| done].
    rewrite Hx0 in Hmin. change (0 =? 0) with true in Hmin. cbn [andb] in Hmin.
    apply Z.leb_gt in Hmin. destruct Hxr. lia. }
  split; [done |]. split; [done |]. split.
  { rewrite Hptr, Hheader. unfold payload_address. lia. }
  split; [| split].
  - replace (ptr - 8) with header by lia.
    destruct (Z.geb_spec w 16) as [Hbig | Hsmall].
    + split; [by rewrite Hhdr |]. split; [| exact Htiles'].
      replace ptr with (padd header (wrap (8 + 0))) by (rewrite Hptr, Hheader; word_lia).
      rewrite Hrem; [word_lia | done | rewrite Hheader; word_lia].
    + split; [by rewrite Hhdr | exact Htiles'].
  - rewrite Hu. f_equal. f_equal.
    destruct (w >=? 16); word_lia.
  - intros a Ha. apply Hframe; lia.
Qed.

End ImplicitHeap.

(** ** explicit.c: the shape of the region and of the free list *)

Module ExplicitHeap.

Import Explicit ExplicitFacts MemmoveFacts.

Lemma payload_of_free_e w : Z.land w 1 = 0 -> payload_of w = w.
Proof. intros Hw. unfold payload_of. by rewrite Hw. Qed.

Lemma payload_of_allocated_e w : Z.land w 1 = 1 -> payload_of w = Z.lxor w 1.
Proof. intros Hw. unfold payload_of. by rewrite Hw. Qed.

Lemma payload_of_set_e w : Z.land w 1 = 0 -> payload_of (Z.lxor w 1) = w.
Proof.
  intros Hw. rewrite payload_of_allocated_e by (by apply land1_lxor1).
  apply lxor1_twice.
Qed.

Lemma land1_clear_e w : Z.land w 1 = 1 -> Z.land (Z.lxor w 1) 1 = 0.
Proof.
  intros Hw. rewrite (lxor1_allocated _ Hw). rewrite land1_mod2 in *. word_lia.
Qed.

Lemma payload_of_nonneg_e w : in_range w -> 0 <= payload_of w.
Proof.
  intros Hw. unfold payload_of. destruct (Z.land w 1 =? 1) eqn:Hflag; [| word_lia].
  apply Z.eqb_eq in Hflag. rewrite (lxor1_allocated _ Hflag).
  rewrite land1_mod2 in Hflag. word_lia.
Qed.

Lemma span_cons_e w rest : span (w :: rest) = payload_of w + 16 + span rest.
Proof. reflexivity. Qed.

Lemma span_app_e pre post : span (pre ++ post) = span pre + span post.
Proof.
  induction pre as [| w pre IH]; [reflexivity |].
  cbn [app]. rewrite !span_cons_e, IH. lia.
Qed.

Lemma placed_spec_e st :
  placed st = true ->
  0 < heapStart st /\ heapStart st + heapSize st < modulus /\ 0 <= heapSize st.
Proof.
  unfold placed. intros Hp. repeat (apply andb_prop in Hp as [Hp ?]). lia.
Qed.

(** What [shaped] says of a last block and of a block that is not the last. *)
Lemma shaped_last st i w :
  shaped st i [w] = true <->
  i < heapSize st /\ load (mem st) (padd (heapStart st) i) = w
  /\ i + payload_of w + 16 = heapSize st
  /\ (if Z.land w 1 =? 0
      then freeEnd st = heapStart st + i
           /\ load (mem st) (padd (heapStart st) (i + 8)) = NULL
           /\ load (mem st) (padd (heapStart st) (i + 16)) = NULL
      else freeEnd st = NULL).
Proof.
  cbn [shaped]. destruct (Z.land w 1 =? 0);
    rewrite !andb_true_iff, ?Z.ltb_lt, !Z.eqb_eq; tauto.
Qed.

Lemma shaped_cons st i w w' rest :
  shaped st i (w :: w' :: rest) = true <->
  i < heapSize st /\ load (mem st) (padd (heapStart st) i) = w
  /\ Z.land w 1 = 1 /\ i + payload_of w + 16 <= heapSize st
  /\ shaped st (i + payload_of w + 16) (w' :: rest) = true.
Proof.
  cbn [shaped]. rewrite !andb_true_iff, Z.ltb_lt, !Z.eqb_eq, Z.leb_le. tauto.
Qed.

Lemma shaped_head st i w rest :
  shaped st i (w :: rest) = true ->
  i < heapSize st /\ load (mem st) (padd (heapStart st) i) = w
  /\ in_range w /\ 0 <= payload_of w /\ i + payload_of w + 16 <= heapSize st.
Proof.
  intros Hs.
  assert (i < heapSize st /\ load (mem st) (padd (heapStart st) i) = w
          /\ i + payload_of w + 16 <= heapSize st) as (H1 & H2 & H3).
  { destruct rest as [| w' rest].
    - apply shaped_last in Hs as (? & ? & ? & _). repeat split; try done. lia.
    - apply shaped_cons in Hs as (? & ? & _ & ? & _). by repeat split. }
  assert (in_range w) as Hr by (rewrite <- H2; apply load_in_range).
  pose proof (payload_of_nonneg_e w Hr).
  split; [done |]. split; [done |]. split; [exact Hr |]. by split.
Qed.

Lemma shaped_span st ws :
  forall i, shaped st i ws = true -> i + span ws = heapSize st.
Proof.
  induction ws as [| w rest IH]; intros i Hs; [done |].
  destruct rest as [| w' rest].
  - apply shaped_last in Hs as (_ & _ & Hend & _). cbn. lia.
  - apply shaped_cons in Hs as (_ & _ & _ & _ & Hs). apply IH in Hs.
    rewrite span_cons_e. lia.
Qed.

Lemma shaped_span_nonneg st ws :
  forall i, shaped st i ws = true -> 0 < span ws.
Proof.
  induction ws as [| w rest IH]; intros i Hs; [done |].
  pose proof (shaped_head _ _ _ _ Hs) as (_ & _ & _ & Hp & _).
  destruct rest as [| w' rest]; [cbn; lia |].
  apply shaped_cons in Hs as (_ & _ & _ & _ & Hs). apply IH in Hs.
  rewrite span_cons_e. lia.
Qed.

Lemma shaped_prefix_span st pre post :
  forall i, shaped st i (pre ++ post) = true -> post <> [] -> 0 <= span pre.
Proof.
  induction pre as [| w pre IH]; intros i Hs Hpost; [cbn; lia |].
  cbn [app] in Hs. pose proof (shaped_head _ _ _ _ Hs) as (_ & _ & _ & Hp & _).
  rewrite span_cons_e.
  destruct (pre ++ post) as [| w1 rest1] eqn:Hpp; [by destruct pre, post |].
  apply shaped_cons in Hs as (_ & _ & _ & _ & Hs).
  specialize (IH _ Hs Hpost). lia.
Qed.

(** The blocks in front of a suffix of the region do not feel what happens
    to the suffix. *)
Lemma shaped_splice st st' post post' :
  placed st = true ->
  heapStart st' = heapStart st -> heapSize st' = heapSize st ->
  post <> [] -> post' <> [] ->
  forall pre i,
    0 <= i ->
    (forall a, a < heapStart st + (i + span pre) -> load (mem st') a = load (mem st) a) ->
    shaped st i (pre ++ post) = true ->
    shaped st' (i + span pre) post' = true ->
    shaped st' i (pre ++ post') = true.
Proof.
  intros (Hpos & Hend & _)%placed_spec_e Hhs Hsz Hpost Hpost'.
  induction pre as [| w pre IH]; intros i Hi Hframe Hs Hs'.
  - cbn in *. by rewrite Z.add_0_r in Hs'.
  - cbn [app] in *. rewrite span_cons_e in *.
    pose proof (shaped_head _ _ _ _ Hs) as (Hlt & Hw & Hr & Hp & Hle).
    destruct (pre ++ post) as [| w1 rest1] eqn:Hpp;
      [by destruct pre, post |].
    destruct (pre ++ post') as [| w2 rest2] eqn:Hpp';
      [by destruct pre, post' |].
    apply shaped_cons in Hs as (_ & _ & Hflag & _ & Hs).
    assert (0 <= span pre) as Hsp
      by (apply (shaped_prefix_span st pre post (i + payload_of w + 16));
          [by rewrite Hpp | done]).
    specialize (IH (i + payload_of w + 16)).
    apply shaped_cons. rewrite Hhs, Hsz.
    assert (padd (heapStart st) i = heapStart st + i) as Hpadd by word_lia.
    repeat split; try done.
    + rewrite Hpadd, Hframe by lia. by rewrite <- Hpadd.
    + apply IH; [lia | | done |].
      * intros a Ha. apply Hframe. lia.
      * by replace (i + payload_of w + 16 + span pre)
          with (i + (payload_of w + 16 + span pre)) by lia.
Qed.

Lemma shaped_suffix st pre post :
  forall i,
    shaped st i (pre ++ post) = true -> post <> [] ->
    shaped st (i + span pre) post = true.
Proof.
  induction pre as [| w pre IH]; intros i Hs Hpost.
  - cbn in *. by rewrite Z.add_0_r.
  - cbn [app] in Hs. rewrite span_cons_e.
    destruct (pre ++ post) as [| w1 rest1] eqn:Hpp; [by destruct pre, post |].
    apply shaped_cons in Hs as (_ & _ & _ & _ & Hs).
    replace (i + (payload_of w + 16 + span pre))
      with (i + payload_of w + 16 + span pre) by lia.
    by apply IH.
Qed.

Lemma shaped_with_counters st u f ws :
  forall i, shaped (with_counters st u f) i ws = shaped st i ws.
Proof.
  induction ws as [| w rest IH]; intros i; [done |].
  cbn [shaped]. destruct rest as [| w' rest]; [done |]. by rewrite IH.
Qed.

Lemma allocate_last_app rs pre w :
  allocate_last rs (pre ++ [w]) = pre ++ allocate_last rs [w].
Proof.
  induction pre as [| w0 pre IH]; [done |].
  cbn [app]. destruct (pre ++ [w]) as [| w1 rest1] eqn:Hpp; [by destruct pre |].
  change (allocate_last rs (w0 :: w1 :: rest1))
    with (w0 :: allocate_last rs (w1 :: rest1)).
  by rewrite IH.
Qed.

Lemma free_in_app pre post :
  free_in (length pre) (pre ++ post) = pre ++ free_in 0 post.
Proof. induction pre as [| w0 pre IH]; [done |]. cbn. by rewrite IH. Qed.

(** The state [take_block] leaves when it takes the one node of the free
    list. *)
Lemma take_block_single c w rs st :
  load_header (mem st) c = {| h := w; prev := NULL; next := NULL |} ->
  Z.land w 1 = 0 -> Z.land rs 1 = 0 ->
  take_block c (load_header (mem st) c) w rs st
  = (padd c 16,
     if wrap (w - rs) >? 24 then
       {| heapStart := heapStart st; heapSize := heapSize st;
          sizeUsed := wrap (sizeUsed st + wrap (16 + rs));
          freeEnd := padd (padd c 16) rs;
          freeSpace := wrap (freeSpace st - wrap (16 + rs));
          mem := store_header
                   (store_header (mem st) (padd (padd c 16) rs)
                      {| h := wrap (w - wrap (rs + 16)); prev := NULL; next := NULL |})
                   c {| h := Z.lxor rs 1; prev := NULL; next := NULL |} |}
     else
       {| heapStart := heapStart st; heapSize := heapSize st;
          sizeUsed := wrap (sizeUsed st + wrap (16 + w));
          freeEnd := NULL;
          freeSpace := wrap (freeSpace st - wrap (16 + w));
          mem := store_header (mem st) c
                   {| h := Z.lxor w 1; prev := NULL; next := NULL |} |}).
Proof.
  intros Hhdr Hw Hrs. unfold take_block, splitFunc, cantSplit. rewrite Hhdr.
  cbn [h prev next]. change (NULL =? NULL) with true. cbn [negb andb].
  destruct (wrap (w - rs) >? 24).
  - cbn [with_mem with_freeEnd with_counters heapStart heapSize sizeUsed freeEnd
           freeSpace mem set_h h prev next].
    by rewrite Hrs.
  - cbn [with_mem with_freeEnd with_counters heapStart heapSize sizeUsed freeEnd
           freeSpace mem set_h h prev next].
    by rewrite Hw.
Qed.

(** Reading a header back, cell by cell. *)
Lemma load_store_header_other m a s b :
  b <> a -> b <> padd a 8 -> b <> padd a 16 ->
  load (store_header m a s) b = load m b.
Proof.
  intros H0 H8 H16. unfold store_header. by rewrite !load_store_ne.
Qed.

Lemma load_store_header_prev m a s :
  load (store_header m a s) (padd a 8) = wrap (prev s).
Proof.
  unfold store_header.
  rewrite load_store_ne by (apply padd_ne2; unfold modulus; lia).
  apply load_store_eq.
Qed.

Lemma load_store_header_next m a s :
  load (store_header m a s) (padd a 16) = wrap (next s).
Proof. unfold store_header. apply load_store_eq. Qed.

(** *** [mymalloc] *)

Lemma shaped_take_block st i w rs :
  placed st = true -> 0 <= i -> shaped st i [w] = true ->
  Z.land w 1 = 0 -> rs <= w -> 8 <= rs -> Z.land rs 1 = 0 ->
  let c := heapStart st + i in
  let st' := (take_block c (load_header (mem st) c) w rs st).2 in
  shaped st' i (allocate_last rs [w]) = true
  /\ heapStart st' = heapStart st /\ heapSize st' = heapSize st
  /\ (forall a, a < c -> load (mem st') a = load (mem st) a).
Proof.
  intros (Hpos & Hend & _)%placed_spec_e Hi Hs Hw Hfit Hrs8 Hrs c st'.
  apply shaped_last in Hs as (Hlt & Hload & Htot & Hlinks).
  rewrite Hw in Hlinks. cbn [Z.eqb] in Hlinks. destruct Hlinks as (Hfe & Hprev & Hnext).
  rewrite (payload_of_free_e _ Hw) in Htot.
  assert (padd (heapStart st) i = c) as Hc by (subst c; word_lia).
  assert (padd (heapStart st) (i + 8) = padd c 8) as Hc8 by (subst c; word_lia).
  assert (padd (heapStart st) (i + 16) = padd c 16) as Hc16 by (subst c; word_lia).
  rewrite Hc in Hload. rewrite Hc8 in Hprev. rewrite Hc16 in Hnext.
  assert (load_header (mem st) c = {| h := w; prev := NULL; next := NULL |}) as Hhdr
    by (unfold load_header; by rewrite Hload, Hprev, Hnext).
  assert (in_range w) as Hwr by (rewrite <- Hload; apply load_in_range).
  assert (wrap (w - rs) = w - rs) as Hwrap by word_lia.
  subst st'. rewrite (take_block_single c w rs st Hhdr Hw Hrs). cbn [snd].
  cbn [allocate_last]. rewrite Hw. cbn [Z.eqb andb].
  assert ((rs <=? w) = true) as -> by (by apply Z.leb_le).
  rewrite Hwrap. destruct (Z.gtb_spec (w - rs) 24) as [Hsplit | Hwhole].
  - set (sa := c + 16 + rs).
    assert (padd (padd c 16) rs = sa) as Hsa by (subst sa c; word_lia).
    assert (padd sa 8 = sa + 8) as Hsa8 by (subst sa c; word_lia).
    assert (padd sa 16 = sa + 16) as Hsa16 by (subst sa c; word_lia).
    assert (padd c 8 = c + 8) as Hp8 by (subst c; word_lia).
    assert (padd c 16 = c + 16) as Hp16 by (subst c; word_lia).
    rewrite Hsa.
    assert (Z.land (w - (rs + 16)) 1 = 0) as Hreven
      by (rewrite land1_mod2 in *; word_lia).
    split; [| split; [done | split; [done |]]].
    + apply shaped_cons. cbn [heapStart heapSize mem freeEnd].
      rewrite (payload_of_set_e _ Hrs), Hc.
      split; [lia |]. split.
      { rewrite load_store_header. cbn [h]. apply wrap_small, lxor1_in_range.
        unfold in_range, modulus in *. lia. }
      split; [by apply land1_lxor1 |]. split; [lia |].
      apply shaped_last. cbn [heapStart heapSize mem freeEnd].
      rewrite Hreven, (payload_of_free_e _ Hreven). cbn [Z.eqb].
      replace (padd (heapStart st) (i + rs + 16)) with sa by (subst sa c; word_lia).
      replace (padd (heapStart st) (i + rs + 16 + 8)) with (padd sa 8)
        by (subst sa c; word_lia).
      replace (padd (heapStart st) (i + rs + 16 + 16)) with (padd sa 16)
        by (subst sa c; word_lia).
      split; [lia |]. split.
      { rewrite load_store_header_other by (rewrite ?Hp8, ?Hp16; subst sa; lia).
        rewrite load_store_header. cbn [h]. word_lia. }
      split; [lia |]. split; [subst sa c; lia |]. split.
      * rewrite load_store_header_other by (rewrite ?Hp8, ?Hp16, Hsa8; subst sa; lia).
        by rewrite load_store_header_prev.
      * rewrite load_store_header_other by (rewrite ?Hp8, ?Hp16, Hsa16; subst sa; lia).
        by rewrite load_store_header_next.
    + intros a Ha. cbn [mem].
      rewrite load_store_header_other by (rewrite ?Hp8, ?Hp16; lia).
      apply load_store_header_other; rewrite ?Hsa8, ?Hsa16; subst sa; lia.
  - assert (padd c 8 = c + 8) as Hp8 by (subst c; word_lia).
    assert (padd c 16 = c + 16) as Hp16 by (subst c; word_lia).
    split; [| split; [done | split; [done |]]].
    + apply shaped_last. cbn [heapStart heapSize mem freeEnd].
      rewrite (payload_of_set_e _ Hw), (land1_lxor1 _ Hw), Hc. cbn [Z.eqb Pos.eqb].
      split; [lia |]. split; [| by split].
      rewrite load_store_header. cbn [h]. by apply wrap_small, lxor1_in_range.
    + intros a Ha. cbn [mem].
      apply load_store_header_other; rewrite ?Hp8, ?Hp16; lia.
Qed.

Lemma sound_block_spec w :
  sound_block w = true <-> payload_of w mod 8 = 0 /\ 8 <= payload_of w.
Proof. unfold sound_block. by rewrite andb_true_iff, Z.eqb_eq, Z.leb_le. Qed.

Lemma allocate_last_sound rs ws :
  8 <= rs -> rs mod 8 = 0 ->
  forallb sound_block ws = true -> forallb sound_block (allocate_last rs ws) = true.
Proof.
  intros Hrs8 Hrs. assert (Z.land rs 1 = 0) as Heven by (rewrite land1_mod2; word_lia).
  induction ws as [| w rest IH]; [done |].
  intros Hall. cbn [forallb] in Hall. apply andb_prop in Hall as [Hw Hall].
  destruct rest as [| w' rest].
  - cbn [allocate_last]. destruct (Z.land w 1 =? 0) eqn:Hflag; cbn [andb];
      [| cbn; by rewrite Hw].
    apply Z.eqb_eq in Hflag.
    destruct (Z.leb_spec rs w) as [Hfit | Hno]; [| cbn; by rewrite Hw].
    apply sound_block_spec in Hw as [Hw8 Hwge]. rewrite (payload_of_free_e _ Hflag) in *.
    destruct (Z.gtb_spec (w - rs) 24) as [Hsplit | Hwhole]; cbn [forallb].
    + assert (Z.land (w - (rs + 16)) 1 = 0) as Hreven
        by (rewrite land1_mod2; word_lia).
      rewrite !andb_true_iff, !sound_block_spec.
      rewrite (payload_of_set_e _ Heven), (payload_of_free_e _ Hreven).
      repeat split; try done; try lia; word_lia.
    + rewrite !andb_true_iff, !sound_block_spec, (payload_of_set_e _ Hflag). by repeat split.
  - change (allocate_last rs (w :: w' :: rest)) with (w :: allocate_last rs (w' :: rest)).
    cbn [forallb]. by rewrite Hw, IH.
Qed.

Section Search.

Variable MAX_REQUEST_SIZE : Z.

(** The search along a free list of at most one node. *)
Lemma first_fit_empty fuel rs space m :
  first_fit MAX_REQUEST_SIZE (S fuel) rs space NULL m = Some None.
Proof. cbn. by destruct (space >? 0). Qed.

Lemma first_fit_single fuel rs space c m :
  c <> NULL -> next (load_header m c) = NULL ->
  first_fit MAX_REQUEST_SIZE (S (S fuel)) rs space c m
  = Some (if (space >? 0)
             && ((Z.land (h (load_header m c)) 1 =? 0)
                 && ((rs <=? MAX_REQUEST_SIZE) && (rs <=? h (load_header m c))))
          then Some c else None).
Proof.
  intros Hc Hnext. cbn [first_fit]. apply Z.eqb_neq in Hc. rewrite Hc, Hnext.
  destruct (space >? 0); [| done]. cbn [andb].
  destruct (_ && _); [done |].
  change (NULL =? NULL) with true. by destruct (_ >? 0).
Qed.

End Search.

Lemma heap_ok_spec_e st ws :
  heap_ok st ws = true <->
  placed st = true /\ heapStart st mod 8 = 0 /\ shaped st 0 ws = true
  /\ forallb sound_block ws = true.
Proof. unfold heap_ok. rewrite !andb_true_iff, Z.eqb_eq. tauto. Qed.

Lemma span_sound ws : forallb sound_block ws = true -> span ws mod 8 = 0.
Proof.
  induction ws as [| w rest IH]; [done |].
  cbn [forallb]. intros [Hw Hall]%andb_prop. apply sound_block_spec in Hw as [Hw _].
  specialize (IH Hall). rewrite span_cons_e. word_lia.
Qed.

(** The last block of a shaped region. *)
Lemma shaped_last_block st ws :
  shaped st 0 ws = true ->
  exists pre w,
    ws = pre ++ [w] /\ shaped st (0 + span pre) [w] = true /\ 0 <= span pre.
Proof.
  intros Hs. destruct ws as [| w0 rest]; [done |].
  destruct (exists_last (l := w0 :: rest) ltac:(done)) as (pre & w & Heq).
  rewrite Heq in Hs. exists pre, w. split; [done |].
  split; [by apply shaped_suffix | by apply (shaped_prefix_span st pre [w] 0)].
Qed.

Lemma roundup_low_e r :
  0 < r <= SIZE_MAX - 7 -> 8 <= roundup r /\ roundup r mod 8 = 0 /\ r <= roundup r.
Proof.
  intros Hr. unfold roundup. rewrite round_expr_low by lia. word_lia.
Qed.

(** [mymalloc] on a well-formed region: it returns; a null result leaves the
    state alone; any other result is the payload address of the last block,
    and the region is well-formed again. *)
Lemma mymalloc_heap_ok_e MAX fuel r st ws :
  heap_ok st ws = true -> 0 <= r <= SIZE_MAX - 7 -> (2 <= fuel)%nat ->
  exists ptr st',
    mymalloc MAX fuel r st = Some (ptr, st')
    /\ (ptr = NULL -> st' = st)
    /\ (ptr <> NULL ->
        heap_ok st' (allocate_last (roundup r) ws) = true
        /\ ptr = payload_address st ws (length ws - 1)
        /\ ptr mod 8 = 0
        /\ ptr + roundup r <= heapStart st + heapSize st
        /\ heapStart st' = heapStart st
        /\ (forall a, a < ptr - 16 -> load (mem st') a = load (mem st) a)
        /\ exists pre w, ws = pre ++ [w] /\ Z.land w 1 = 0 /\ roundup r <= w).
Proof.
  intros (Hplaced & Hbase & Hshape & Hsound)%heap_ok_spec_e Hr Hfuel.
  destruct fuel as [| [| fuel]]; [lia | lia |].
  unfold mymalloc. destruct (Z.eqb_spec r 0) as [-> | Hr0].
  { exists NULL, st. by repeat split. }
  destruct (_ || _).
  { exists NULL, st. by repeat split. }
  destruct (roundup_low_e r ltac:(lia)) as (Hrs8 & Hrsm & Hrle).
  assert (Z.land (roundup r) 1 = 0) as Hrseven by apply roundup_even.
  destruct (shaped_last_block st ws Hshape) as (pre & w & -> & Hlast & Hpre).
  pose proof Hplaced as (Hpos & Hend & Hsz0)%placed_spec_e.
  pose proof Hlast as (Hlt & Hload & Htot & Hlinks)%shaped_last.
  assert (in_range w) as Hwr by (rewrite <- Hload; apply load_in_range).
  pose proof (payload_of_nonneg_e w Hwr) as Hpw.
  set (c := heapStart st + (0 + span pre)) in *.
  assert (padd (heapStart st) (0 + span pre) = c) as Hc by (subst c; word_lia).
  rewrite Hc in Hload.
  rewrite malloc_loop_first_fit_explicit.
  destruct (land1_cases w) as [Hflag | Hflag]; rewrite Hflag in Hlinks;
    cbn [Z.eqb Pos.eqb] in Hlinks.
  - destruct Hlinks as (Hfe & _ & Hnext).
    rewrite (payload_of_free_e _ Hflag) in *.
    assert (padd (heapStart st) (0 + span pre + 16) = padd c 16) as Hc16
      by (subst c; word_lia).
    rewrite Hc16 in Hnext.
    assert (freeEnd st = c) as -> by (subst c; lia).
    rewrite (first_fit_single MAX fuel _ _ c) by (done || (subst c; unfold NULL; lia)).
    change (h (load_header (mem st) c)) with (load (mem st) c). rewrite Hload.
    destruct (_ && _) eqn:Hcond.
    + destruct (take_block _ _ _ _ _) as [ptr st'] eqn:Htake.
      exists ptr, st'. split; [done |].
      apply andb_prop in Hcond as [_ Hcond]. apply andb_prop in Hcond as [_ Hcond].
      apply andb_prop in Hcond as [_ Hfit]. apply Z.leb_le in Hfit.
      pose proof (shaped_take_block st (0 + span pre) w (roundup r) Hplaced
                    ltac:(lia) Hlast Hflag Hfit Hrs8 Hrseven) as Hst.
      cbn zeta in Hst. fold c in Hst.
      change (h (load_header (mem st) c)) with (load (mem st) c) in Htake.
      rewrite Hload in Htake.
      pose proof (take_block_ptr c (load_header (mem st) c) w (roundup r) st) as Hp.
      rewrite Htake in Hst, Hp. cbn [fst snd] in Hst, Hp.
      destruct Hst as (Hs' & Hhs & Hsz & Hframe).
      assert (ptr = c + 16) as Hptr by (rewrite Hp; subst c; word_lia).
      assert (ptr <> NULL) as Hnn by (subst ptr c; unfold NULL; lia).
      split; [done |]. intros _.
      pose proof (span_sound pre) as Hspre.
      pose proof Hsound as Hsound'.
      rewrite forallb_app in Hsound'. apply andb_prop in Hsound' as [Hsound_pre Hsound_w].
      specialize (Hspre Hsound_pre).
      split; [| split; [| split; [| split; [| split; [| split]]]]];
        [| | | | done | intros x Hx; apply Hframe; lia | by exists pre, w].
      * apply heap_ok_spec_e. repeat split.
        -- unfold placed. rewrite Hhs, Hsz. by apply heap_ok_spec_e in Hplaced || done.
        -- by rewrite Hhs.
        -- rewrite allocate_last_app.
           apply (shaped_splice st st' [w]); try done.
           cbn [allocate_last]. by repeat case_match.
        -- by apply allocate_last_sound.
      * unfold payload_address. rewrite length_app. cbn [length].
        replace (length pre + 1 - 1)%nat with (length pre) by lia.
        rewrite take_app_length. subst c. lia.
      * subst ptr c. word_lia.
      * subst ptr c. lia.
    + exists NULL, st. by repeat split.
  - assert (freeEnd st = NULL) as -> by done.
    rewrite first_fit_empty. exists NULL, st. by repeat split.
Qed.

(** [myfree] when the block reaches the end of the region and the free list
    is empty: the block becomes the only node. *)
Lemma myfree_at_end ptr st :
  ptr <> NULL ->
  let header := padd ptr (-16) in
  let payload := Z.lxor (load (mem st) header) 1 in
  ~ padd ptr payload < padd (heapStart st) (heapSize st) ->
  freeEnd st = NULL ->
  myfree ptr st
  = {| heapStart := heapStart st; heapSize := heapSize st;
       sizeUsed := wrap (sizeUsed st - wrap (payload + 16));
       freeEnd := header;
       freeSpace := wrap (freeSpace st + wrap (payload + 16));
       mem := store_header (mem st) header
                {| h := payload; prev := NULL; next := NULL |} |}.
Proof.
  intros Hnn header payload Hend Hfe. unfold myfree.
  destruct (Z.eqb_spec ptr NULL) as [| _]; [done |]. cbn [negb].
  change (h (load_header (mem st) (padd ptr (-16)))) with (load (mem st) header).
  fold header. fold payload.
  cbn [with_counters heapStart heapSize mem freeEnd].
  destruct (Z.ltb_spec (padd ptr payload) (padd (heapStart st) (heapSize st)));
    [done |].
  rewrite Hfe. change (NULL =? NULL) with true. cbn [negb].
  reflexivity.
Qed.

(** [myfree] when the right neighbour is a free node without links: the two
    blocks become one, which is the only node. *)
Lemma myfree_absorbs ptr st w' :
  ptr <> NULL ->
  let header := padd ptr (-16) in
  let payload := Z.lxor (load (mem st) header) 1 in
  padd ptr payload < padd (heapStart st) (heapSize st) ->
  load_header (mem st) (padd ptr payload)
  = {| h := w'; prev := NULL; next := NULL |} ->
  Z.land w' 1 = 0 ->
  myfree ptr st
  = {| heapStart := heapStart st; heapSize := heapSize st;
       sizeUsed := wrap (sizeUsed st - wrap (payload + 16));
       freeEnd := header;
       freeSpace := wrap (freeSpace st + wrap (payload + 16));
       mem := store_header (mem st) header
                {| h := wrap (payload + wrap (16 + w'));
                   prev := NULL; next := NULL |} |}.
Proof.
  intros Hnn header payload Hin Hnext Hflag. unfold myfree.
  destruct (Z.eqb_spec ptr NULL) as [| _]; [done |]. cbn [negb].
  change (h (load_header (mem st) (padd ptr (-16)))) with (load (mem st) header).
  fold header. fold payload.
  cbn [with_counters heapStart heapSize mem freeEnd].
  destruct (Z.ltb_spec (padd ptr payload) (padd (heapStart st) (heapSize st)));
    [| lia].
  rewrite Hnext. cbn [h prev next]. rewrite Hflag.
  change (0 =? 0) with true. change (NULL =? NULL) with true. cbn [negb].
  reflexivity.
Qed.

(** A region whose last block is a freshly written free node. *)
Lemma shaped_fresh_node st st' i p :
  placed st = true -> 0 <= i ->
  heapStart st' = heapStart st -> heapSize st' = heapSize st ->
  freeEnd st' = heapStart st + i ->
  mem st' = store_header (mem st) (heapStart st + i)
              {| h := p; prev := NULL; next := NULL |} ->
  Z.land p 1 = 0 -> 0 <= p -> i + p + 16 = heapSize st ->
  shaped st' i [p] = true.
Proof.
  intros (Hpos & Hend & Hsz0)%placed_spec_e Hi Hhs Hsz Hfe Hmem Hflag Hp Htot.
  apply shaped_last. rewrite Hhs, Hsz, Hfe, Hmem.
  assert (padd (heapStart st) i = heapStart st + i) as -> by word_lia.
  assert (padd (heapStart st) (i + 8) = padd (heapStart st + i) 8) as -> by word_lia.
  assert (padd (heapStart st) (i + 16) = padd (heapStart st + i) 16) as -> by word_lia.
  rewrite load_store_header, load_store_header_prev, load_store_header_next.
  cbn [h prev next].
  assert (wrap p = p) as -> by word_lia.
  rewrite (payload_of_free_e _ Hflag), Hflag.
  change (0 =? 0) with true. cbn iota.
  repeat split; try done; lia.
Qed.

Lemma payload_of_arith w : payload_of w = w - w mod 2.
Proof.
  destruct (land1_cases w) as [Hf | Hf].
  - rewrite (payload_of_free_e _ Hf). rewrite land1_mod2 in Hf. lia.
  - rewrite (payload_of_allocated_e _ Hf), (lxor1_allocated _ Hf).
    rewrite land1_mod2 in Hf. lia.
Qed.

Lemma lxor1_arith w : Z.lxor w 1 = w + 1 - 2 * (w mod 2).
Proof.
  destruct (land1_cases w) as [Hf | Hf].
  - rewrite (lxor1_free _ Hf). rewrite land1_mod2 in Hf. lia.
  - rewrite (lxor1_allocated _ Hf). rewrite land1_mod2 in Hf. lia.
Qed.

Lemma sound_block_arith w :
  sound_block w = true <-> (w - w mod 2) mod 8 = 0 /\ 8 <= w - w mod 2.
Proof. rewrite sound_block_spec, payload_of_arith. reflexivity. Qed.

Lemma free_in_sound k :
  forall ws, forallb sound_block ws = true -> forallb sound_block (free_in k ws) = true.
Proof.
  induction k as [| k IH]; intros [| w rest]; try done.
  - cbn [free_in forallb]. intros [Hw Hall]%andb_prop.
    apply sound_block_arith in Hw.
    destruct rest as [| w' rest'].
    + cbn [forallb]. rewrite andb_true_r. apply sound_block_arith.
      rewrite lxor1_arith. word_lia.
    + cbn [forallb] in Hall. apply andb_prop in Hall as [Hw' Hall].
      destruct (Z.eqb_spec (Z.land w' 1) 0) as [Hf' |].
      * cbn [forallb]. rewrite Hall, andb_true_r.
        apply sound_block_arith in Hw'. apply sound_block_arith.
        rewrite land1_mod2 in Hf'. rewrite lxor1_arith. word_lia.
      * cbn [forallb]. rewrite Hall, Hw', andb_true_r.
        by apply sound_block_arith.
  - cbn [free_in forallb]. intros [Hw Hall]%andb_prop.
    by rewrite Hw, IH.
Qed.

Lemma payload_of_arith_even w : Z.land (payload_of w) 1 = 0.
Proof. rewrite payload_of_arith, land1_mod2. word_lia. Qed.

(** [myfree] of an allocated block of a shaped region, by the position of
    the block. *)
Lemma myfree_shaped st pre w post :
  placed st = true -> shaped st 0 (pre ++ w :: post) = true -> Z.land w 1 = 1 ->
  let st' := myfree (heapStart st + span pre + 16) st in
  shaped st' 0 (pre ++ free_in 0 (w :: post)) = true
  /\ heapStart st' = heapStart st /\ heapSize st' = heapSize st
  /\ (forall a, a < heapStart st + span pre \/ heapStart st + span pre + 24 <= a ->
                load (mem st') a = load (mem st) a).
Proof.
  intros Hplaced Hshape Hflag.
  pose proof Hplaced as (Hpos & Hend & Hsz0)%placed_spec_e.
  assert (0 <= span pre) as Hpre by by apply (shaped_prefix_span st pre (w :: post) 0).
  pose proof (shaped_suffix st pre (w :: post) 0 Hshape ltac:(done)) as Hsuf.
  pose proof (shaped_head _ _ _ _ Hsuf) as (Hlt & Hload & Hwr & Hpw & Hfit).
  set (c := heapStart st + (0 + span pre)) in *.
  set (ptr := heapStart st + span pre + 16).
  assert (padd (heapStart st) (0 + span pre) = c) as Hc by (subst c; word_lia).
  rewrite Hc in Hload.
  assert (ptr <> NULL) as Hnn by (subst ptr; unfold NULL; lia).
  assert (padd ptr (-16) = c) as Hhdr by (subst ptr c; word_lia).
  pose proof (payload_of_allocated_e _ Hflag) as Hpay.
  assert (Z.lxor (load (mem st) (padd ptr (-16))) 1 = payload_of w) as Hpayload
    by by rewrite Hhdr, Hload.
  destruct post as [| w' post'].
  - (* the last block *)
    apply shaped_last in Hsuf as (_ & _ & Htot & Hfe).
    rewrite Hflag in Hfe. cbn [Z.eqb Pos.eqb] in Hfe.
    cbn zeta. fold ptr.
    rewrite myfree_at_end; [| done | rewrite Hpayload; subst ptr; word_lia | done].
    rewrite Hpayload, Hhdr. cbn [heapStart heapSize].
    split;
      [| repeat split; try done; cbn [mem]; intros a Ha;
         apply load_store_header_other; subst c; word_lia].
    apply (shaped_splice st _ [w]); try done.
    + cbn [mem]. intros a Ha. apply load_store_header_other; subst c; word_lia.
    + cbn [free_in]. rewrite <- Hpay.
      apply (shaped_fresh_node st); try done; try lia.
      apply payload_of_arith_even.
  - destruct (land1_cases w') as [Hflag' | Hflag'].
    + (* the block in front of the free last block *)
      apply shaped_cons in Hsuf as (_ & _ & _ & _ & Hnext).
      destruct post' as [| w'' post''];
        [| apply shaped_cons in Hnext as (_ & _ & Hbad & _); congruence].
      apply shaped_last in Hnext as (Hlt' & Hload' & Htot & Hlinks).
      rewrite Hflag' in Hlinks. cbn [Z.eqb Pos.eqb] in Hlinks.
      destruct Hlinks as (Hfe & Hprev & Hnext).
      rewrite (payload_of_free_e _ Hflag') in Htot.
      assert (in_range w') as Hwr' by (rewrite <- Hload'; apply load_in_range).
      assert (0 <= w') as Hw'0 by apply Hwr'.
      assert (padd ptr (payload_of w) = heapStart st + (0 + span pre + payload_of w + 16))
        as Hna by (subst ptr; word_lia).
      cbn zeta. fold ptr.
      rewrite (myfree_absorbs ptr st w'); [| done | | | done].
      * rewrite Hpayload, Hhdr. cbn [heapStart heapSize].
        split;
          [| repeat split; try done; cbn [mem]; intros a Ha;
             apply load_store_header_other; subst c; word_lia].
        apply (shaped_splice st _ [w; w']); try done.
        -- cbn [free_in]. by rewrite Hflag'.
        -- cbn [mem]. intros a Ha. apply load_store_header_other; subst c; word_lia.
        -- cbn [free_in]. rewrite Hflag'. change (0 =? 0) with true. cbn iota.
           rewrite <- Hpay.
           assert (wrap (payload_of w + wrap (16 + w')) = payload_of w + (16 + w'))
             as Hsum by word_lia.
           rewrite Hsum.
           apply (shaped_fresh_node st); try done; try lia.
           pose proof (payload_of_arith_even w) as He.
           rewrite land1_mod2 in *. word_lia.
      * rewrite Hpayload, Hna. word_lia.
      * rewrite Hpayload, Hna. unfold load_header. f_equal.
        -- rewrite <- Hload'. f_equal. word_lia.
        -- rewrite <- Hprev. f_equal. word_lia.
        -- rewrite <- Hnext. f_equal. word_lia.
    + (* the block in front of an allocated block *)
      apply shaped_cons in Hsuf as (_ & _ & _ & _ & Hnext).
      pose proof (shaped_head _ _ _ _ Hnext) as (Hlt' & Hload' & _).
      assert (padd ptr (payload_of w)
              = padd (heapStart st) (0 + span pre + payload_of w + 16))
        as Hna by (subst ptr; word_lia).
      cbn zeta. fold ptr.
      rewrite myfree_right_neighbour_allocated; [| done | |].
      * cbn [free_in]. rewrite Hflag'. cbn [Z.eqb Pos.eqb].
        rewrite shaped_with_counters. by repeat split.
      * change (h (load_header (mem st) (padd ptr (-16))))
          with (load (mem st) (padd ptr (-16))).
        rewrite Hpayload, Hna. word_lia.
      * change (h (load_header (mem st) (padd ptr (-16))))
          with (load (mem st) (padd ptr (-16))).
        rewrite Hpayload, Hna.
        change (h (load_header (mem st) ?a)) with (load (mem st) a).
        by rewrite Hload'.
Qed.

(** [myfree] of an allocated block of a well-formed region leaves a
    well-formed region. *)
Lemma myfree_heap_ok_e st ws k w :
  heap_ok st ws = true -> ws !! k = Some w -> Z.land w 1 = 1 ->
  heap_ok (myfree (payload_address st ws k) st) (free_in k ws) = true.
Proof.
  intros (Hplaced & Hbase & Hshape & Hsound)%heap_ok_spec_e Hk Hflag.
  pose proof (take_drop_middle ws k w Hk) as Hsplit.
  assert (length (take k ws) = k) as Hlen
    by (apply lookup_lt_Some in Hk; rewrite length_take; lia).
  unfold payload_address.
  rewrite <- Hsplit in Hshape.
  destruct (myfree_shaped st (take k ws) w (drop (S k) ws) Hplaced Hshape Hflag)
    as (Hs' & Hhs & Hsz & _).
  apply heap_ok_spec_e. repeat split.
  - unfold placed. rewrite Hhs, Hsz. exact Hplaced.
  - by rewrite Hhs.
  - rewrite <- Hsplit at 2. rewrite <- Hlen at 2. by rewrite free_in_app.
  - by apply free_in_sound.
Qed.

(** [myfree] writes to the three header words of the block and nowhere
    else. *)
Lemma myfree_frame_e st ws k w :
  heap_ok st ws = true -> ws !! k = Some w -> Z.land w 1 = 1 ->
  forall a,
    a < payload_address st ws k - 16 \/ payload_address st ws k + 8 <= a ->
    load (mem (myfree (payload_address st ws k) st)) a = load (mem st) a.
Proof.
  intros (Hplaced & Hbase & Hshape & Hsound)%heap_ok_spec_e Hk Hflag a Ha.
  pose proof (take_drop_middle ws k w Hk) as Hsplit.
  unfold payload_address in *.
  rewrite <- Hsplit in Hshape.
  destruct (myfree_shaped st (take k ws) w (drop (S k) ws) Hplaced Hshape Hflag)
    as (_ & _ & _ & Hframe).
  apply Hframe. lia.
Qed.

(** *** Initialisation *)

Lemma myinit_heap_ok_e heap_start heap_size st :
  0 < heap_start -> heap_start mod 8 = 0 ->
  24 <= heap_size -> heap_size mod 8 = 0 ->
  heap_start + heap_size < modulus ->
  (myinit heap_start heap_size st).1 = true
  /\ heap_ok (myinit heap_start heap_size st).2 [heap_size - 16] = true
  /\ sizeUsed (myinit heap_start heap_size st).2 = 0
  /\ freeSpace (myinit heap_start heap_size st).2 = heap_size.
Proof.
  intros Hpos Hal Hsz Hszal Hend. unfold myinit.
  destruct (Z.eqb_spec heap_start NULL) as [Hn | _]; [unfold NULL in Hn; lia |].
  cbn [fst snd sizeUsed freeSpace]. split; [done |]. split; [| done].
  assert (wrap (heap_size - 16) = heap_size - 16) as Hw by word_lia.
  assert (Z.land (heap_size - 16) 1 = 0) as Hflag by (rewrite land1_mod2; word_lia).
  apply heap_ok_spec_e. repeat split.
  - unfold placed. cbn [heapStart heapSize].
    apply andb_true_intro. split; [apply andb_true_intro; split |]; lia.
  - done.
  - rewrite Hw.
    set (st0 := {| heapStart := heap_start; heapSize := heap_size; sizeUsed := 0;
                   freeEnd := NULL; freeSpace := heap_size; mem := mem st |}).
    apply (shaped_fresh_node st0); try done; try (cbn; lia).
    + unfold placed. cbn [heapStart heapSize st0].
      apply andb_true_intro. split; [apply andb_true_intro; split |]; lia.
    + unfold st0. cbn [heapStart mem]. by rewrite Z.add_0_r.
  - cbn [forallb]. rewrite andb_true_r. apply sound_block_spec.
    rewrite (payload_of_free_e _ Hflag). word_lia.
Qed.

(** *** The validator *)

Lemma used_bytes_cons_e w rest :
  used_bytes (w :: rest)
  = if Z.land w 1 =? 1 then payload_of w + 16 + used_bytes rest else used_bytes rest.
Proof. reflexivity. Qed.

Lemma validate_sweep_shaped st ws :
  placed st = true ->
  forall fuel i used frees,
    0 <= i -> 0 <= used -> 0 <= frees -> used + frees <= i ->
    shaped st i ws = true -> (length ws < fuel)%nat ->
    validate_sweep fuel i used frees st
    = Some (used + used_bytes ws, frees + (span ws - used_bytes ws)).
Proof.
  intros (Hpos & Hend & _)%placed_spec_e.
  induction ws as [| w rest IH]; intros fuel i used frees Hi Hu Hf Hsum Hs Hfuel;
    [done |].
  destruct fuel as [| fuel]; [cbn in Hfuel; lia |]. cbn [validate_sweep].
  pose proof (shaped_head _ _ _ _ Hs) as (Hlt & Hw & Hr & Hp & Hle).
  assert ((i <? heapSize st) = true) as -> by (by apply Z.ltb_lt).
  change (h (load_header (mem st) ?a)) with (load (mem st) a).
  rewrite Hw, span_cons_e, used_bytes_cons_e.
  assert (validate_sweep fuel (i + payload_of w + 16)
            (used + (if Z.land w 1 =? 1 then payload_of w + 16 else 0))
            (frees + (if Z.land w 1 =? 1 then 0 else payload_of w + 16)) st
          = Some (used + (if Z.land w 1 =? 1 then payload_of w + 16 else 0)
                  + used_bytes rest,
                  frees + (if Z.land w 1 =? 1 then 0 else payload_of w + 16)
                  + (span rest - used_bytes rest))) as Hrest.
  { destruct rest as [| w' rest'].
    - apply shaped_last in Hs as (_ & _ & Htot & _).
      destruct fuel as [| fuel]; [cbn in Hfuel; lia |]. cbn [validate_sweep].
      rewrite Htot, Z.ltb_irrefl. cbn [span used_bytes fold_right].
      f_equal. f_equal; lia.
    - apply shaped_cons in Hs as (_ & _ & _ & _ & Hnext).
      apply IH; try done; try (cbn [length] in *; lia);
        destruct (Z.land w 1 =? 1); lia. }
  destruct (land1_cases w) as [Hflag | Hflag]; rewrite Hflag in *;
    cbn [Z.eqb Pos.eqb] in *.
  - rewrite (payload_of_free_e _ Hflag) in *.
    replace (wrap (frees + wrap (16 + w))) with (frees + (w + 16)) by word_lia.
    replace (wrap (wrap (i + w) + 16)) with (i + w + 16) by word_lia.
    rewrite Z.add_0_r in Hrest. rewrite Hrest. f_equal. f_equal; lia.
  - rewrite (payload_of_allocated_e _ Hflag) in *.
    replace (wrap (used + wrap (16 + Z.lxor w 1))) with (used + (Z.lxor w 1 + 16))
      by word_lia.
    replace (wrap (wrap (i + Z.lxor w 1) + 16)) with (i + Z.lxor w 1 + 16) by word_lia.
    rewrite Z.add_0_r in Hrest. rewrite Hrest. f_equal. f_equal; lia.
Qed.

Lemma validate_walk_shaped st ws fuel :
  placed st = true -> shaped st 0 ws = true ->
  exists freed, validate_walk (S (S fuel)) (freeEnd st) 0 st = Some (Some freed).
Proof.
  intros Hplaced Hs.
  pose proof Hplaced as (Hpos & Hend & _)%placed_spec_e.
  destruct (shaped_last_block st ws Hs) as (pre & w & -> & Hlast & Hpre).
  apply shaped_last in Hlast as (Hlt & Hload & Htot & Hlinks).
  destruct (land1_cases w) as [Hflag | Hflag]; rewrite Hflag in Hlinks;
    cbn [Z.eqb Pos.eqb] in Hlinks.
  - destruct Hlinks as (Hfe & _ & Hnext).
    assert (padd (heapStart st) (0 + span pre) = freeEnd st) as Hc
      by (rewrite Hfe; word_lia).
    assert (padd (heapStart st) (0 + span pre + 16) = padd (freeEnd st) 16) as Hc16
      by (rewrite Hfe; word_lia).
    rewrite Hc in Hload. rewrite Hc16 in Hnext.
    cbn [validate_walk].
    destruct (Z.eqb_spec (freeEnd st) NULL) as [Hn | _];
      [unfold NULL in Hn; lia |]. cbn [negb].
    change (h (load_header (mem st) ?a)) with (load (mem st) a).
    change (next (load_header (mem st) ?a)) with (load (mem st) (padd a 16)).
    rewrite Hload, Hnext, Hflag. cbn [Z.eqb Pos.eqb].
    change (NULL =? NULL) with true. cbn [negb]. by eexists.
  - rewrite Hlinks. cbn [validate_walk]. change (NULL =? NULL) with true.
    cbn [negb]. by eexists.
Qed.

(** On a shaped region the validator decides on the two counters alone. *)
Lemma validate_heap_shaped fuel st ws :
  placed st = true -> shaped st 0 ws = true -> (length ws < fuel)%nat ->
  validate_heap fuel st
  = Some ((sizeUsed st <=? heapSize st)
          && (wrap (freeSpace st + sizeUsed st) =? heapSize st)).
Proof.
  intros Hplaced Hs Hfuel. unfold validate_heap.
  pose proof Hplaced as (Hpos & Hend & Hsz0)%placed_spec_e.
  pose proof (shaped_span _ _ _ Hs) as Hspan.
  destruct (Z.gtb_spec (sizeUsed st) (heapSize st)) as [Hgt | Hle].
  - assert ((sizeUsed st <=? heapSize st) = false) as -> by (apply Z.leb_gt; lia).
    done.
  - assert ((sizeUsed st <=? heapSize st) = true) as -> by (apply Z.leb_le; lia).
    rewrite (validate_sweep_shaped st ws Hplaced fuel 0 0 0) by (done || lia).
    destruct fuel as [| [| fuel]];
      [lia | destruct ws; [done | cbn [length] in Hfuel; lia] |].
    destruct (validate_walk_shaped st ws fuel Hplaced Hs) as (freed & ->).
    replace (wrap (0 + (span ws - used_bytes ws) + (0 + used_bytes ws)))
      with (heapSize st) by word_lia.
    rewrite Z.eqb_refl. cbn [negb andb].
    by destruct (wrap (freeSpace st + sizeUsed st) =? heapSize st).
Qed.


(** *** Allocation followed by release *)

Lemma free_allocate_last rs pre w :
  Z.land w 1 = 0 -> rs <= w -> Z.land rs 1 = 0 ->
  free_in (length pre) (allocate_last rs (pre ++ [w])) = pre ++ [w]
  /\ exists a, allocate_last rs (pre ++ [w]) !! length pre = Some a /\ Z.land a 1 = 1.
Proof.
  intros Hflag Hfit Hrs.
  assert (Z.land (w - (rs + 16)) 1 = 0) as Hrem
    by (rewrite land1_mod2 in *; word_lia).
  rewrite allocate_last_app, free_in_app. cbn [allocate_last free_in].
  rewrite Hflag. change (0 =? 0) with true.
  assert ((rs <=? w) = true) as -> by (by apply Z.leb_le).
  cbn [andb]. destruct (w - rs >? 24).
  - rewrite Hrem. change (0 =? 0) with true. cbn iota.
    split.
    + rewrite lxor1_twice. do 2 f_equal. lia.
    + exists (Z.lxor rs 1). split; [| by apply land1_lxor1].
      by rewrite list_lookup_middle.
  - split.
    + by rewrite lxor1_twice.
    + exists (Z.lxor w 1). split; [| by apply land1_lxor1].
      by rewrite list_lookup_middle.
Qed.

(** [myfree] of the pointer [mymalloc] has just returned gives the blocks of
    the region back as they were: a split is undone by the merge. *)
Lemma mymalloc_myfree_heap_ok MAX fuel r st ws ptr st' :
  heap_ok st ws = true -> 0 <= r <= SIZE_MAX - 7 -> (2 <= fuel)%nat ->
  mymalloc MAX fuel r st = Some (ptr, st') -> ptr <> NULL ->
  heap_ok (myfree ptr st') ws = true.
Proof.
  intros Hok Hr Hfuel Hm Hnn.
  destruct (mymalloc_heap_ok_e MAX fuel r st ws Hok Hr Hfuel)
    as (ptr0 & st0 & Hm0 & _ & Hserved).
  rewrite Hm in Hm0. injection Hm0 as <- <-.
  destruct (Hserved Hnn)
    as (Hok' & Hptr & _ & _ & Hhs & _ & pre & w & -> & Hflag & Hfit).
  destruct (free_allocate_last (roundup r) pre w Hflag Hfit (roundup_even r))
    as (Hback & a & Ha & Haflag).
  pose proof (myfree_heap_ok_e st' _ _ a Hok' Ha Haflag) as Hfree.
  rewrite Hback in Hfree.
  replace (payload_address st' (allocate_last (roundup r) (pre ++ [w])) (length pre))
    with ptr in Hfree; [done |].
  rewrite Hptr. unfold payload_address.
  rewrite length_app. cbn [length].
  replace (length pre + 1 - 1)%nat with (length pre) by lia.
  rewrite allocate_last_app, !take_app_length. by rewrite Hhs.
Qed.

(** *** Writes into a payload, and the move of [myrealloc] *)

Lemma shaped_frame_above st st' ws :
  placed st = true ->
  heapStart st' = heapStart st -> heapSize st' = heapSize st ->
  freeEnd st' = freeEnd st ->
  forall i,
    0 <= i ->
    (forall a, heapStart st + i <= a -> load (mem st') a = load (mem st) a) ->
    shaped st i ws = true -> shaped st' i ws = true.
Proof.
  intros (Hpos & Hend & Hsz0)%placed_spec_e Hhs Hsz Hfe.
  induction ws as [| w rest IH]; intros i Hi Hframe Hs; [done |].
  pose proof (shaped_head _ _ _ _ Hs) as (Hlt & Hload & Hwr & Hpw & Hfit).
  destruct rest as [| w' rest'].
  - apply shaped_last in Hs as (_ & _ & Htot & Hlinks).
    apply shaped_last. rewrite Hhs, Hsz, Hfe.
    rewrite !Hframe by word_lia. done.
  - apply shaped_cons in Hs as (_ & _ & Hflag & _ & Hnext).
    apply shaped_cons. rewrite Hhs, Hsz.
    rewrite Hframe by word_lia.
    repeat split; try done.
    apply IH; [lia | | done].
    intros a Ha. apply Hframe. lia.
Qed.

(** A change of memory confined to the payload of an allocated block leaves
    the shape of the region alone. *)
Lemma shaped_payload_frame st st' pre w post :
  placed st = true ->
  heapStart st' = heapStart st -> heapSize st' = heapSize st ->
  freeEnd st' = freeEnd st ->
  shaped st 0 (pre ++ w :: post) = true -> Z.land w 1 = 1 ->
  (forall a, a < heapStart st + span pre + 16
             \/ heapStart st + span pre + 16 + payload_of w <= a ->
             load (mem st') a = load (mem st) a) ->
  shaped st' 0 (pre ++ w :: post) = true.
Proof.
  intros Hplaced Hhs Hsz Hfe Hs Hflag Hframe.
  pose proof Hplaced as (Hpos & Hend & Hsz0)%placed_spec_e.
  assert (0 <= span pre) as Hpre by by apply (shaped_prefix_span st pre (w :: post) 0).
  pose proof (shaped_suffix st pre (w :: post) 0 Hs ltac:(done)) as Hsuf.
  pose proof (shaped_head _ _ _ _ Hsuf) as (Hlt & Hload & Hwr & Hpw & Hfit).
  apply (shaped_splice st st' (w :: post)); try done.
  - intros a Ha. apply Hframe. lia.
  - destruct post as [| w' post'].
    + apply shaped_last in Hsuf as (_ & _ & Htot & Hlinks).
      apply shaped_last. rewrite Hhs, Hsz, Hfe.
      rewrite Hframe by word_lia. rewrite Hflag in *. done.
    + apply shaped_cons in Hsuf as (_ & _ & _ & _ & Hnext).
      apply shaped_cons. rewrite Hhs, Hsz.
      rewrite Hframe by word_lia.
      repeat split; try done.
      apply (shaped_frame_above st); try done; [lia |].
      intros a Ha. apply Hframe. lia.
Qed.

(** In a shaped region every block but the last is flagged allocated. *)
Lemma shaped_nonlast_allocated st pre w :
  forall i, shaped st i (pre ++ [w]) = true -> Forall (fun x => Z.land x 1 = 1) pre.
Proof.
  induction pre as [| x pre IH]; intros i Hs; [done |].
  change ((x :: pre) ++ [w]) with (x :: (pre ++ [w])) in Hs.
  destruct (pre ++ [w]) as [| y rest] eqn:Hpw; [by destruct pre |].
  apply shaped_cons in Hs as (_ & _ & Hflag & _ & Hnext).
  constructor; [done |]. by apply (IH (i + payload_of x + 16)).
Qed.

Lemma free_in_leak k :
  forall ws w', ws !! S k = Some w' -> Z.land w' 1 = 1 -> free_in k ws = ws.
Proof.
  induction k as [| k IH]; intros [| w [| w1 rest]] w' Hk Hflag; try done.
  - cbn in Hk. injection Hk as ->. cbn [free_in]. by rewrite Hflag.
  - cbn [free_in]. f_equal. by apply (IH _ w').
Qed.

(** [myfree] of a block in front of an allocated block changes the two
    counters and nothing else. *)
Lemma myfree_leaks st pre w w' post' :
  placed st = true -> shaped st 0 (pre ++ w :: w' :: post') = true ->
  Z.land w 1 = 1 -> Z.land w' 1 = 1 ->
  myfree (heapStart st + span pre + 16) st
  = with_counters st (wrap (sizeUsed st - wrap (payload_of w + 16)))
                     (wrap (freeSpace st + wrap (payload_of w + 16))).
Proof.
  intros Hplaced Hshape Hflag Hflag'.
  pose proof Hplaced as (Hpos & Hend & Hsz0)%placed_spec_e.
  assert (0 <= span pre) as Hpre
    by by apply (shaped_prefix_span st pre (w :: w' :: post') 0).
  pose proof (shaped_suffix st pre (w :: w' :: post') 0 Hshape ltac:(done)) as Hsuf.
  pose proof (shaped_head _ _ _ _ Hsuf) as (Hlt & Hload & Hwr & Hpw & Hfit).
  set (ptr := heapStart st + span pre + 16).
  assert (ptr <> NULL) as Hnn by (subst ptr; unfold NULL; lia).
  assert (padd ptr (-16) = padd (heapStart st) (0 + span pre)) as Hhdr
    by (subst ptr; word_lia).
  pose proof (payload_of_allocated_e _ Hflag) as Hpay.
  assert (Z.lxor (load (mem st) (padd ptr (-16))) 1 = payload_of w) as Hpayload
    by by rewrite Hhdr, Hload.
  apply shaped_cons in Hsuf as (_ & _ & _ & _ & Hnext).
  pose proof (shaped_head _ _ _ _ Hnext) as (Hlt' & Hload' & _).
  assert (padd ptr (payload_of w)
          = padd (heapStart st) (0 + span pre + payload_of w + 16))
    as Hna by (subst ptr; word_lia).
  rewrite myfree_right_neighbour_allocated; [| done | |];
    change (h (load_header (mem st) (padd ptr (-16))))
      with (load (mem st) (padd ptr (-16)));
    rewrite Hpayload.
  - done.
  - rewrite Hna. word_lia.
  - rewrite Hna. change (h (load_header (mem st) ?a)) with (load (mem st) a).
    by rewrite Hload'.
Qed.

Lemma shaped_lookup st ws k w :
  shaped st 0 ws = true -> ws !! k = Some w ->
  0 <= span (take k ws)
  /\ load (mem st) (padd (heapStart st) (span (take k ws))) = w
  /\ in_range w /\ 0 <= payload_of w
  /\ span (take k ws) + payload_of w + 16 <= heapSize st.
Proof.
  intros Hs Hk. pose proof (take_drop_middle ws k w Hk) as Hsplit.
  rewrite <- Hsplit in Hs.
  assert (0 <= span (take k ws)) as Hpre
    by by apply (shaped_prefix_span st (take k ws) (w :: drop (S k) ws) 0).
  pose proof (shaped_suffix st _ (w :: drop (S k) ws) 0 Hs ltac:(done)) as Hsuf.
  pose proof (shaped_head _ _ _ _ Hsuf) as (Hlt & Hload & Hwr & Hpw & Hfit).
  rewrite Z.add_0_l in Hload, Hfit. done.
Qed.

(** The move of [myrealloc]: the request is larger than the payload of the
    old block and the last block of the region can serve it. *)
Lemma myrealloc_moves_e MAX fuel new_size st ws k w ptr st' :
  heap_ok st ws = true -> ws !! k = Some w -> Z.land w 1 = 1 ->
  0 < new_size <= SIZE_MAX - 7 -> payload_of w < roundup new_size ->
  (2 <= fuel)%nat ->
  myrealloc MAX fuel (payload_address st ws k) new_size st = Some (ptr, st') ->
  ptr <> NULL ->
  heap_ok st' (allocate_last (roundup new_size) ws) = true
  /\ ptr = payload_address st ws (length ws - 1)
  /\ (forall j, 0 <= j < payload_of w / 8 ->
        load (mem st') (ptr + 8 * j)
        = load (mem st) (payload_address st ws k + 8 * j))
  /\ load (mem st') (payload_address st ws k - 16) = w.
Proof.
  intros (Hplaced & Hbase & Hshape & Hsound)%heap_ok_spec_e Hk Hflag Hns Hgrow
         Hfuel Hre Hnn.
  destruct fuel as [| [| fuel]]; [lia | lia |].
  pose proof Hplaced as (Hpos & Hend & Hsz0)%placed_spec_e.
  destruct (roundup_low_e new_size ltac:(lia)) as (Hrs8 & Hrsm & Hrle).
  assert (Z.land (roundup new_size) 1 = 0) as Hrseven by apply roundup_even.
  pose proof (shaped_lookup st ws k w Hshape Hk) as (Hoff & Hloadk & Hwr & Hpw & Hkend).
  assert (payload_of w mod 8 = 0) as Hpw8.
  { pose proof Hsound as Hall. rewrite forallb_forall in Hall.
    apply sound_block_spec, Hall, list_elem_of_In.
    by apply (list_elem_of_lookup_2 _ k). }
  set (old := payload_address st ws k) in *.
  assert (old = heapStart st + span (take k ws) + 16) as Hold by done.
  assert (padd old (-16) = padd (heapStart st) (span (take k ws))) as Hoh
    by (rewrite Hold; word_lia).
  pose proof (payload_of_allocated_e _ Hflag) as Hpay.
  (* the tests in front of the loop *)
  unfold myrealloc in Hre.
  destruct (Z.eqb_spec new_size 0) as [| _]; [lia |]. cbn [andb] in Hre.
  destruct (_ || _); [by injection Hre as <- |].
  destruct (Z.eqb_spec old NULL) as [Hn | _]; [unfold NULL in Hn; lia |].
  change (h (load_header (mem st) ?a)) with (load (mem st) a) in Hre.
  rewrite Hoh, Hloadk, <- Hpay in Hre.
  destruct (Z.leb_spec (roundup new_size) (payload_of w)) as [| _]; [lia |].
  rewrite realloc_loop_first_fit in Hre.
  (* the last block *)
  destruct (shaped_last_block st ws Hshape) as (pre & wl & -> & Hlast & Hpre).
  pose proof Hlast as (Hlt & Hload & Htot & Hlinks)%shaped_last.
  assert (in_range wl) as Hwlr by (rewrite <- Hload; apply load_in_range).
  set (c := heapStart st + (0 + span pre)) in *.
  assert (padd (heapStart st) (0 + span pre) = c) as Hc by (subst c; word_lia).
  rewrite Hc in Hload.
  destruct (land1_cases wl) as [Hflagl | Hflagl]; rewrite Hflagl in Hlinks;
    cbn [Z.eqb Pos.eqb] in Hlinks; cycle 1.
  { rewrite Hlinks, first_fit_empty in Hre. by injection Hre as <-. }
  destruct Hlinks as (Hfe & _ & Hnext).
  rewrite (payload_of_free_e _ Hflagl) in *.
  assert (padd (heapStart st) (0 + span pre + 16) = padd c 16) as Hc16
    by (subst c; word_lia).
  rewrite Hc16 in Hnext.
  assert (freeEnd st = c) as Hfec by (subst c; lia).
  rewrite Hfec in Hre.
  rewrite (first_fit_single MAX fuel _ _ c) in Hre
    by (done || (subst c; unfold NULL; lia)).
  change (h (load_header (mem st) c)) with (load (mem st) c) in Hre.
  rewrite Hload in Hre.
  destruct (_ && _) eqn:Hcond in Hre; [| by injection Hre as <-].
  apply andb_prop in Hcond as [_ Hcond]. apply andb_prop in Hcond as [_ Hcond].
  apply andb_prop in Hcond as [_ Hfit]. apply Z.leb_le in Hfit.
  (* the old block is not the last one *)
  assert (k < length pre)%nat as Hkpre.
  { apply lookup_lt_Some in Hk as Hlen. rewrite length_app in Hlen. cbn in Hlen.
    destruct (decide (k = length pre)) as [-> |]; [| lia].
    rewrite list_lookup_middle in Hk by done. injection Hk as ->. congruence. }
  rewrite lookup_app_l in Hk by done.
  assert (take k (pre ++ [wl]) = take k pre) as Htk
    by (rewrite take_app_le by lia; done).
  rewrite Htk in *.
  pose proof (take_drop_middle pre k w Hk) as Hsplit.
  set (p1 := take k pre) in *. set (p2 := drop (S k) pre) in *.
  assert (0 <= span p2) as Hp2.
  { rewrite <- Hsplit in Hshape.
    replace ((p1 ++ w :: p2) ++ [wl]) with ((p1 ++ [w]) ++ (p2 ++ [wl])) in Hshape
      by (by rewrite <- !app_assoc).
    apply shaped_suffix in Hshape; [| by destruct p2].
    by apply shaped_prefix_span in Hshape. }
  assert (span pre = span p1 + (payload_of w + 16 + span p2)) as Hspre
    by (rewrite <- Hsplit, span_app_e, span_cons_e; done).
  (* the placement *)
  change (h (load_header (mem st) c)) with (load (mem st) c) in Hre.
  rewrite Hload in Hre.
  destruct (take_block _ _ _ _ _) as [ptr1 st1] eqn:Htake in Hre.
  injection Hre as <- <-.
  pose proof (shaped_take_block st (0 + span pre) wl (roundup new_size) Hplaced
                ltac:(lia) Hlast Hflagl Hfit Hrs8 Hrseven) as Hst.
  cbn zeta in Hst. fold c in Hst.
  pose proof (take_block_ptr c (load_header (mem st) c) wl (roundup new_size) st) as Hp.
  rewrite Htake in Hst, Hp. cbn [fst snd] in Hst, Hp.
  destruct Hst as (Hs1 & Hhs1 & Hsz1 & Hframe1).
  assert (ptr1 = c + 16) as Hptr by (rewrite Hp; subst c; word_lia).
  assert (placed st1 = true) as Hplaced1
    by (unfold placed; rewrite Hhs1, Hsz1; exact Hplaced).
  assert (shaped st1 0 (pre ++ allocate_last (roundup new_size) [wl]) = true) as Hshape1.
  { apply (shaped_splice st st1 [wl]); try done.
    cbn [allocate_last]. by repeat case_match. }
  (* the block handed out *)
  assert (exists a post,
            allocate_last (roundup new_size) [wl] = a :: post
            /\ Z.land a 1 = 1 /\ roundup new_size <= payload_of a
            /\ c + 16 + payload_of a <= heapStart st + heapSize st)
    as (a & post & Hal & Haflag & Hasz & Haend).
  { cbn [allocate_last]. rewrite Hflagl. change (0 =? 0) with true.
    assert ((roundup new_size <=? wl) = true) as -> by (by apply Z.leb_le).
    cbn [andb]. destruct (wl - roundup new_size >? 24) eqn:Hsplit'.
    - exists (Z.lxor (roundup new_size) 1), [wl - (roundup new_size + 16)].
      split; [done |]. split; [by apply land1_lxor1 |].
      rewrite payload_of_set_e by done. subst c. lia.
    - exists (Z.lxor wl 1), []. split; [done |]. split; [by apply land1_lxor1 |].
      rewrite payload_of_set_e by done. subst c. lia. }
  rewrite Hal in Hshape1.
  (* the copy *)
  set (st2 := with_mem st1 (memmove (mem st1) ptr1 old (payload_of w))).
  assert (forall x, x < c + 16 \/ c + 16 + payload_of a <= x ->
                    load (mem st2) x = load (mem st1) x) as Hframe2.
  { intros x Hx. unfold st2. cbn [with_mem mem].
    apply memmove_outside; [done |]. intros j Hj. rewrite Hptr. word_lia. }
  assert (shaped st2 0 (pre ++ a :: post) = true) as Hshape2.
  { apply (shaped_payload_frame st1); try done.
    intros x Hx. apply Hframe2. rewrite Hhs1 in Hx. subst c. lia. }
  assert (placed st2 = true) as Hplaced2 by done.
  (* the release of the old block *)
  assert (exists w' post', p2 ++ a :: post = w' :: post' /\ Z.land w' 1 = 1)
    as (w' & post' & Hright & Hflag').
  { destruct p2 as [| y p2'] eqn:Hp2e.
    - by exists a, post.
    - exists y, (p2' ++ a :: post). split; [done |].
      pose proof (shaped_nonlast_allocated st pre wl 0 Hshape) as Hall.
      rewrite <- Hsplit in Hall. apply Forall_app in Hall as [_ Hall].
      apply Forall_cons in Hall as [_ Hall]. by apply Forall_cons in Hall as [Hy _]. }
  assert (shaped st2 0 (p1 ++ w :: w' :: post') = true) as Hshape2'.
  { rewrite <- Hright. rewrite <- Hsplit in Hshape2.
    by rewrite <- app_assoc in Hshape2. }
  pose proof (myfree_leaks st2 p1 w w' post' Hplaced2 Hshape2' Hflag Hflag') as Hfree.
  replace (heapStart st2 + span p1 + 16) with old in Hfree
    by (rewrite Hold; unfold st2; cbn [with_mem heapStart]; by rewrite Hhs1).
  rewrite Hfree.
  split; [| split; [| split]].
  - apply heap_ok_spec_e. cbn [with_counters heapStart heapSize].
    repeat split.
    + done.
    + unfold st2. cbn [with_mem heapStart]. by rewrite Hhs1.
    + rewrite allocate_last_app, Hal.
      by rewrite shaped_with_counters.
    + by apply allocate_last_sound.
  - unfold payload_address. rewrite length_app. cbn [length].
    replace (length pre + 1 - 1)%nat with (length pre) by lia.
    rewrite take_app_length. subst c. lia.
  - intros j Hj. cbn [with_counters mem]. unfold st2. cbn [with_mem mem].
    replace (ptr1 + 8 * j) with (padd ptr1 (8 * j)) by (rewrite Hptr; word_lia).
    rewrite memmove_inside by (done || word_lia).
    replace (padd old (8 * j)) with (old + 8 * j) by (rewrite Hold; word_lia).
    apply Hframe1. rewrite Hold. subst c. word_lia.
  - cbn [with_counters mem].
    rewrite Hframe2 by (rewrite Hold; subst c; lia).
    rewrite Hframe1 by (rewrite Hold; subst c; lia).
    rewrite <- Hloadk. f_equal. rewrite Hold. word_lia.
Qed.

(** *** Correct use *)

(** A write of the client into the payload of an allocated block. *)
Lemma store_heap_ok_e st ws k w j v :
  heap_ok st ws = true -> ws !! k = Some w -> Z.land w 1 = 1 ->
  0 <= j -> 8 * j < payload_of w ->
  heap_ok (with_mem st (store (mem st) (payload_address st ws k + 8 * j) v)) ws = true.
Proof.
  intros (Hplaced & Hbase & Hshape & Hsound)%heap_ok_spec_e Hk Hflag Hj Hin.
  apply heap_ok_spec_e. repeat split; try done.
  pose proof (take_drop_middle ws k w Hk) as Hsplit.
  rewrite <- Hsplit. rewrite <- Hsplit in Hshape.
  apply (shaped_payload_frame st); try done.
  intros x Hx. cbn [with_mem mem]. apply load_store_ne.
  unfold payload_address. rewrite <- Hsplit at 2.
  rewrite take_app_length' by (apply lookup_lt_Some in Hk; rewrite length_take; lia).
  lia.
Qed.

Lemma served_heap_ok_e MAX st ws : served MAX st ws -> heap_ok st ws = true.
Proof.
  induction 1 as [hs sz st Hpos Hal Hsz Hszal Hend
                 | fuel r st ws ptr st' _ IH Hr Hm Hnn
                 | st ws k w _ IH Hk Hflag
                 | fuel new_size st ws k w ptr st' _ IH Hk Hflag Hns Hgrow Hre Hnn
                 | st ws k w j v _ IH Hk Hflag Hj Hin].
  - by apply myinit_heap_ok_e.
  - apply (mymalloc_more_fuel_explicit MAX 2) in Hm.
    destruct (mymalloc_heap_ok_e MAX (fuel + 2) r st ws IH Hr ltac:(lia))
      as (ptr0 & st0 & Hm0 & _ & Hserved).
    rewrite Hm in Hm0. injection Hm0 as <- <-. by apply Hserved.
  - by apply (myfree_heap_ok_e st ws k w).
  - apply (myrealloc_more_fuel_explicit MAX 2) in Hre.
    by apply (myrealloc_moves_e MAX (fuel + 2) new_size st ws k w ptr st'
                IH Hk Hflag Hns Hgrow ltac:(lia) Hre Hnn).
  - by apply (store_heap_ok_e st ws k w).
Qed.

Lemma served_reachable MAX st ws : served MAX st ws -> reachable MAX st.
Proof.
  induction 1 as [hs sz st Hpos Hal Hsz Hszal Hend
                 | fuel r st ws ptr st' _ IH Hr Hm Hnn
                 | st ws k w _ IH Hk Hflag
                 | fuel new_size st ws k w ptr st' _ IH Hk Hflag Hns Hgrow Hre Hnn
                 | st ws k w j v _ IH Hk Hflag Hj Hin].
  - apply (reach_init MAX hs sz st); [unfold modulus in *; lia |].
    unfold myinit. destruct (Z.eqb_spec hs NULL) as [Hn |]; [unfold NULL in Hn; lia |].
    done.
  - by apply (reach_malloc MAX fuel r st ptr).
  - by apply reach_free.
  - by eapply reach_realloc.
  - by apply reach_client_store.
Qed.

(** After correct use the free list holds no node, or one node: the last
    block of the region. *)
Lemma served_free_list MAX st ws :
  served MAX st ws ->
  exists pre w,
    ws = pre ++ [w]
    /\ Forall (fun x => Z.land x 1 = 1) pre
    /\ heapStart st + span pre + 16 + payload_of w = heapStart st + heapSize st
    /\ if Z.land w 1 =? 0
       then freeEnd st = heapStart st + span pre
            /\ load_header (mem st) (freeEnd st) = {| h := w; prev := NULL; next := NULL |}
       else freeEnd st = NULL.
Proof.
  intros (Hplaced & _ & Hshape & _)%served_heap_ok_e%heap_ok_spec_e.
  pose proof Hplaced as (Hpos & Hend & Hsz0)%placed_spec_e.
  destruct (shaped_last_block st ws Hshape) as (pre & w & -> & Hlast & Hpre).
  exists pre, w. split; [done |].
  split; [by apply (shaped_nonlast_allocated st pre w 0) |].
  apply shaped_last in Hlast as (Hlt & Hload & Htot & Hlinks).
  split; [lia |].
  destruct (Z.land w 1 =? 0); [| done].
  destruct Hlinks as (Hfe & Hprev & Hnext).
  split; [lia |].
  unfold load_header. rewrite Hfe. f_equal.
  - rewrite <- Hload. f_equal. word_lia.
  - rewrite <- Hprev. f_equal. word_lia.
  - rewrite <- Hnext. f_equal. word_lia.
Qed.

(** After correct use the validator decides on [sizeUsed] alone. *)
Lemma served_validate_heap_e MAX fuel st ws :
  served MAX st ws -> (length ws < fuel)%nat ->
  validate_heap fuel st = Some (sizeUsed st <=? heapSize st).
Proof.
  intros Hserved Hfuel.
  pose proof (served_heap_ok_e MAX st ws Hserved)
    as (Hplaced & _ & Hshape & _)%heap_ok_spec_e.
  pose proof (reachable_budget MAX st (served_reachable MAX st ws Hserved))
    as (_ & _ & _ & Hsum).
  rewrite (validate_heap_shaped fuel st ws) by done.
  rewrite (Z.add_comm (freeSpace st)), Hsum, Z.eqb_refl.
  by rewrite andb_true_r.
Qed.

(** *** The first request after [myinit] *)

Section Fresh.

Variable MAX_REQUEST_SIZE : Z.

Lemma fresh_capacity_e fuel heap_start heap_size st r :
  0 < heap_start -> 24 <= heap_size -> heap_size mod 8 = 0 ->
  heap_start + heap_size < modulus ->
  0 < r <= SIZE_MAX - 7 -> (2 <= fuel)%nat ->
  exists ptr st',
    mymalloc MAX_REQUEST_SIZE fuel r (myinit heap_start heap_size st).2 = Some (ptr, st')
    /\ (ptr <> NULL <->
        roundup r <= MAX_REQUEST_SIZE /\ roundup r <= heap_size - 16)
    /\ (ptr <> NULL -> ptr = heap_start + 16).
Proof.
  intros Hpos Hsz Hszal Hend Hr Hfuel.
  destruct fuel as [| [| fuel]]; [lia | lia |].
  destruct (myinit_first_block heap_start heap_size st ltac:(unfold NULL; lia))
    as (st0 & Hinit & Hhs & Hhsz & Hused & Hfs & Hfe & Hhdr).
  rewrite Hinit. cbn [snd].
  destruct (roundup_low_e r Hr) as (Hrs8 & Hrsm & Hrle).
  pose proof (roundup_in_range_explicit r) as Hrr.
  assert (wrap (heap_size - 16) = heap_size - 16) as Hw by word_lia.
  assert (Z.land (heap_size - 16) 1 = 0) as Hflag by (rewrite land1_mod2; word_lia).
  unfold mymalloc. destruct (Z.eqb_spec r 0) as [| _]; [lia |].
  rewrite Hused, Hhsz, Z.add_0_r.
  replace (wrap (roundup r)) with (roundup r) by word_lia.
  destruct (Z.gtb_spec (roundup r) MAX_REQUEST_SIZE) as [Hbig | Hmax].
  { exists NULL, st0. cbn [orb]. split; [done |]. split; [| done].
    split; [done | lia]. }
  cbn [orb].
  destruct (Z.gtb_spec (roundup r) heap_size) as [Hbig | Hroom].
  { exists NULL, st0. split; [done |]. split; [| done]. split; [done | lia]. }
  rewrite malloc_loop_first_fit_explicit, Hfs, Hfe.
  rewrite (first_fit_single MAX_REQUEST_SIZE fuel)
    by (unfold NULL; lia || by rewrite Hhdr).
  rewrite Hhdr. cbn [h]. rewrite Hw, Hflag. change (0 =? 0) with true.
  assert ((heap_size >? 0) = true) as -> by (apply Z.gtb_lt; lia).
  assert ((roundup r <=? MAX_REQUEST_SIZE) = true) as -> by (by apply Z.leb_le).
  cbn [andb].
  destruct (Z.leb_spec (roundup r) (heap_size - 16)) as [Hfit | Hnofit].
  - rewrite Hhdr. cbn [h]. rewrite Hw.
    destruct (take_block _ _ _ _ _) as [ptr st'] eqn:Htake.
    pose proof (take_block_ptr heap_start
                  {| h := heap_size - 16; prev := NULL; next := NULL |}
                  (heap_size - 16) (roundup r) st0) as Hp.
    rewrite Htake in Hp. cbn [fst] in Hp.
    assert (ptr = heap_start + 16) as -> by (rewrite Hp; word_lia).
    exists (heap_start + 16), st'. split; [done |]. split; [| done].
    split; [done |]. intros _. unfold NULL. lia.
  - exists NULL, st0. split; [done |]. split; [| done]. split; [done | lia].
Qed.

End Fresh.

(** *** Release, then allocation *)

Section Reuse.

Variable MAX_REQUEST_SIZE : Z.

(** [mymalloc] succeeds when the last block is free and large enough and
    the counters leave room. *)
Lemma mymalloc_succeeds_e fuel r st pre wl :
  heap_ok st (pre ++ [wl]) = true -> Z.land wl 1 = 0 ->
  0 < r -> roundup r <= wl -> roundup r <= MAX_REQUEST_SIZE ->
  wrap (roundup r + sizeUsed st) <= heapSize st -> 0 < freeSpace st ->
  (2 <= fuel)%nat ->
  exists st',
    mymalloc MAX_REQUEST_SIZE fuel r st = Some (heapStart st + span pre + 16, st').
Proof.
  intros (Hplaced & _ & Hshape & _)%heap_ok_spec_e Hflag Hr Hfit Hmax Hroom Hspace Hfuel.
  destruct fuel as [| [| fuel]]; [lia | lia |].
  pose proof Hplaced as (Hpos & Hend & Hsz0)%placed_spec_e.
  assert (0 <= span pre) as Hpre by by apply (shaped_prefix_span st pre [wl] 0).
  pose proof (shaped_suffix st pre [wl] 0 Hshape ltac:(done)) as Hlast.
  apply shaped_last in Hlast as (Hlt & Hload & Htot & Hlinks).
  rewrite Hflag in Hlinks. cbn [Z.eqb Pos.eqb] in Hlinks.
  destruct Hlinks as (Hfe & _ & Hnext).
  rewrite (payload_of_free_e _ Hflag) in Htot.
  set (c := heapStart st + (0 + span pre)) in *.
  assert (padd (heapStart st) (0 + span pre) = c) as Hc by (subst c; word_lia).
  assert (padd (heapStart st) (0 + span pre + 16) = padd c 16) as Hc16
    by (subst c; word_lia).
  rewrite Hc in Hload. rewrite Hc16 in Hnext.
  unfold mymalloc. destruct (Z.eqb_spec r 0) as [| _]; [lia |].
  destruct (Z.gtb_spec (roundup r) MAX_REQUEST_SIZE) as [| _]; [lia |].
  destruct (Z.gtb_spec (wrap (roundup r + sizeUsed st)) (heapSize st)) as [| _]; [lia |].
  cbn [orb].
  rewrite malloc_loop_first_fit_explicit, Hfe. fold c.
  rewrite (first_fit_single MAX_REQUEST_SIZE fuel _ _ c)
    by (done || (subst c; unfold NULL; lia)).
  change (h (load_header (mem st) c)) with (load (mem st) c). rewrite Hload, Hflag.
  change (0 =? 0) with true.
  assert ((freeSpace st >? 0) = true) as -> by (apply Z.gtb_lt; lia).
  assert ((roundup r <=? MAX_REQUEST_SIZE) = true) as -> by (by apply Z.leb_le).
  assert ((roundup r <=? wl) = true) as -> by (by apply Z.leb_le).
  cbn [andb].
  pose proof (take_block_ptr c (load_header (mem st) c)
                (h (load_header (mem st) c)) (roundup r) st) as Hp.
  destruct (take_block _ _ _ _ _) as [ptr st'] eqn:Htake. cbn [fst] in Hp.
  assert (0 <= wl) as Hwl0
    by (pose proof (roundup_in_range_explicit r) as [? ?]; lia).
  exists st'. do 2 f_equal. rewrite Hp. subst c. word_lia.
Qed.

(** A block released at the end of the region, or in front of the free last
    block, can be allocated again: [mymalloc] of a request that fits it
    returns the same pointer. *)
Lemma myfree_mymalloc_e fuel r st ws k w :
  heap_ok st ws = true -> ws !! k = Some w -> Z.land w 1 = 1 ->
  (forall w', ws !! S k = Some w' -> Z.land w' 1 = 0) ->
  budget st -> payload_of w + 16 <= sizeUsed st <= heapSize st ->
  0 < r -> roundup r <= payload_of w -> roundup r <= MAX_REQUEST_SIZE ->
  (2 <= fuel)%nat ->
  exists st',
    mymalloc MAX_REQUEST_SIZE fuel r (myfree (payload_address st ws k) st)
    = Some (payload_address st ws k, st').
Proof.
  intros Hok Hk Hflag Hright (Hhr & Hur & Hfr & Hsum) Hused Hr Hfit Hmax Hfuel.
  pose proof (myfree_heap_ok_e st ws k w Hok Hk Hflag) as Hok1.
  pose proof Hok as (Hplaced & _ & Hshape & _)%heap_ok_spec_e.
  pose proof Hplaced as (Hpos & Hend & Hsz0)%placed_spec_e.
  destruct (shaped_lookup st ws k w Hshape Hk) as (Hoff & Hloadk & Hwr & Hpw & Hkend).
  set (old := payload_address st ws k) in *.
  assert (old = heapStart st + span (take k ws) + 16) as Hold by done.
  assert (old <> NULL) as Hnn by (rewrite Hold; unfold NULL; lia).
  pose proof (payload_of_allocated_e _ Hflag) as Hpay.
  (* the counters after the release *)
  destruct (myfree_counters old st Hnn) as (Hhs1 & Hsz1 & Hu1 & Hf1).
  change (h (load_header (mem st) ?a)) with (load (mem st) a) in Hu1, Hf1.
  assert (padd old (-16) = padd (heapStart st) (span (take k ws))) as Hoh
    by (rewrite Hold; word_lia).
  rewrite Hoh, Hloadk, <- Hpay in Hu1, Hf1.
  pose proof (roundup_in_range_explicit r) as Hrr.
  (* the blocks after the release *)
  pose proof (take_drop_middle ws k w Hk) as Hsplit.
  assert (length (take k ws) = k) as Hlen
    by (apply lookup_lt_Some in Hk; rewrite length_take; lia).
  assert (exists m, free_in k ws = take k ws ++ [m]
                    /\ Z.land m 1 = 0 /\ payload_of w <= m) as (m & Hfree & Hmflag & Hmsz).
  { pose proof (free_in_app (take k ws) (w :: drop (S k) ws)) as Hfi.
    rewrite Hlen, Hsplit in Hfi.
    destruct (drop (S k) ws) as [| w' rest] eqn:Hdrop.
    - exists (Z.lxor w 1). rewrite Hfi. cbn [free_in]. split; [done |].
      split; [by apply land1_clear_e | lia].
    - assert (ws !! S k = Some w') as Hk'.
      { pose proof (lookup_drop ws (S k) 0) as Hld. rewrite Hdrop in Hld.
        by rewrite Nat.add_0_r in Hld. }
      specialize (Hright w' Hk').
      rewrite <- Hsplit in Hshape.
      pose proof (shaped_suffix st _ (w :: w' :: rest) 0 Hshape ltac:(done)) as Hsuf.
      apply shaped_cons in Hsuf as (_ & _ & _ & _ & Hnext).
      destruct rest as [| w'' rest'];
        [| apply shaped_cons in Hnext as (_ & _ & Hbad & _); congruence].
      pose proof (shaped_head _ _ _ _ Hnext) as (_ & _ & Hwr' & _).
      exists (Z.lxor w 1 + (16 + w')). rewrite Hfi. cbn [free_in]. rewrite Hright.
      change (0 =? 0) with true. cbn iota. split; [done |].
      split; [rewrite land1_mod2 in *; rewrite lxor1_arith; word_lia |].
      destruct Hwr'. lia. }
  rewrite Hfree in Hok1.
  destruct (mymalloc_succeeds_e fuel r (myfree old st) (take k ws) m Hok1 Hmflag Hr
              ltac:(lia) Hmax) as (st' & Hm); [| | done |].
  - rewrite Hu1, Hsz1. word_lia.
  - rewrite Hf1. word_lia.
  - exists st'. rewrite Hm. do 2 f_equal. by rewrite Hhs1.
Qed.

End Reuse.

End ExplicitHeap.

(** * The claims *)

Import Scenario.

(** ** C1: the header width of the explicit variant *)

(** C1, as stated, fails.  With a header of 24 bytes the block written by
    [myinit] over a 4096-byte region would have a payload of 4096 - 24 bytes
    and [mymalloc] would return the base of the selected block plus 24.  The
    code writes a payload of 4080 = 4096 - 16, and the first [mymalloc(16)]
    selects the block at 4096 and returns 4112 = 4096 + 16. *)
Lemma C1_counterexample_header_is_not_24_bytes :
  (Explicit.myinit 4096 4096 E.blank).1 = true
  /\ Explicit.h (Explicit.load_header (Explicit.mem E.fresh) 4096) <> 4096 - 24
  /\ Explicit.first_fit LIMIT 8 (Explicit.roundup 16) (Explicit.freeSpace E.fresh)
       (Explicit.freeEnd E.fresh) (Explicit.mem E.fresh) = Some (Some 4096)
  /\ Explicit.mymalloc LIMIT 8 16 E.fresh = Some (4112, E.after_A)
  /\ 4112 <> 4096 + 24.
Proof. vm_compute. repeat split; done. Qed.

(** C1, amended: in the explicit variant the payload starts 16 bytes after
    the base of its block (the [next] link of the 24-byte header record lies
    over the first payload word).  A successful [myinit] leaves one free
    block, the only node of the free list, at the base of the region; its
    payload size is [heap_size - 16] and its links are null; and every
    non-null pointer returned by [mymalloc] is the base of the block the
    search selected plus 16. *)
Theorem C1_explicit_payload_offset_is_16 :
  (forall heap_start heap_size st,
      heap_start <> NULL -> in_range heap_size ->
      exists st',
        Explicit.myinit heap_start heap_size st = (true, st')
        /\ Explicit.chain (Explicit.mem st') (Explicit.freeEnd st') [heap_start] = true
        /\ Explicit.load_header (Explicit.mem st') heap_start
           = Explicit.mk_header (wrap (heap_size - 16)) NULL NULL
        /\ (16 <= heap_size ->
            Explicit.h (Explicit.load_header (Explicit.mem st') heap_start)
            = heap_size - 16))
  /\ (forall MAX fuel r st ptr st',
      Explicit.mymalloc MAX fuel r st = Some (ptr, st') -> ptr <> NULL ->
      exists cur,
        Explicit.first_fit MAX fuel (Explicit.roundup r) (Explicit.freeSpace st)
          (Explicit.freeEnd st) (Explicit.mem st) = Some (Some cur)
        /\ ptr = padd cur 16).
Proof.
  split.
  - intros heap_start heap_size st Hnull Hsz.
    destruct (ExplicitFacts.myinit_first_block heap_start heap_size st Hnull)
      as (st' & Hinit & _ & _ & _ & _ & Hhead & Hblock).
    exists st'. split; [done |]. split; [| split; [done |]].
    + cbn [Explicit.chain]. rewrite Hhead, Hblock. cbn [Explicit.next].
      rewrite Z.eqb_refl. apply Z.eqb_neq in Hnull. by rewrite Hnull.
    + intros Hbig. rewrite Hblock. simpl. word_lia.
  - intros MAX fuel r st ptr st'. apply ExplicitFacts.mymalloc_pointer.
Qed.

Lemma C1_witness :
  (exists st',
      Explicit.myinit 4096 4096 E.blank = (true, st')
      /\ Explicit.chain (Explicit.mem st') (Explicit.freeEnd st') [4096] = true
      /\ Explicit.load_header (Explicit.mem st') 4096
         = Explicit.mk_header (wrap (4096 - 16)) NULL NULL
      /\ (16 <= 4096 ->
          Explicit.h (Explicit.load_header (Explicit.mem st') 4096) = 4096 - 16))
  /\ (exists cur,
      Explicit.first_fit LIMIT 8 (Explicit.roundup 16) (Explicit.freeSpace E.fresh)
        (Explicit.freeEnd E.fresh) (Explicit.mem E.fresh) = Some (Some cur)
      /\ 4112 = padd cur 16).
Proof.
  split.
  - apply (proj1 C1_explicit_payload_offset_is_16 4096 4096 E.blank).
    + unfold NULL. lia.
    + unfold in_range, modulus. lia.
  - apply (proj2 C1_explicit_payload_offset_is_16 LIMIT 8%nat 16 E.fresh 4112 E.after_A).
    + vm_compute. reflexivity.
    + unfold NULL. lia.
Defined.

(** ** C2: freeing a block whose right neighbour is allocated *)

(** C2 at its failing input.  After [myinit] on 4096 bytes at 4096,
    [A = mymalloc(16)] and [B = mymalloc(16)], the right neighbour of [A] is
    [B], at 4128: inside the region and allocated.  [myfree(A)] moves 32
    bytes from one counter to the other and does nothing else: the header of
    [A] keeps its allocated flag and its links, no word of the region
    changes, and [freeEnd] still points at the block at 4160. *)
Theorem C2_free_before_allocated_neighbour_is_not_inserted :
  let st := E.after_AB in
  let st' := Explicit.myfree 4112 st in
  let payload := Z.lxor (Explicit.h (Explicit.load_header (Explicit.mem st) 4096)) 1 in
  (payload = 16
   /\ padd 4112 payload = 4128
   /\ 4128 < padd (Explicit.heapStart st) (Explicit.heapSize st)
   /\ Z.land (Explicit.h (Explicit.load_header (Explicit.mem st) 4128)) 1 = 1)
  /\ Z.land (Explicit.h (Explicit.load_header (Explicit.mem st') 4096)) 1 = 1
  /\ Explicit.mem st' = Explicit.mem st
  /\ Explicit.freeEnd st = 4160
  /\ Explicit.freeEnd st' = 4160
  /\ Explicit.sizeUsed st' = Explicit.sizeUsed st - 32
  /\ Explicit.freeSpace st' = Explicit.freeSpace st + 32.
Proof. vm_compute. repeat split; done. Qed.

(** ** C3: the free-list sum in the validator *)

(** C3 at its failing input, the state the run of C2 ends in.  The walk from
    [freeEnd] visits one free node and sums 4032 bytes, the counter
    [freeSpace] is 4064, and [validate_heap] returns true: the sum [freed] is
    accumulated and never compared. *)
Theorem C3_validator_accepts_free_list_sum_mismatch :
  let st := E.after_free_A in
  Explicit.validate_walk 8 (Explicit.freeEnd st) 0 st = Some (Some 4032)
  /\ Explicit.freeSpace st = 4064
  /\ Explicit.validate_heap 8 st = Some true.
Proof. vm_compute. repeat split; done. Qed.

(** ** C4: reallocate when the old block already suffices *)

(** C4 at its failing inputs.  The implicit [myrealloc] looks at the old
    block only inside the scan, once a free block that fits has been
    selected, and then tests [old_payload > new_size] instead of
    [old_payload >= requested_size], although its comment reads "If current
    block is large enough, return without reallocating".
    - In the fragmented region the block of [b] (payload address 4120) has a
      payload of 16 bytes, [myrealloc(b, 9)] rounds to 16 and passes both
      size checks, the only free block has 8 bytes: the call returns the
      null pointer.
    - After [p = mymalloc(16)] on the fresh region, [myrealloc(p, 16)]
      rounds to 16, which the block of [p] holds: the call moves the block
      and returns 4128, not [p].
    The explicit [myrealloc] tests the old block in front of its loop: with
    no free block at all (the crowded region) [myrealloc(A, 9)] returns [A]
    and leaves the state as it is. *)
Theorem C4_implicit_realloc_tests_the_old_block_too_late :
  (4120 <> NULL /\ 9 <> 0
   /\ Implicit.roundup 9 = 16
   /\ Z.lxor (load (Implicit.mem I.fragmented) (padd 4120 (-8))) 1 = 16
   /\ Implicit.roundup 9 <= LIMIT
   /\ wrap (Implicit.roundup 9 + Implicit.sizeUsed I.fragmented)
      <= Implicit.heapSize I.fragmented
   /\ Implicit.myrealloc LIMIT 8 4120 9 I.fragmented = Some (NULL, I.fragmented))
  /\ (4104 <> NULL /\ 16 <> 0
      /\ Implicit.roundup 16 = 16
      /\ Z.lxor (load (Implicit.mem I.after_16) (padd 4104 (-8))) 1 = 16
      /\ Implicit.roundup 16 <= LIMIT
      /\ wrap (Implicit.roundup 16 + Implicit.sizeUsed I.after_16)
         <= Implicit.heapSize I.after_16
      /\ exists st',
           Implicit.myrealloc LIMIT 8 4104 16 I.after_16 = Some (4128, st')
           /\ 4128 <> 4104)
  /\ (4112 <> NULL /\ 9 <> 0
      /\ Explicit.roundup 9 = 16
      /\ Z.lxor (Explicit.h (Explicit.load_header (Explicit.mem E.crowded)
                                                  (padd 4112 (-16)))) 1 = 16
      /\ Explicit.freeEnd E.crowded = NULL
      /\ Explicit.myrealloc LIMIT 8 4112 9 E.crowded = Some (4112, E.crowded)).
Proof.
  split; [| split].
  - vm_compute. repeat split; done.
  - do 6 (split; [vm_compute; done |]).
    eexists. split; [vm_compute; reflexivity | done].
  - vm_compute. repeat split; done.
Qed.

(** ** C5: when allocate returns the null pointer *)

(** C5: in both variants [mymalloc(r)] returns the null pointer exactly when
    [r = 0], or the rounded size exceeds [MAX_REQUEST_SIZE], or the rounded
    size plus [sizeUsed] (in [size_t] arithmetic) exceeds [heapSize], or no
    free block has a payload of at least the rounded size; and when it
    returns the null pointer the state is the state before the call.

    The free blocks are, in the explicit variant, the nodes of the free list
    (a null-terminated chain from [freeEnd] whose bytes do not exceed
    [freeSpace], each node with an addressable payload); in the implicit
    variant, the free blocks among those that tile the region (which lies
    inside the address space).  With more fuel than blocks the loop always
    returns. *)
Theorem C5_allocate_returns_null_exactly_when :
  (forall MAX fuel r st nodes,
      Explicit.chain (Explicit.mem st) (Explicit.freeEnd st) nodes = true ->
      Explicit.list_bytes (Explicit.mem st) nodes <= Explicit.freeSpace st ->
      in_range (Explicit.freeSpace st) ->
      forallb Explicit.addressable nodes = true ->
      (length nodes < fuel)%nat ->
      exists ptr st',
        Explicit.mymalloc MAX fuel r st = Some (ptr, st')
        /\ (ptr = NULL <->
            r = 0 \/ Explicit.roundup r > MAX
            \/ wrap (Explicit.roundup r + Explicit.sizeUsed st) > Explicit.heapSize st
            \/ forallb (fun n => negb (Explicit.fits (Explicit.mem st) (Explicit.roundup r) n))
                       nodes = true)
        /\ (ptr = NULL -> st' = st))
  /\ (forall MAX fuel r st ws,
      Implicit.placed st = true -> Implicit.tiles st 0 ws = true ->
      (length ws < fuel)%nat ->
      exists ptr st',
        Implicit.mymalloc MAX fuel r st = Some (ptr, st')
        /\ (ptr = NULL <->
            r = 0 \/ Implicit.roundup r > MAX
            \/ wrap (Implicit.roundup r + Implicit.sizeUsed st) > Implicit.heapSize st
            \/ forallb (fun w => negb (Implicit.fits (Implicit.roundup r) w)) ws = true)
        /\ (ptr = NULL -> st' = st)).
Proof.
  split.
  - intros MAX fuel r st nodes. apply ExplicitFacts.mymalloc_null_iff_explicit.
  - intros MAX fuel r st ws. apply ImplicitFacts.mymalloc_null_iff_implicit.
Qed.

Lemma C5_witness :
  (exists ptr st',
      Explicit.mymalloc LIMIT 8 5000 E.after_AB = Some (ptr, st')
      /\ (ptr = NULL <->
          5000 = 0 \/ Explicit.roundup 5000 > LIMIT
          \/ wrap (Explicit.roundup 5000 + Explicit.sizeUsed E.after_AB)
             > Explicit.heapSize E.after_AB
          \/ forallb (fun n => negb (Explicit.fits (Explicit.mem E.after_AB)
                                       (Explicit.roundup 5000) n)) [4160] = true)
      /\ (ptr = NULL -> st' = E.after_AB))
  /\ (exists ptr st',
      Implicit.mymalloc LIMIT 8 16 I.after_16 = Some (ptr, st')
      /\ (ptr = NULL <->
          16 = 0 \/ Implicit.roundup 16 > LIMIT
          \/ wrap (Implicit.roundup 16 + Implicit.sizeUsed I.after_16)
             > Implicit.heapSize I.after_16
          \/ forallb (fun w => negb (Implicit.fits (Implicit.roundup 16) w))
                     [17; 4064] = true)
      /\ (ptr = NULL -> st' = I.after_16)).
Proof.
  split.
  - apply (proj1 C5_allocate_returns_null_exactly_when LIMIT 8%nat 5000 E.after_AB [4160]).
    + vm_compute. reflexivity.
    + apply Z.leb_le. vm_compute. reflexivity.
    + split; [apply Z.leb_le | apply Z.ltb_lt]; vm_compute; reflexivity.
    + vm_compute. reflexivity.
    + simpl. lia.
  - apply (proj2 C5_allocate_returns_null_exactly_when LIMIT 8%nat 16 I.after_16 [17; 4064]).
    + vm_compute. reflexivity.
    + vm_compute. reflexivity.
    + simpl. lia.
Defined.

(** ** C6: the two counters *)

(** C6: in the explicit variant, in every state reached by a successful
    [myinit] followed by any calls of [mymalloc], [myfree] and [myrealloc],
    [sizeUsed + freeSpace = heapSize] holds in [size_t] arithmetic, which is
    the comparison [validate_heap] makes; and it holds in the integers
    whenever [sizeUsed] does not exceed [heapSize]. *)
Theorem C6_used_plus_free_is_length :
  forall MAX st,
    Explicit.reachable MAX st ->
    wrap (Explicit.sizeUsed st + Explicit.freeSpace st) = Explicit.heapSize st
    /\ (Explicit.sizeUsed st <= Explicit.heapSize st ->
        Explicit.sizeUsed st + Explicit.freeSpace st = Explicit.heapSize st).
Proof.
  intros MAX st Hreach.
  apply ExplicitFacts.reachable_budget in Hreach as (Hh & Hu & Hf & Hsum).
  split; [done |]. intros Hle. word_lia.
Qed.

Lemma C6_witness :
  wrap (Explicit.sizeUsed E.after_free_A + Explicit.freeSpace E.after_free_A)
  = Explicit.heapSize E.after_free_A
  /\ (Explicit.sizeUsed E.after_free_A <= Explicit.heapSize E.after_free_A ->
      Explicit.sizeUsed E.after_free_A + Explicit.freeSpace E.after_free_A
      = Explicit.heapSize E.after_free_A).
Proof.
  apply (C6_used_plus_free_is_length LIMIT E.after_free_A).
  apply Explicit.reach_free.
  apply (Explicit.reach_malloc LIMIT 8%nat 16 E.after_A 4144 E.after_AB).
  - apply (Explicit.reach_malloc LIMIT 8%nat 16 E.fresh 4112 E.after_A).
    + apply (Explicit.reach_init LIMIT 4096 4096 E.blank E.fresh).
      * unfold modulus. lia.
      * vm_compute. reflexivity.
    + vm_compute. reflexivity.
  - vm_compute. reflexivity.
Defined.

(** ** C7: reallocate to size zero *)

(** C7 at its failing input.  After [myinit] on 4096 bytes at 4096,
    [A = mymalloc(16)] and [B = mymalloc(16)], the explicit
    [myrealloc(A, 0)] returns [A], as C7 says, but it does not free it: the
    right neighbour of [A] is [B], inside the region and allocated, and
    [myfree] then only moves 32 bytes from one counter to the other.  The
    header of [A] keeps its allocated flag, no word of the region changes,
    the free list is what it was, and the next [mymalloc(16)] is served
    behind [B], at 4176.  In the implicit variant the same call clears the
    flag of the block, and the next [mymalloc(16)] returns the pointer
    again. *)
Theorem C7_explicit_realloc_zero_leaves_the_block_allocated :
  (exists st',
      Explicit.myrealloc LIMIT 8 4112 0 E.after_AB = Some (4112, st')
      /\ 4112 <> NULL
      /\ 4128 < padd (Explicit.heapStart E.after_AB) (Explicit.heapSize E.after_AB)
      /\ Z.land (Explicit.h (Explicit.load_header (Explicit.mem E.after_AB) 4128)) 1 = 1
      /\ Z.land (Explicit.h (Explicit.load_header (Explicit.mem st') 4096)) 1 = 1
      /\ Explicit.mem st' = Explicit.mem E.after_AB
      /\ Explicit.freeEnd st' = Explicit.freeEnd E.after_AB
      /\ Explicit.freeEnd st' = 4160
      /\ Explicit.sizeUsed st' = Explicit.sizeUsed E.after_AB - 32
      /\ Explicit.freeSpace st' = Explicit.freeSpace E.after_AB + 32
      /\ exists st'', Explicit.mymalloc LIMIT 8 16 st' = Some (4176, st''))
  /\ (exists st',
      Implicit.myrealloc LIMIT 8 4104 0 I.after_16 = Some (4104, st')
      /\ Z.land (load (Implicit.mem I.after_16) 4096) 1 = 1
      /\ load (Implicit.mem st') 4096 = 16
      /\ Implicit.sizeUsed st' = Implicit.sizeUsed I.after_16 - 24
      /\ exists st'', Implicit.mymalloc LIMIT 8 16 st' = Some (4104, st'')).
Proof.
  split.
  - eexists. split; [vm_compute; reflexivity |].
    do 9 (split; [vm_compute; done |]).
    eexists. vm_compute. reflexivity.
  - eexists. split; [vm_compute; reflexivity |].
    do 3 (split; [vm_compute; done |]).
    eexists. vm_compute. reflexivity.
Qed.

(** ** C8: allocate, then free *)

(** C8: in both variants, when [mymalloc(r)] returns a non-null pointer,
    [myfree] of that pointer right away brings [sizeUsed] back to its value
    before the [mymalloc]; whether the placement split the block or took it
    whole makes no difference.  The statics hold 64-bit values. *)
Theorem C8_allocate_then_free_restores_used :
  (forall MAX fuel r st ptr st',
      in_range (Explicit.sizeUsed st) -> in_range (Explicit.freeEnd st) ->
      Explicit.mymalloc MAX fuel r st = Some (ptr, st') -> ptr <> NULL ->
      Explicit.sizeUsed (Explicit.myfree ptr st') = Explicit.sizeUsed st)
  /\ (forall MAX fuel r st ptr st',
      in_range (Implicit.sizeUsed st) ->
      Implicit.mymalloc MAX fuel r st = Some (ptr, st') -> ptr <> NULL ->
      Implicit.sizeUsed (Implicit.myfree ptr st') = Implicit.sizeUsed st).
Proof.
  split.
  - intros MAX fuel r st ptr st'. apply ExplicitFacts.mymalloc_myfree_used_explicit.
  - intros MAX fuel r st ptr st'. apply ImplicitFacts.mymalloc_myfree_used_implicit.
Qed.

(** The witness runs both paths in both variants: a request of 16 bytes
    splits the block of a 4096-byte region and takes the block of the small
    regions whole. *)
Lemma C8_witness :
  (Explicit.sizeUsed (Explicit.myfree 4144 E.after_AB) = Explicit.sizeUsed E.after_A
   /\ Explicit.sizeUsed
        (Explicit.myfree 4112 (state_after (Explicit.mymalloc LIMIT 8 16 E.tiny) E.blank))
      = Explicit.sizeUsed E.tiny)
  /\ (Implicit.sizeUsed (Implicit.myfree 4104 I.after_16) = Implicit.sizeUsed I.fresh
      /\ Implicit.sizeUsed
           (Implicit.myfree 4104 (state_after (Implicit.mymalloc LIMIT 8 16 I.tiny) I.blank))
         = Implicit.sizeUsed I.tiny).
Proof.
  split; split.
  - apply (proj1 C8_allocate_then_free_restores_used LIMIT 8%nat 16 E.after_A 4144 E.after_AB).
    + split; [apply Z.leb_le | apply Z.ltb_lt]; vm_compute; reflexivity.
    + split; [apply Z.leb_le | apply Z.ltb_lt]; vm_compute; reflexivity.
    + vm_compute. reflexivity.
    + unfold NULL. lia.
  - apply (proj1 C8_allocate_then_free_restores_used LIMIT 8%nat 16 E.tiny 4112).
    + split; [apply Z.leb_le | apply Z.ltb_lt]; vm_compute; reflexivity.
    + split; [apply Z.leb_le | apply Z.ltb_lt]; vm_compute; reflexivity.
    + vm_compute. reflexivity.
    + unfold NULL. lia.
  - apply (proj2 C8_allocate_then_free_restores_used LIMIT 8%nat 16 I.fresh 4104 I.after_16).
    + split; [apply Z.leb_le | apply Z.ltb_lt]; vm_compute; reflexivity.
    + vm_compute. reflexivity.
    + unfold NULL. lia.
  - apply (proj2 C8_allocate_then_free_restores_used LIMIT 8%nat 16 I.tiny 4104).
    + split; [apply Z.leb_le | apply Z.ltb_lt]; vm_compute; reflexivity.
    + vm_compute. reflexivity.
    + unfold NULL. lia.
Defined.

(** ** C9: requests in the top seven values of [size_t] *)

(** C9, as stated, fails.  In the implicit variant, after [p = mymalloc(8)]
    and [myfree(p)] the first block is free with a payload of 8 bytes.
    [mymalloc(SIZE_MAX)] rounds the request to 0, selects that block, does
    not split it (8 - 0 < 16) and returns [p]: a pointer to a payload of 8
    bytes, not of zero bytes. *)
Lemma C9_counterexample_whole_block_is_returned :
  SIZE_MAX - 7 < SIZE_MAX <= SIZE_MAX
  /\ Implicit.roundup SIZE_MAX = 0
  /\ Implicit.tiles I.after_small_freed 0 [8; 4072] = true
  /\ exists st',
       Implicit.mymalloc LIMIT 8 SIZE_MAX I.after_small_freed = Some (4104, st')
       /\ 4104 <> NULL
       /\ Z.land (load (Implicit.mem st') (padd 4104 (-8))) 1 = 1
       /\ Z.lxor (load (Implicit.mem st') (padd 4104 (-8))) 1 = 8
       /\ 8 <> 0.
Proof.
  split; [unfold SIZE_MAX, modulus; lia |].
  split; [vm_compute; reflexivity |].
  split; [vm_compute; reflexivity |].
  eexists. split; [vm_compute; reflexivity |].
  vm_compute. repeat split; done.
Qed.

(** C9, amended: for every request [r] in the top seven values of [size_t]
    both [roundup] functions return 0, so in the implicit variant, with
    [sizeUsed <= heapSize] and a non-negative [MAX_REQUEST_SIZE], the call
    passes both size checks and, whenever at least one free block exists,
    [mymalloc(r)] returns a non-null pointer instead of failing: the payload
    address of the first free block in address order.  When that block has
    a payload of at least 16 bytes it is split: the block handed out has a
    zero-byte payload, and the remainder, free with 8 bytes less, has its
    header at the returned address itself.  Otherwise the block is handed
    out whole, with the payload it had.  Either way the region stays tiled,
    [sizeUsed] grows by the header and the payload handed out, and no word
    outside the selected block changes. *)
Theorem C9_top_requests_round_to_zero_and_succeed :
  forall r,
    SIZE_MAX - 7 < r <= SIZE_MAX ->
    (Implicit.roundup r = 0 /\ Explicit.roundup r = 0)
    /\ (forall MAX fuel st ws,
        0 <= MAX -> Implicit.placed st = true ->
        Implicit.sizeUsed st <= Implicit.heapSize st ->
        Implicit.tiles st 0 ws = true ->
        existsb (fun w => Z.land w 1 =? 0) ws = true ->
        (length ws < fuel)%nat ->
        exists n w ptr st',
          ws !! n = Some w /\ Z.land w 1 = 0
          /\ (forall m x, (m < n)%nat -> ws !! m = Some x -> Z.land x 1 = 1)
          /\ Implicit.mymalloc MAX fuel r st = Some (ptr, st') /\ ptr <> NULL
          /\ ptr = Implicit.payload_address st ws n
          /\ (if w >=? 16
              then load (Implicit.mem st') (ptr - 8) = 1
                   /\ load (Implicit.mem st') ptr = w - 8
                   /\ Implicit.tiles st' 0 (take n ws ++ [1; w - 8] ++ drop (S n) ws)
                      = true
              else load (Implicit.mem st') (ptr - 8) = Z.lxor w 1
                   /\ Implicit.tiles st' 0 (take n ws ++ [Z.lxor w 1] ++ drop (S n) ws)
                      = true)
          /\ Implicit.sizeUsed st'
             = wrap (Implicit.sizeUsed st + (8 + (if w >=? 16 then 0 else w)))
          /\ (forall a, a < ptr - 8 \/ ptr + w <= a ->
                load (Implicit.mem st') a = load (Implicit.mem st) a)).
Proof.
  intros r Hr. split.
  - split; [by apply ImplicitFacts.roundup_top_implicit
           | by apply ExplicitFacts.roundup_top_explicit].
  - intros MAX fuel st ws. by apply ImplicitHeap.mymalloc_top_request_first_free.
Qed.

Lemma C9_witness :
  (Implicit.roundup SIZE_MAX = 0 /\ Explicit.roundup SIZE_MAX = 0)
  /\ (exists n w ptr st',
        [17; 4064] !! n = Some w /\ Z.land w 1 = 0
        /\ (forall m x, (m < n)%nat -> [17; 4064] !! m = Some x -> Z.land x 1 = 1)
        /\ Implicit.mymalloc LIMIT 8 SIZE_MAX I.after_16 = Some (ptr, st')
        /\ ptr <> NULL
        /\ ptr = Implicit.payload_address I.after_16 [17; 4064] n
        /\ (if w >=? 16
            then load (Implicit.mem st') (ptr - 8) = 1
                 /\ load (Implicit.mem st') ptr = w - 8
                 /\ Implicit.tiles st' 0
                      (take n [17; 4064] ++ [1; w - 8] ++ drop (S n) [17; 4064]) = true
            else load (Implicit.mem st') (ptr - 8) = Z.lxor w 1
                 /\ Implicit.tiles st' 0
                      (take n [17; 4064] ++ [Z.lxor w 1] ++ drop (S n) [17; 4064])
                    = true)
        /\ Implicit.sizeUsed st'
           = wrap (Implicit.sizeUsed I.after_16 + (8 + (if w >=? 16 then 0 else w)))
        /\ (forall a, a < ptr - 8 \/ ptr + w <= a ->
              load (Implicit.mem st') a = load (Implicit.mem I.after_16) a)).
Proof.
  assert (SIZE_MAX - 7 < SIZE_MAX <= SIZE_MAX) as Hr by (unfold SIZE_MAX, modulus; lia).
  split.
  - apply (C9_top_requests_round_to_zero_and_succeed SIZE_MAX Hr).
  - apply (proj2 (C9_top_requests_round_to_zero_and_succeed SIZE_MAX Hr)
             LIMIT 8%nat I.after_16 [17; 4064]).
    + unfold LIMIT. lia.
    + vm_compute. reflexivity.
    + apply Z.leb_le. vm_compute. reflexivity.
    + vm_compute. reflexivity.
    + vm_compute. reflexivity.
    + simpl. lia.
Defined.

(** ** C10: reallocate of the null pointer to size zero *)

(** C10: in both variants [myrealloc(NULL, 0)] returns the null pointer and
    leaves the state alone.  The zero-size case of [myrealloc] needs a
    non-null [old_ptr], so the call goes on to the size check and to
    [mymalloc(0)], and [mymalloc] rejects a request of zero bytes. *)
Theorem C10_realloc_null_zero_returns_null :
  forall MAX fuel,
    (forall st, Explicit.myrealloc MAX fuel NULL 0 st = Some (NULL, st))
    /\ (forall st, Implicit.myrealloc MAX fuel NULL 0 st = Some (NULL, st))
    /\ (forall st, Explicit.mymalloc MAX fuel 0 st = Some (NULL, st))
    /\ (forall st, Implicit.mymalloc MAX fuel 0 st = Some (NULL, st)).
Proof.
  intros MAX fuel. split; [| split; [| split]]; intros st.
  - apply ExplicitFacts.myrealloc_null_zero_explicit.
  - apply ImplicitFacts.myrealloc_null_zero_implicit.
  - reflexivity.
  - reflexivity.
Qed.

(** * Further properties *)

(** ** Rounding *)

(** X1: for every request of at most [SIZE_MAX - 7] bytes both [roundup]
    functions return the least multiple of 8 that is not below the request:
    a multiple of 8 in the interval from [n] to [n + 7]. *)
Theorem X1_roundup_is_least_multiple_of_8 :
  forall n,
    0 <= n <= SIZE_MAX - 7 ->
    (Implicit.roundup n mod 8 = 0 /\ n <= Implicit.roundup n < n + 8)
    /\ (Explicit.roundup n mod 8 = 0 /\ n <= Explicit.roundup n < n + 8).
Proof.
  intros n Hn. unfold Implicit.roundup, Explicit.roundup.
  rewrite MachineFacts.round_expr_low by done. word_lia.
Qed.

Lemma X1_witness :
  (Implicit.roundup 13 mod 8 = 0 /\ 13 <= Implicit.roundup 13 < 13 + 8)
  /\ (Explicit.roundup 13 mod 8 = 0 /\ 13 <= Explicit.roundup 13 < 13 + 8).
Proof.
  apply (X1_roundup_is_least_multiple_of_8 13).
  unfold SIZE_MAX, modulus. lia.
Defined.

(** ** implicit.c *)

(** X2: [myinit] of the implicit variant on an 8-aligned region of at least
    8 bytes, a multiple of 8, inside the address space succeeds and leaves a
    well-formed region: one free block whose payload is the region less the
    8 bytes of its header, and [sizeUsed = 0]. *)
Theorem X2_implicit_init_gives_one_free_block :
  forall heap_start heap_size st,
    0 < heap_start -> heap_start mod 8 = 0 ->
    8 <= heap_size -> heap_size mod 8 = 0 ->
    heap_start + heap_size < modulus ->
    (Implicit.myinit heap_start heap_size st).1 = true
    /\ Implicit.heap_ok (Implicit.myinit heap_start heap_size st).2 [heap_size - 8]
       = true.
Proof. intros. by apply ImplicitHeap.myinit_heap_ok. Qed.

Lemma X2_witness :
  (Implicit.myinit 4096 4096 I.blank).1 = true
  /\ Implicit.heap_ok (Implicit.myinit 4096 4096 I.blank).2 [4096 - 8] = true.
Proof.
  apply (X2_implicit_init_gives_one_free_block 4096 4096 I.blank).
  - lia.
  - reflexivity.
  - lia.
  - reflexivity.
  - unfold modulus. lia.
Defined.

(** X3: on a well-formed region [mymalloc] of the implicit variant returns
    (given fuel for one pass over the blocks); when it returns the null
    pointer the state is unchanged, and otherwise the region is well-formed
    again with the first block that fits either flagged as a whole or split
    into an allocated block of the rounded size and a free remainder, and
    [sizeUsed] is again the bytes of the allocated blocks. *)
Theorem X3_implicit_malloc_keeps_region_well_formed :
  forall MAX fuel r st ws,
    Implicit.heap_ok st ws = true -> (length ws < fuel)%nat ->
    exists ptr st',
      Implicit.mymalloc MAX fuel r st = Some (ptr, st')
      /\ (ptr = NULL -> st' = st)
      /\ (ptr <> NULL ->
          Implicit.heap_ok st' (Implicit.allocate_in (Implicit.roundup r) ws) = true).
Proof. intros. by apply ImplicitHeap.mymalloc_heap_ok. Qed.

Lemma X3_witness :
  exists ptr st',
    Implicit.mymalloc LIMIT 8 24 I.after_16 = Some (ptr, st')
    /\ (ptr = NULL -> st' = I.after_16)
    /\ (ptr <> NULL ->
        Implicit.heap_ok st' (Implicit.allocate_in (Implicit.roundup 24) [17; 4064])
        = true).
Proof.
  apply (X3_implicit_malloc_keeps_region_well_formed LIMIT 8%nat 24 I.after_16 [17; 4064]).
  - vm_compute. reflexivity.
  - simpl. lia.
Defined.

(** X4: a pointer returned by [mymalloc] of the implicit variant on a
    well-formed region is 8-aligned, lies at least 8 bytes into the region,
    and the rounded request starting there ends inside the region; the
    block in front of it was free and at least as large as the rounded
    request. *)
Theorem X4_implicit_malloc_pointer_is_aligned_and_inside :
  forall MAX fuel r st ws ptr st',
    Implicit.heap_ok st ws = true -> (length ws < fuel)%nat ->
    Implicit.mymalloc MAX fuel r st = Some (ptr, st') -> ptr <> NULL ->
    Implicit.heapStart st + 8 <= ptr
    /\ ptr + Implicit.roundup r <= Implicit.heapStart st + Implicit.heapSize st
    /\ ptr mod 8 = 0
    /\ Z.land (load (Implicit.mem st) (ptr - 8)) 1 = 0
    /\ Implicit.roundup r <= load (Implicit.mem st) (ptr - 8).
Proof. intros. by eapply ImplicitHeap.mymalloc_pointer_in_region. Qed.

Lemma X4_witness :
  Implicit.heapStart I.after_16 + 8 <= 4128
  /\ 4128 + Implicit.roundup 24
     <= Implicit.heapStart I.after_16 + Implicit.heapSize I.after_16
  /\ 4128 mod 8 = 0
  /\ Z.land (load (Implicit.mem I.after_16) (4128 - 8)) 1 = 0
  /\ Implicit.roundup 24 <= load (Implicit.mem I.after_16) (4128 - 8).
Proof.
  apply (X4_implicit_malloc_pointer_is_aligned_and_inside
           LIMIT 8%nat 24 I.after_16 [17; 4064] 4128
           (state_after (Implicit.mymalloc LIMIT 8 24 I.after_16) I.blank)).
  - vm_compute. reflexivity.
  - simpl. lia.
  - vm_compute. reflexivity.
  - unfold NULL. lia.
Defined.

(** X5: on a well-formed region [mymalloc] of the implicit variant is
    first fit: the pointer it returns is the payload address of the first
    block, in address order, that is free and at least as large as the
    rounded request; and the call changes no word of memory outside that
    block, so every other payload is left as it was. *)
Theorem X5_implicit_malloc_is_first_fit_and_writes_inside_the_block :
  forall MAX fuel r st ws ptr st',
    Implicit.heap_ok st ws = true -> (length ws < fuel)%nat ->
    Implicit.mymalloc MAX fuel r st = Some (ptr, st') -> ptr <> NULL ->
    exists n w,
      ws !! n = Some w /\ Z.land w 1 = 0 /\ Implicit.roundup r <= w
      /\ ptr = Implicit.payload_address st ws n
      /\ (forall m x, (m < n)%nat -> ws !! m = Some x ->
            Implicit.fits (Implicit.roundup r) x = false)
      /\ (forall a, a < ptr - 8 \/ ptr + w <= a ->
            load (Implicit.mem st') a = load (Implicit.mem st) a).
Proof. intros. by eapply ImplicitHeap.mymalloc_first_fit. Qed.

Lemma X5_witness :
  exists n w,
    [17; 4064] !! n = Some w /\ Z.land w 1 = 0 /\ Implicit.roundup 24 <= w
    /\ 4128 = Implicit.payload_address I.after_16 [17; 4064] n
    /\ (forall m x, (m < n)%nat -> [17; 4064] !! m = Some x ->
          Implicit.fits (Implicit.roundup 24) x = false)
    /\ (forall a, a < 4128 - 8 \/ 4128 + w <= a ->
          load (Implicit.mem (state_after (Implicit.mymalloc LIMIT 8 24 I.after_16)
                                          I.blank)) a
          = load (Implicit.mem I.after_16) a).
Proof.
  apply (X5_implicit_malloc_is_first_fit_and_writes_inside_the_block
           LIMIT 8%nat 24 I.after_16 [17; 4064] 4128
           (state_after (Implicit.mymalloc LIMIT 8 24 I.after_16) I.blank)).
  - vm_compute. reflexivity.
  - simpl. lia.
  - vm_compute. reflexivity.
  - unfold NULL. lia.
Defined.

(** X6: whenever [mymalloc] of the implicit variant returns a pointer, the
    header 8 bytes in front of it was flagged free before the call and is
    flagged allocated after it, and the payload size it records is at least
    the rounded request and at most the size of the block that was
    selected. *)
Theorem X6_implicit_malloc_flags_the_block_it_returns :
  forall MAX fuel r st ptr st',
    Implicit.mymalloc MAX fuel r st = Some (ptr, st') -> ptr <> NULL ->
    let header := padd ptr (-8) in
    Z.land (load (Implicit.mem st) header) 1 = 0
    /\ Z.land (load (Implicit.mem st') header) 1 = 1
    /\ Implicit.roundup r <= Z.lxor (load (Implicit.mem st') header) 1
       <= load (Implicit.mem st) header.
Proof. intros MAX fuel r st ptr st'. apply ImplicitHeap.mymalloc_block. Qed.

Lemma X6_witness :
  let header := padd 4104 (-8) in
  Z.land (load (Implicit.mem I.fresh) header) 1 = 0
  /\ Z.land (load (Implicit.mem I.after_16) header) 1 = 1
  /\ Implicit.roundup 16 <= Z.lxor (load (Implicit.mem I.after_16) header) 1
     <= load (Implicit.mem I.fresh) header.
Proof.
  apply (X6_implicit_malloc_flags_the_block_it_returns LIMIT 8%nat 16 I.fresh 4104
           I.after_16).
  - vm_compute. reflexivity.
  - unfold NULL. lia.
Defined.

(** X7: [myfree] of the implicit variant on the payload address of an
    allocated block of a well-formed region clears the flag of that block,
    lowers [sizeUsed] by the payload plus the 8 bytes of the header, leaves
    the region well-formed with every other block as it was (no block is
    merged), and changes no word of memory other than that header. *)
Theorem X7_implicit_free_clears_the_flag_of_one_block :
  forall st ws k w,
    Implicit.heap_ok st ws = true -> ws !! k = Some w -> Z.land w 1 = 1 ->
    Implicit.heap_ok (Implicit.myfree (Implicit.payload_address st ws k) st)
                     (<[k := Z.lxor w 1]> ws) = true
    /\ Implicit.sizeUsed (Implicit.myfree (Implicit.payload_address st ws k) st)
       = Implicit.sizeUsed st - (Implicit.payload_of w + 8)
    /\ (forall a, a <> Implicit.payload_address st ws k - 8 ->
          load (Implicit.mem (Implicit.myfree (Implicit.payload_address st ws k) st)) a
          = load (Implicit.mem st) a).
Proof.
  intros st ws k w Hok Hk Hflag.
  destruct (ImplicitHeap.myfree_heap_ok st ws k w Hok Hk Hflag) as [Hok' Hused].
  split; [done |]. split; [done |].
  by apply (ImplicitHeap.myfree_frame st ws k w).
Qed.

Lemma X7_witness :
  Implicit.heap_ok
    (Implicit.myfree (Implicit.payload_address I.after_16 [17; 4064] 0) I.after_16)
    (<[0%nat := Z.lxor 17 1]> [17; 4064]) = true
  /\ Implicit.sizeUsed
       (Implicit.myfree (Implicit.payload_address I.after_16 [17; 4064] 0) I.after_16)
     = Implicit.sizeUsed I.after_16 - (Implicit.payload_of 17 + 8)
  /\ (forall a, a <> Implicit.payload_address I.after_16 [17; 4064] 0 - 8 ->
        load (Implicit.mem
                (Implicit.myfree (Implicit.payload_address I.after_16 [17; 4064] 0)
                                 I.after_16)) a
        = load (Implicit.mem I.after_16) a).
Proof.
  apply (X7_implicit_free_clears_the_flag_of_one_block I.after_16 [17; 4064] 0%nat 17).
  - vm_compute. reflexivity.
  - reflexivity.
  - reflexivity.
Defined.

(** X8: on a region that is tiled by blocks, [validate_heap] of the
    implicit variant returns (given fuel for one pass over the blocks) and
    its answer is exactly whether [sizeUsed] equals the bytes, headers
    included, of the blocks flagged allocated. *)
Theorem X8_implicit_validator_compares_sizeUsed_with_the_blocks :
  forall fuel st ws,
    Implicit.placed st = true -> Implicit.tiles st 0 ws = true ->
    (length ws < fuel)%nat ->
    Implicit.validate_heap fuel st
    = Some (Implicit.sizeUsed st =? Implicit.used_bytes ws).
Proof. intros. by apply ImplicitHeap.validate_heap_tiles. Qed.

Lemma X8_witness :
  Implicit.validate_heap 8 I.after_16
  = Some (Implicit.sizeUsed I.after_16 =? Implicit.used_bytes [17; 4064]).
Proof.
  apply (X8_implicit_validator_compares_sizeUsed_with_the_blocks 8%nat I.after_16
           [17; 4064]).
  - vm_compute. reflexivity.
  - vm_compute. reflexivity.
  - simpl. lia.
Defined.

(** X9: [myrealloc] of the implicit variant, called on an allocated block of
    a well-formed region for more bytes than the block holds (and at most
    [SIZE_MAX - 7]), when it returns a pointer: the pointer is that of
    another block, inside the region; the first payload-size bytes at the
    new address are the old payload; the old header is flagged free with
    its size unchanged; and the region is well-formed again, with the old
    block released and the first fitting block placed. *)
Theorem X9_implicit_realloc_moves_the_payload :
  forall MAX fuel new_size st ws k w ptr st',
    Implicit.heap_ok st ws = true -> ws !! k = Some w -> Z.land w 1 = 1 ->
    0 < new_size <= SIZE_MAX - 7 -> Implicit.payload_of w < new_size ->
    (length ws < fuel)%nat ->
    Implicit.myrealloc MAX fuel (Implicit.payload_address st ws k) new_size st
    = Some (ptr, st') ->
    ptr <> NULL ->
    Implicit.heap_ok st'
      (Implicit.allocate_in (Implicit.roundup new_size) (<[k := Z.lxor w 1]> ws))
    = true
    /\ ptr <> Implicit.payload_address st ws k
    /\ Implicit.heapStart st + 8 <= ptr
    /\ ptr + Implicit.roundup new_size <= Implicit.heapStart st + Implicit.heapSize st
    /\ (forall j, 0 <= j < Implicit.payload_of w / 8 ->
          load (Implicit.mem st') (ptr + 8 * j)
          = load (Implicit.mem st) (Implicit.payload_address st ws k + 8 * j))
    /\ load (Implicit.mem st') (Implicit.payload_address st ws k - 8) = Z.lxor w 1.
Proof. intros. by eapply ImplicitHeap.myrealloc_moves. Qed.

Lemma X9_witness :
  Implicit.heap_ok I.after_grow
    (Implicit.allocate_in (Implicit.roundup 100) (<[0%nat := Z.lxor 17 1]> [17; 4064]))
  = true
  /\ 4128 <> Implicit.payload_address I.after_16 [17; 4064] 0
  /\ Implicit.heapStart I.after_16 + 8 <= 4128
  /\ 4128 + Implicit.roundup 100
     <= Implicit.heapStart I.after_16 + Implicit.heapSize I.after_16
  /\ (forall j, 0 <= j < Implicit.payload_of 17 / 8 ->
        load (Implicit.mem I.after_grow) (4128 + 8 * j)
        = load (Implicit.mem I.after_16)
               (Implicit.payload_address I.after_16 [17; 4064] 0 + 8 * j))
  /\ load (Implicit.mem I.after_grow)
          (Implicit.payload_address I.after_16 [17; 4064] 0 - 8) = Z.lxor 17 1.
Proof.
  apply (X9_implicit_realloc_moves_the_payload LIMIT 8%nat 100 I.after_16 [17; 4064]
           0%nat 17 4128 I.after_grow).
  - vm_compute. reflexivity.
  - reflexivity.
  - reflexivity.
  - unfold SIZE_MAX, modulus. lia.
  - vm_compute. reflexivity.
  - simpl. lia.
  - vm_compute. reflexivity.
  - unfold NULL. lia.
Defined.

(** X10: in the implicit variant every state produced by correct use (a
    good [myinit], then successful [mymalloc] calls, growing [myrealloc]
    calls that return a block, [myfree] of allocated blocks, client writes
    into allocated payloads) is well-formed, and [validate_heap] returns
    true on it. *)
Theorem X10_implicit_validator_accepts_correct_use :
  forall MAX fuel st ws,
    Implicit.served MAX st ws -> (length ws < fuel)%nat ->
    Implicit.heap_ok st ws = true /\ Implicit.validate_heap fuel st = Some true.
Proof.
  intros MAX fuel st ws Hserved Hfuel. split.
  - by apply (ImplicitHeap.served_heap_ok MAX).
  - by apply (ImplicitHeap.served_validate_heap MAX fuel st ws).
Qed.

Lemma X10_witness :
  Implicit.heap_ok I.after_small_freed [8; 4072] = true
  /\ Implicit.validate_heap 8 I.after_small_freed = Some true.
Proof.
  apply (X10_implicit_validator_accepts_correct_use LIMIT 8%nat I.after_small_freed
           [8; 4072]).
  - apply (Implicit.served_free LIMIT I.after_small [9; 4072] 0%nat 9).
    + apply (Implicit.served_malloc LIMIT 8%nat 8 I.fresh [4088] 4104 I.after_small).
      * apply (Implicit.served_init LIMIT 4096 4096 I.blank).
        -- lia.
        -- reflexivity.
        -- lia.
        -- reflexivity.
        -- unfold modulus. lia.
      * vm_compute. reflexivity.
      * unfold NULL. lia.
    + reflexivity.
    + reflexivity.
  - simpl. lia.
Defined.

(** ** explicit.c *)

(** X11: [myinit] of the explicit variant on an 8-aligned region of at
    least 24 bytes, a multiple of 8, inside the address space succeeds and
    leaves a well-formed region: one free block whose payload is the region
    less 16 bytes, which is the only node of the free list, with
    [sizeUsed = 0] and [freeSpace] the length of the region. *)
Theorem X11_explicit_init_gives_one_free_node :
  forall heap_start heap_size st,
    0 < heap_start -> heap_start mod 8 = 0 ->
    24 <= heap_size -> heap_size mod 8 = 0 ->
    heap_start + heap_size < modulus ->
    (Explicit.myinit heap_start heap_size st).1 = true
    /\ Explicit.heap_ok (Explicit.myinit heap_start heap_size st).2 [heap_size - 16]
       = true
    /\ Explicit.sizeUsed (Explicit.myinit heap_start heap_size st).2 = 0
    /\ Explicit.freeSpace (Explicit.myinit heap_start heap_size st).2 = heap_size.
Proof. intros. by apply ExplicitHeap.myinit_heap_ok_e. Qed.

Lemma X11_witness :
  (Explicit.myinit 4096 4096 E.blank).1 = true
  /\ Explicit.heap_ok (Explicit.myinit 4096 4096 E.blank).2 [4096 - 16] = true
  /\ Explicit.sizeUsed (Explicit.myinit 4096 4096 E.blank).2 = 0
  /\ Explicit.freeSpace (Explicit.myinit 4096 4096 E.blank).2 = 4096.
Proof.
  apply (X11_explicit_init_gives_one_free_node 4096 4096 E.blank).
  - lia.
  - reflexivity.
  - lia.
  - reflexivity.
  - unfold modulus. lia.
Defined.

(** X12: on a well-formed region [mymalloc] of the explicit variant, for a
    request of at most [SIZE_MAX - 7] bytes, returns (two units of fuel are
    enough); the null pointer comes with an unchanged state; any other
    result is the payload address of the last block of the region, which
    was free and large enough, is 8-aligned, the rounded request ends
    inside the region, no word of memory in front of the block is changed,
    and the region is well-formed again with that block split or flagged as
    a whole. *)
Theorem X12_explicit_malloc_serves_from_the_last_block :
  forall MAX fuel r st ws,
    Explicit.heap_ok st ws = true -> 0 <= r <= SIZE_MAX - 7 -> (2 <= fuel)%nat ->
    exists ptr st',
      Explicit.mymalloc MAX fuel r st = Some (ptr, st')
      /\ (ptr = NULL -> st' = st)
      /\ (ptr <> NULL ->
          Explicit.heap_ok st' (Explicit.allocate_last (Explicit.roundup r) ws) = true
          /\ ptr = Explicit.payload_address st ws (length ws - 1)
          /\ ptr mod 8 = 0
          /\ ptr + Explicit.roundup r <= Explicit.heapStart st + Explicit.heapSize st
          /\ Explicit.heapStart st' = Explicit.heapStart st
          /\ (forall a, a < ptr - 16 ->
                load (Explicit.mem st') a = load (Explicit.mem st) a)
          /\ exists pre w,
               ws = pre ++ [w] /\ Z.land w 1 = 0 /\ Explicit.roundup r <= w).
Proof. intros. by apply ExplicitHeap.mymalloc_heap_ok_e. Qed.

Lemma X12_witness :
  exists ptr st',
    Explicit.mymalloc LIMIT 8 16 E.after_A = Some (ptr, st')
    /\ (ptr = NULL -> st' = E.after_A)
    /\ (ptr <> NULL ->
        Explicit.heap_ok st' (Explicit.allocate_last (Explicit.roundup 16) [17; 4048])
        = true
        /\ ptr = Explicit.payload_address E.after_A [17; 4048] (length [17; 4048] - 1)
        /\ ptr mod 8 = 0
        /\ ptr + Explicit.roundup 16
           <= Explicit.heapStart E.after_A + Explicit.heapSize E.after_A
        /\ Explicit.heapStart st' = Explicit.heapStart E.after_A
        /\ (forall a, a < ptr - 16 ->
              load (Explicit.mem st') a = load (Explicit.mem E.after_A) a)
        /\ exists pre w,
             [17; 4048] = pre ++ [w] /\ Z.land w 1 = 0 /\ Explicit.roundup 16 <= w).
Proof.
  apply (X12_explicit_malloc_serves_from_the_last_block LIMIT 8%nat 16 E.after_A
           [17; 4048]).
  - vm_compute. reflexivity.
  - unfold SIZE_MAX, modulus. lia.
  - lia.
Defined.

(** X13: [myfree] of the explicit variant on the payload address of a block
    flagged allocated in a well-formed region leaves the region
    well-formed: the last block becomes the only free-list node; a block
    whose right neighbour is the free last block absorbs it (payload plus 16
    plus the neighbour's payload) and becomes the only node; a block in
    front of an allocated block keeps its header as it is.  In every case
    the only words of memory that can change are the three header words of
    the released block, the third of which is the first word of its own
    payload. *)
Theorem X13_explicit_free_merges_with_the_free_right_neighbour :
  forall st ws k w,
    Explicit.heap_ok st ws = true -> ws !! k = Some w -> Z.land w 1 = 1 ->
    Explicit.heap_ok (Explicit.myfree (Explicit.payload_address st ws k) st)
                     (Explicit.free_in k ws) = true
    /\ (forall a,
          a < Explicit.payload_address st ws k - 16
          \/ Explicit.payload_address st ws k + 8 <= a ->
          load (Explicit.mem (Explicit.myfree (Explicit.payload_address st ws k) st)) a
          = load (Explicit.mem st) a).
Proof.
  intros st ws k w Hok Hk Hflag. split.
  - by apply (ExplicitHeap.myfree_heap_ok_e st ws k w).
  - by apply (ExplicitHeap.myfree_frame_e st ws k w).
Qed.

Lemma X13_witness :
  Explicit.heap_ok
    (Explicit.myfree (Explicit.payload_address E.after_AB [17; 17; 4016] 1) E.after_AB)
    (Explicit.free_in 1 [17; 17; 4016]) = true
  /\ (forall a,
        a < Explicit.payload_address E.after_AB [17; 17; 4016] 1 - 16
        \/ Explicit.payload_address E.after_AB [17; 17; 4016] 1 + 8 <= a ->
        load (Explicit.mem
                (Explicit.myfree (Explicit.payload_address E.after_AB [17; 17; 4016] 1)
                                 E.after_AB)) a
        = load (Explicit.mem E.after_AB) a).
Proof.
  apply (X13_explicit_free_merges_with_the_free_right_neighbour E.after_AB
           [17; 17; 4016] 1%nat 17).
  - vm_compute. reflexivity.
  - reflexivity.
  - reflexivity.
Defined.

(** X14: in the explicit variant, on a well-formed region and for a request
    of at most [SIZE_MAX - 7] bytes, [myfree] of the pointer that [mymalloc]
    has just returned gives back the blocks as they were before the
    allocation: a split is undone by the merge with the remainder. *)
Theorem X14_explicit_malloc_then_free_restores_the_blocks :
  forall MAX fuel r st ws ptr st',
    Explicit.heap_ok st ws = true -> 0 <= r <= SIZE_MAX - 7 -> (2 <= fuel)%nat ->
    Explicit.mymalloc MAX fuel r st = Some (ptr, st') -> ptr <> NULL ->
    Explicit.heap_ok (Explicit.myfree ptr st') ws = true.
Proof. intros. by eapply ExplicitHeap.mymalloc_myfree_heap_ok. Qed.

Lemma X14_witness :
  Explicit.heap_ok (Explicit.myfree 4144 E.after_AB) [17; 4048] = true.
Proof.
  apply (X14_explicit_malloc_then_free_restores_the_blocks LIMIT 8%nat 16 E.after_A
           [17; 4048] 4144 E.after_AB).
  - vm_compute. reflexivity.
  - unfold SIZE_MAX, modulus. lia.
  - lia.
  - vm_compute. reflexivity.
  - unfold NULL. lia.
Defined.

(** X15: on a region of the explicit variant that has the shape of a
    sequence of blocks with at most the last one on the free list,
    [validate_heap] returns (given fuel for one pass over the blocks) and
    its answer depends on the counters alone: [sizeUsed <= heapSize] and
    [freeSpace + sizeUsed = heapSize] in [size_t] arithmetic. *)
Theorem X15_explicit_validator_decides_on_the_counters :
  forall fuel st ws,
    Explicit.placed st = true -> Explicit.shaped st 0 ws = true ->
    (length ws < fuel)%nat ->
    Explicit.validate_heap fuel st
    = Some ((Explicit.sizeUsed st <=? Explicit.heapSize st)
            && (wrap (Explicit.freeSpace st + Explicit.sizeUsed st)
                =? Explicit.heapSize st)).
Proof.
  intros fuel st ws Hplaced Hshape Hfuel.
  by apply (ExplicitHeap.validate_heap_shaped fuel st ws).
Qed.

Lemma X15_witness :
  Explicit.validate_heap 8 E.after_AB
  = Some ((Explicit.sizeUsed E.after_AB <=? Explicit.heapSize E.after_AB)
          && (wrap (Explicit.freeSpace E.after_AB + Explicit.sizeUsed E.after_AB)
              =? Explicit.heapSize E.after_AB)).
Proof.
  apply (X15_explicit_validator_decides_on_the_counters 8%nat E.after_AB
           [17; 17; 4016]).
  - vm_compute. reflexivity.
  - vm_compute. reflexivity.
  - simpl. lia.
Defined.

(** X16: [myrealloc] of the explicit variant, called on a block flagged
    allocated in a well-formed region for a rounded size above the block's
    payload, when it returns a pointer: the pointer is the payload address
    of the last block of the region; the first payload-size bytes there are
    the old payload; the region is well-formed again; and the header of the
    old block is unchanged, still flagged allocated, so the old block is
    not returned to the free list. *)
Theorem X16_explicit_realloc_moves_and_keeps_the_old_block_flagged :
  forall MAX fuel new_size st ws k w ptr st',
    Explicit.heap_ok st ws = true -> ws !! k = Some w -> Z.land w 1 = 1 ->
    0 < new_size <= SIZE_MAX - 7 ->
    Explicit.payload_of w < Explicit.roundup new_size ->
    (2 <= fuel)%nat ->
    Explicit.myrealloc MAX fuel (Explicit.payload_address st ws k) new_size st
    = Some (ptr, st') ->
    ptr <> NULL ->
    Explicit.heap_ok st' (Explicit.allocate_last (Explicit.roundup new_size) ws) = true
    /\ ptr = Explicit.payload_address st ws (length ws - 1)
    /\ (forall j, 0 <= j < Explicit.payload_of w / 8 ->
          load (Explicit.mem st') (ptr + 8 * j)
          = load (Explicit.mem st) (Explicit.payload_address st ws k + 8 * j))
    /\ load (Explicit.mem st') (Explicit.payload_address st ws k - 16) = w.
Proof. intros. by eapply ExplicitHeap.myrealloc_moves_e. Qed.

Lemma X16_witness :
  Explicit.heap_ok E.after_grow_A
    (Explicit.allocate_last (Explicit.roundup 100) [17; 4048]) = true
  /\ 4144 = Explicit.payload_address E.after_A [17; 4048] (length [17; 4048] - 1)
  /\ (forall j, 0 <= j < Explicit.payload_of 17 / 8 ->
        load (Explicit.mem E.after_grow_A) (4144 + 8 * j)
        = load (Explicit.mem E.after_A)
               (Explicit.payload_address E.after_A [17; 4048] 0 + 8 * j))
  /\ load (Explicit.mem E.after_grow_A)
          (Explicit.payload_address E.after_A [17; 4048] 0 - 16) = 17.
Proof.
  apply (X16_explicit_realloc_moves_and_keeps_the_old_block_flagged LIMIT 8%nat 100
           E.after_A [17; 4048] 0%nat 17 4144 E.after_grow_A).
  - vm_compute. reflexivity.
  - reflexivity.
  - reflexivity.
  - unfold SIZE_MAX, modulus. lia.
  - vm_compute. reflexivity.
  - lia.
  - vm_compute. reflexivity.
  - unfold NULL. lia.
Defined.

(** X17: in the explicit variant, after correct use (a good [myinit], then
    [mymalloc] and growing [myrealloc] calls that return a block, [myfree]
    of blocks flagged allocated, client writes into such blocks) every
    block but the last is flagged allocated, and the free list is empty or
    holds exactly one node, the last block of the region, with both links
    null: a block released in front of an allocated block is never on the
    free list. *)
Theorem X17_explicit_free_list_holds_at_most_the_last_block :
  forall MAX st ws,
    Explicit.served MAX st ws ->
    exists pre w,
      ws = pre ++ [w]
      /\ Forall (fun x => Z.land x 1 = 1) pre
      /\ Explicit.heapStart st + Explicit.span pre + 16 + Explicit.payload_of w
         = Explicit.heapStart st + Explicit.heapSize st
      /\ if Z.land w 1 =? 0
         then Explicit.freeEnd st = Explicit.heapStart st + Explicit.span pre
              /\ Explicit.load_header (Explicit.mem st) (Explicit.freeEnd st)
                 = Explicit.mk_header w NULL NULL
         else Explicit.freeEnd st = NULL.
Proof. intros MAX st ws. apply ExplicitHeap.served_free_list. Qed.

Lemma X17_witness :
  exists pre w,
    [17; 4048] = pre ++ [w]
    /\ Forall (fun x => Z.land x 1 = 1) pre
    /\ Explicit.heapStart E.after_free_B + Explicit.span pre + 16
       + Explicit.payload_of w
       = Explicit.heapStart E.after_free_B + Explicit.heapSize E.after_free_B
    /\ if Z.land w 1 =? 0
       then Explicit.freeEnd E.after_free_B
            = Explicit.heapStart E.after_free_B + Explicit.span pre
            /\ Explicit.load_header (Explicit.mem E.after_free_B)
                                    (Explicit.freeEnd E.after_free_B)
               = Explicit.mk_header w NULL NULL
       else Explicit.freeEnd E.after_free_B = NULL.
Proof.
  apply (X17_explicit_free_list_holds_at_most_the_last_block LIMIT E.after_free_B
           [17; 4048]).
  apply (Explicit.served_free LIMIT E.after_AB [17; 17; 4016] 1%nat 17).
  - apply (Explicit.served_malloc LIMIT 8%nat 16 E.after_A [17; 4048] 4144 E.after_AB).
    + apply (Explicit.served_malloc LIMIT 8%nat 16 E.fresh [4080] 4112 E.after_A).
      * apply (Explicit.served_init LIMIT 4096 4096 E.blank).
        -- lia.
        -- reflexivity.
        -- lia.
        -- reflexivity.
        -- unfold modulus. lia.
      * unfold SIZE_MAX, modulus. lia.
      * vm_compute. reflexivity.
      * unfold NULL. lia.
    + unfold SIZE_MAX, modulus. lia.
    + vm_compute. reflexivity.
    + unfold NULL. lia.
  - reflexivity.
  - reflexivity.
Defined.

(** X18: in the explicit variant, after correct use, [validate_heap]
    returns (given fuel for one pass over the blocks) and answers exactly
    whether [sizeUsed <= heapSize]: neither the headers nor the free list
    can make it fail. *)
Theorem X18_explicit_validator_after_correct_use :
  forall MAX fuel st ws,
    Explicit.served MAX st ws -> (length ws < fuel)%nat ->
    Explicit.validate_heap fuel st
    = Some (Explicit.sizeUsed st <=? Explicit.heapSize st).
Proof.
  intros MAX fuel st ws Hserved Hfuel.
  by apply (ExplicitHeap.served_validate_heap_e MAX fuel st ws).
Qed.

Lemma X18_witness :
  Explicit.validate_heap 8 E.after_A
  = Some (Explicit.sizeUsed E.after_A <=? Explicit.heapSize E.after_A).
Proof.
  apply (X18_explicit_validator_after_correct_use LIMIT 8%nat E.after_A [17; 4048]).
  - apply (Explicit.served_malloc LIMIT 8%nat 16 E.fresh [4080] 4112 E.after_A).
    + apply (Explicit.served_init LIMIT 4096 4096 E.blank).
      * lia.
      * reflexivity.
      * lia.
      * reflexivity.
      * unfold modulus. lia.
    + unfold SIZE_MAX, modulus. lia.
    + vm_compute. reflexivity.
    + unfold NULL. lia.
  - simpl. lia.
Defined.

(** ** The first request after initialisation *)

(** X19: in the implicit variant, right after [myinit] on an aligned region,
    [mymalloc] of a request of 1 to [SIZE_MAX - 7] bytes returns a block
    exactly when the rounded request is at most [MAX_REQUEST_SIZE] and at
    most the region less the 8 bytes of the header, and then the pointer is
    8 bytes into the region. *)
Theorem X19_implicit_first_request_succeeds_iff_it_fits :
  forall MAX fuel heap_start heap_size st r,
    0 < heap_start -> heap_start mod 8 = 0 ->
    8 <= heap_size -> heap_size mod 8 = 0 ->
    heap_start + heap_size < modulus ->
    0 < r <= SIZE_MAX - 7 -> (2 <= fuel)%nat ->
    exists ptr st',
      Implicit.mymalloc MAX fuel r (Implicit.myinit heap_start heap_size st).2
      = Some (ptr, st')
      /\ (ptr <> NULL <->
          Implicit.roundup r <= MAX /\ Implicit.roundup r <= heap_size - 8)
      /\ (ptr <> NULL -> ptr = heap_start + 8).
Proof. intros. by apply ImplicitHeap.fresh_capacity. Qed.

Lemma X19_witness :
  exists ptr st',
    Implicit.mymalloc LIMIT 8 4088 (Implicit.myinit 4096 4096 I.blank).2
    = Some (ptr, st')
    /\ (ptr <> NULL <->
        Implicit.roundup 4088 <= LIMIT /\ Implicit.roundup 4088 <= 4096 - 8)
    /\ (ptr <> NULL -> ptr = 4096 + 8).
Proof.
  apply (X19_implicit_first_request_succeeds_iff_it_fits LIMIT 8%nat 4096 4096
           I.blank 4088).
  - lia.
  - reflexivity.
  - lia.
  - reflexivity.
  - unfold modulus. lia.
  - unfold SIZE_MAX, modulus. lia.
  - lia.
Defined.

(** X20: in the explicit variant, right after [myinit] on a region of at
    least 24 bytes, a multiple of 8, [mymalloc] of a request of 1 to
    [SIZE_MAX - 7] bytes returns a block exactly when the rounded request is
    at most [MAX_REQUEST_SIZE] and at most the region less 16 bytes, and
    then the pointer is 16 bytes into the region. *)
Theorem X20_explicit_first_request_succeeds_iff_it_fits :
  forall MAX fuel heap_start heap_size st r,
    0 < heap_start -> 24 <= heap_size -> heap_size mod 8 = 0 ->
    heap_start + heap_size < modulus ->
    0 < r <= SIZE_MAX - 7 -> (2 <= fuel)%nat ->
    exists ptr st',
      Explicit.mymalloc MAX fuel r (Explicit.myinit heap_start heap_size st).2
      = Some (ptr, st')
      /\ (ptr <> NULL <->
          Explicit.roundup r <= MAX /\ Explicit.roundup r <= heap_size - 16)
      /\ (ptr <> NULL -> ptr = heap_start + 16).
Proof. intros. by apply ExplicitHeap.fresh_capacity_e. Qed.

Lemma X20_witness :
  exists ptr st',
    Explicit.mymalloc LIMIT 8 4080 (Explicit.myinit 4096 4096 E.blank).2
    = Some (ptr, st')
    /\ (ptr <> NULL <->
        Explicit.roundup 4080 <= LIMIT /\ Explicit.roundup 4080 <= 4096 - 16)
    /\ (ptr <> NULL -> ptr = 4096 + 16).
Proof.
  apply (X20_explicit_first_request_succeeds_iff_it_fits LIMIT 8%nat 4096 4096
           E.blank 4080).
  - lia.
  - lia.
  - reflexivity.
  - unfold modulus. lia.
  - unfold SIZE_MAX, modulus. lia.
  - lia.
Defined.

(** ** Release, then allocation *)

(** X21: in the implicit variant a released block can be allocated again:
    right after [myfree] of an allocated block of a well-formed region,
    [mymalloc] of a request (not zero, rounded size at most
    [MAX_REQUEST_SIZE]) that fits the payload of that block returns a
    block, at the address of the released block or in front of it. *)
Theorem X21_implicit_released_block_can_be_allocated_again :
  forall MAX fuel r st ws k w,
    Implicit.heap_ok st ws = true -> ws !! k = Some w -> Z.land w 1 = 1 ->
    0 < r -> Implicit.roundup r <= Implicit.payload_of w ->
    Implicit.roundup r <= MAX ->
    (length ws < fuel)%nat ->
    exists ptr st',
      Implicit.mymalloc MAX fuel r
        (Implicit.myfree (Implicit.payload_address st ws k) st) = Some (ptr, st')
      /\ ptr <> NULL /\ ptr <= Implicit.payload_address st ws k.
Proof. intros. by apply (ImplicitHeap.myfree_mymalloc MAX fuel r st ws k w). Qed.

Lemma X21_witness :
  exists ptr st',
    Implicit.mymalloc LIMIT 8 16
      (Implicit.myfree (Implicit.payload_address I.after_16 [17; 4064] 0) I.after_16)
    = Some (ptr, st')
    /\ ptr <> NULL /\ ptr <= Implicit.payload_address I.after_16 [17; 4064] 0.
Proof.
  apply (X21_implicit_released_block_can_be_allocated_again LIMIT 8%nat 16 I.after_16
           [17; 4064] 0%nat 17).
  - vm_compute. reflexivity.
  - reflexivity.
  - reflexivity.
  - lia.
  - apply Z.leb_le. vm_compute. reflexivity.
  - apply Z.leb_le. vm_compute. reflexivity.
  - simpl. lia.
Defined.

(** X22: in the explicit variant a block released at the end of the region,
    or in front of the free last block, can be allocated again: when the
    counters add up and [sizeUsed] covers the block, [mymalloc] of a
    request (not zero, rounded size at most [MAX_REQUEST_SIZE]) that fits
    the payload of that block, called right after [myfree], returns the
    pointer that was released. *)
Theorem X22_explicit_block_released_at_the_end_is_allocated_again :
  forall MAX fuel r st ws k w,
    Explicit.heap_ok st ws = true -> ws !! k = Some w -> Z.land w 1 = 1 ->
    (forall w', ws !! S k = Some w' -> Z.land w' 1 = 0) ->
    Explicit.budget st ->
    Explicit.payload_of w + 16 <= Explicit.sizeUsed st <= Explicit.heapSize st ->
    0 < r -> Explicit.roundup r <= Explicit.payload_of w ->
    Explicit.roundup r <= MAX ->
    (2 <= fuel)%nat ->
    exists st',
      Explicit.mymalloc MAX fuel r
        (Explicit.myfree (Explicit.payload_address st ws k) st)
      = Some (Explicit.payload_address st ws k, st').
Proof. intros. by apply (ExplicitHeap.myfree_mymalloc_e MAX fuel r st ws k w). Qed.

Lemma X22_witness :
  exists st',
    Explicit.mymalloc LIMIT 8 16
      (Explicit.myfree (Explicit.payload_address E.after_AB [17; 17; 4016] 1) E.after_AB)
    = Some (Explicit.payload_address E.after_AB [17; 17; 4016] 1, st').
Proof.
  apply (X22_explicit_block_released_at_the_end_is_allocated_again LIMIT 8%nat 16
           E.after_AB [17; 17; 4016] 1%nat 17).
  - vm_compute. reflexivity.
  - reflexivity.
  - reflexivity.
  - intros w' Hw'. injection Hw' as <-. reflexivity.
  - unfold Explicit.budget, in_range.
    repeat split; try (apply Z.leb_le; vm_compute; reflexivity);
      try (apply Z.ltb_lt; vm_compute; reflexivity).
  - split; apply Z.leb_le; vm_compute; reflexivity.
  - lia.
  - apply Z.leb_le. vm_compute. reflexivity.
  - apply Z.leb_le. vm_compute. reflexivity.
  - lia.
Defined.
